(** * PostStorage: a shallow embedding of the Patreon post tracker's storage class

    The development follows the TypeScript class [PostStorage]: the two SQL
    tables it owns, the private storage helpers, the bounded two-phase
    synchronisation job and the paged read.  Effects (SQL statements,
    [fetch], the console, exceptions) are threaded through a small state and
    exception monad. *)

From Stdlib Require Import List ZArith String Ascii Bool Lia Arith.
From Stdlib Require Import Permutation Sorted QArith OrdersEx DecimalString.
From Stdlib Require Import Floats.
Import ListNotations.

Local Open Scope string_scope.
Local Open Scope Z_scope.
Local Open Scope list_scope.

(* ================================================================== *)
(** * Types for dealing with the Patreon API *)

Record PatreonPostAttributes : Type := mkAttributes {
  attr_comment_count : Z;
  attr_like_count : Z;
  attr_title : string;
  attr_published_at : string;
  attr_content_teaser_text : string;
  attr_url : string
}.

Record PatreonPostData : Type := mkPostData {
  post_id : string;
  attributes : PatreonPostAttributes
}.

(** [links.next] is an optional string; [meta] is never read by the class. *)
Record PatreonApiResponse : Type := mkResponse {
  data : list PatreonPostData;
  links_next : option string
}.

(* ================================================================== *)
(** * Types of the storage interface *)

Record StoredPost : Type := mkStoredPost {
  sp_title : string;
  sp_published_at : string;
  sp_comment_count : Z;
  sp_like_count : Z;
  sp_url : string
}.

(** A row of [patreon_post_runs].  [started_at] holds the ISO string of an
    instant; it is represented by the instant itself (milliseconds since the
    epoch), which [toISOString] encodes injectively and, for four-digit years,
    monotonically.  The three other columns are NULL until the run ends. *)
Record StoredPreviousRun : Type := mkRun {
  started_at : Z;
  duration_seconds : option Q;
  posts_retrieved : option nat;
  last_next_link : option string
}.

(** The values of the [SortableColumns] enum, as [Object.values] lists them. *)
Definition SortableColumns_values : list string :=
  ["comment_count"; "like_count"; "published_at"].

(** A row of [patreon_posts]. *)
Record PostRow : Type := mkRow {
  id : string;
  title : string;
  published_at : string;
  comment_count : Z;
  like_count : Z;
  content_teaser_text : string;
  url : string
}.

(* ================================================================== *)
(** * The durable object: tables, subrequest counter, observable trace *)

Inductive Phase : Type := PartOne | PartTwo.

Inductive Event : Type :=
| EvSelectLastRun
| EvInsertRun (startTime : Z)
| EvUpdateRun (startTime : Z) (rowsWritten : nat)
| EvUpsertPost (postId : string)
| EvSelectPosts (limit offset : PrimFloat.float)
| EvFetch (ph : Phase) (callIndex : nat) (apiUrl : string)
| EvConsoleLog (ph : Phase) (retrieved : nat)
| EvConsoleError (args : list string).

Record World : Type := mkWorld {
  patreon_posts : list PostRow;
  patreon_post_runs : list StoredPreviousRun;
  subrequests : nat;
  trace : list Event
}.
Arguments EvSelectPosts (limit offset)%_float.

(** [initTables] creates both tables when they do not exist yet; a durable
    object that has never run starts from two empty tables. *)
Definition freshWorld : World := mkWorld [] [] 0 [].

Definition initTables (w : World) : World := w.

(* ------------------------------------------------------------------ *)
(** ** A state and exception monad *)

(** What is thrown: a rejected [fetch] or [json], and the two errors the
    SQL binding raises for the statement of [getPosts]. *)
Inductive Exn : Type :=
| NetworkFault
| DatatypeMismatch
| LikePatternTooComplex.

Inductive Completion (A : Type) : Type :=
| Normal (a : A)
| Thrown (e : Exn).
Arguments Normal {A} a.
Arguments Thrown {A} e.

Definition M (A : Type) : Type := World -> Completion A * World.

Definition ret {A} (a : A) : M A := fun w => (Normal a, w).

Definition bind {A B} (m : M A) (k : A -> M B) : M B :=
  fun w => match m w with
           | (Normal a, w') => k a w'
           | (Thrown e, w') => (Thrown e, w')
           end.

Definition throw {A} (e : Exn) : M A := fun w => (Thrown e, w).

Definition emit (e : Event) : M unit :=
  fun w => (Normal tt,
            mkWorld (patreon_posts w) (patreon_post_runs w) (subrequests w)
                    (trace w ++ [e])).

Declare Scope m_scope.
Delimit Scope m_scope with M.
Notation "x <- m ;; k" := (bind m (fun x => k))
  (at level 61, m at next level, right associativity) : m_scope.
Notation "m ;;; k" := (bind m (fun _ => k))
  (at level 61, right associativity) : m_scope.
Local Open Scope m_scope.

Definition completed {A} (r : Completion A * World) : bool :=
  match fst r with Normal _ => true | Thrown _ => false end.

(* ------------------------------------------------------------------ *)
(** ** JavaScript truthiness of [string | undefined | null] *)

Definition truthy (s : option string) : bool :=
  match s with
  | Some EmptyString => false
  | Some _ => true
  | None => false
  end.

(* ================================================================== *)
(** * Storage internals *)

(** [insert into patreon_post_runs(started_at) values (?)] *)
Definition storeRunStart (now : Z) : M Z :=
  fun w =>
    (Normal now,
     mkWorld (patreon_posts w)
             (patreon_post_runs w ++ [mkRun now None None None])
             (subrequests w)
             (trace w ++ [EvInsertRun now])).

(** [update patreon_post_runs set ... where started_at = ?] *)
Definition updateRun (startTime : Z) (duration : Q) (retrieved : nat)
           (link : option string) (r : StoredPreviousRun) : StoredPreviousRun :=
  if started_at r =? startTime
  then mkRun (started_at r) (Some duration) (Some retrieved) link
  else r.

Definition rowsMatching (startTime : Z) (runs : list StoredPreviousRun) : nat :=
  List.length (filter (fun r => started_at r =? startTime) runs).

Definition storeRunEnd (startTime : Z) (duration : Q) (retrieved : nat)
           (link : option string) : M unit :=
  fun w =>
    let rowsWritten := rowsMatching startTime (patreon_post_runs w) in
    let w' := mkWorld (patreon_posts w)
                      (map (updateRun startTime duration retrieved link)
                           (patreon_post_runs w))
                      (subrequests w)
                      (trace w ++ [EvUpdateRun startTime rowsWritten]) in
    if (rowsWritten =? 0)%nat
    then emit (EvConsoleError ["last run not updated"]) w'
    else (Normal tt, w').

(** The seven values bound by [upsertJsonPosts] for one post. *)
Definition rowOfPost (p : PatreonPostData) : PostRow :=
  mkRow (post_id p)
        (attr_title (attributes p))
        (attr_published_at (attributes p))
        (attr_comment_count (attributes p))
        (attr_like_count (attributes p))
        (attr_content_teaser_text (attributes p))
        (attr_url (attributes p)).

(** [insert or replace] on a table whose [id] column is [unique]: the rows
    that conflict on [id] are deleted, then the new row is inserted. *)
Definition insertOrReplace (r : PostRow) (tbl : list PostRow) : list PostRow :=
  filter (fun x => negb (id x =? id r)%string) tbl ++ [r].

Definition upsertPost (p : PatreonPostData) : M unit :=
  fun w =>
    (Normal tt,
     mkWorld (insertOrReplace (rowOfPost p) (patreon_posts w))
             (patreon_post_runs w)
             (subrequests w)
             (trace w ++ [EvUpsertPost (post_id p)])).

Fixpoint upsertEach (ps : list PatreonPostData) : M unit :=
  match ps with
  | [] => ret tt
  | p :: rest => upsertPost p ;;; upsertEach rest
  end.

Definition upsertJsonPosts (posts : PatreonApiResponse) : M unit :=
  upsertEach (data posts).

(** The table that results from upserting a list of rows in order. *)
Definition upsertRows (rs : list PostRow) (tbl : list PostRow) : list PostRow :=
  fold_left (fun t r => insertOrReplace r t) rs tbl.

Definition lookupPost (i : string) (tbl : list PostRow) : option PostRow :=
  find (fun r => (id r =? i)%string) tbl.

(* ================================================================== *)
(** * The remote feed *)

(** What [await fetch(apiUrl)] followed by [await response.json()] yields for
    the [callIndex]-th subrequest of the object: a parsed body, or [None] when
    either promise rejects (network fault, unparsable body). *)
Definition Network : Type := nat -> string -> option PatreonApiResponse.

Definition fetchJson (net : Network) (ph : Phase) (apiUrl : string)
  : M PatreonApiResponse :=
  fun w =>
    let k := subrequests w in
    let w' := mkWorld (patreon_posts w) (patreon_post_runs w) (S k)
                      (trace w ++ [EvFetch ph k apiUrl]) in
    match net k apiUrl with
    | Some posts => (Normal posts, w')
    | None => (Thrown NetworkFault, w')
    end.

Definition initialApiUrl : string :=
  "https://www.patreon.com/api/posts?fields[campaign]=name%2Curl%2Cpatron_count&fields[post]=url%2Ccontent_teaser_text%2Ccomment_count%2Ccommenter_count%2Ccontent%2Ccreated_at%2Clike_count%2Cpublished_at%2Cpatreon_url%2Cpost_type%2Ctitle%2Cview_count&fields[post_tag]=tag_type%2Cvalue&filter[campaign_id]=76490&sort=-published_at&json-api-use-default-includes=false&json-api-version=1.0".

(* ================================================================== *)
(** * Public interface *)

(** [order by started_at desc limit 1]: a row with the greatest [started_at];
    among equal instants the earliest inserted row is kept. *)
Fixpoint latestRun (runs : list StoredPreviousRun) : option StoredPreviousRun :=
  match runs with
  | [] => None
  | r :: rest =>
      match latestRun rest with
      | Some r' => if started_at r <? started_at r' then Some r' else Some r
      | None => Some r
      end
  end.

Definition getLastRun : M (option StoredPreviousRun) :=
  fun w =>
    (Normal (latestRun (patreon_post_runs w)),
     mkWorld (patreon_posts w) (patreon_post_runs w) (subrequests w)
             (trace w ++ [EvSelectLastRun])).

(** [lastRun?.last_next_link] *)
Definition linkOf (lastRun : option StoredPreviousRun) : option string :=
  match lastRun with
  | Some r => last_next_link r
  | None => None
  end.

(** The body shared by the two [for (let i = 0; i < 20; ++i)] loops;
    [budget] is the number of iterations left.  The result is the value of
    [apiUrl] after the loop together with [retrievedPosts]. *)
Fixpoint fetchPages (net : Network) (ph : Phase) (budget : nat)
         (apiUrl : string) (retrievedPosts : nat) : M (option string * nat) :=
  match budget with
  | O => ret (Some apiUrl, retrievedPosts)
  | S budget' =>
      posts <- fetchJson net ph apiUrl ;;
      upsertJsonPosts posts ;;;
      let retrievedPosts := (retrievedPosts + List.length (data posts))%nat in
      emit (EvConsoleLog ph retrievedPosts) ;;;
      if truthy (links_next posts)
      then match links_next posts with
           | Some next => fetchPages net ph budget' next retrievedPosts
           | None => ret (None, retrievedPosts)
           end
      else ret (links_next posts, retrievedPosts)
  end.

Definition elapsedSeconds (startTime now : Z) : Q := Qmake (now - startTime) 1000.

(** One run of the sync job.  [now0] is what [new Date()] reads in
    [storeRunStart], [now1] what [Date.now()] reads when the run ends. *)
Definition syncInPostsFromPatreon (net : Network) (now0 now1 : Z) : M unit :=
  lastRun <- getLastRun ;;
  startTime <- storeRunStart now0 ;;
  partOne <- fetchPages net PartOne 20 initialApiUrl 0 ;;
  let retrievedPosts := snd partOne in
  let apiUrl :=
    if truthy (linkOf lastRun) then linkOf lastRun else fst partOne in
  match apiUrl with
  | Some u =>
      if truthy (Some u)
      then partTwo <- fetchPages net PartTwo 20 u retrievedPosts ;;
           storeRunEnd startTime (elapsedSeconds startTime now1)
                       (snd partTwo) (fst partTwo)
      else storeRunEnd startTime (elapsedSeconds startTime now1)
                       retrievedPosts None
  | None => storeRunEnd startTime (elapsedSeconds startTime now1)
                        retrievedPosts None
  end.

(** Where part two starts: the previous run's link when it is truthy,
    otherwise the link part one ended on. *)
Definition partTwoStart (w : World) (partOne : option string * nat) : option string :=
  let lastLink := linkOf (latestRun (patreon_post_runs w)) in
  if truthy lastLink then lastLink else fst partOne.

(** The scheduler triggers one run after another; an exception thrown by a
    run ends that run only. *)
Definition afterRun (net : Network) (w : World) (t : Z * Z) : World :=
  snd (syncInPostsFromPatreon net (fst t) (snd t) w).

Definition afterRuns (net : Network) (times : list (Z * Z)) (w : World) : World :=
  fold_left (afterRun net) times w.

Definition getPostCount : M Z :=
  fun w => (Normal (Z.of_nat (List.length (patreon_posts w))), w).

(* ------------------------------------------------------------------ *)
(** ** The SQL engine as far as [getPosts] needs it *)

(** [LIKE]: [%] matches any run of characters, [_] exactly one character,
    every other character matches itself, ASCII letters without regard to
    case.  There is no escape character. *)
Definition lowerAscii (c : ascii) : ascii :=
  let n := nat_of_ascii c in
  if ((65 <=? n) && (n <=? 90))%nat then ascii_of_nat (n + 32) else c.

Definition eqNoCase (a b : ascii) : bool :=
  Ascii.eqb (lowerAscii a) (lowerAscii b).

Definition isUtf8Continuation (c : ascii) : bool :=
  let n := nat_of_ascii c in ((128 <=? n) && (n <? 192))%nat.

Fixpoint skipUtf8Tail (s : string) : string :=
  match s with
  | String c s' => if isUtf8Continuation c then skipUtf8Tail s' else s
  | EmptyString => s
  end.

Fixpoint anySuffix (matches : string -> bool) (s : string) : bool :=
  matches s ||
  match s with
  | EmptyString => false
  | String _ s' => anySuffix matches s'
  end.

Fixpoint sqlLike (pattern : string) (s : string) {struct pattern} : bool :=
  match pattern with
  | EmptyString => match s with EmptyString => true | _ => false end
  | String p pattern' =>
      if Ascii.eqb p "%" then anySuffix (sqlLike pattern') s
      else if Ascii.eqb p "_" then
        match s with
        | EmptyString => false
        | String _ s' => sqlLike pattern' (skipUtf8Tail s')
        end
      else
        match s with
        | EmptyString => false
        | String c s' => eqNoCase p c && sqlLike pattern' s'
        end
  end.

(** [title LIKE ("%" || ? || "%")] *)
Definition titleMatches (query : string) (r : PostRow) : bool :=
  sqlLike ("%" ++ query ++ "%") (title r).

(** Column values and their order under [ORDER BY]: integers compare
    numerically, text bytewise, and an integer sorts before any text. *)
Inductive SqlValue : Type :=
| VInteger (z : Z)
| VText (s : string).

Definition columnValue (column : string) (r : PostRow) : SqlValue :=
  if (column =? "comment_count")%string then VInteger (comment_count r)
  else if (column =? "like_count")%string then VInteger (like_count r)
  else VText (published_at r).

Definition sqlLeb (a b : SqlValue) : bool :=
  match a, b with
  | VInteger x, VInteger y => x <=? y
  | VInteger _, VText _ => true
  | VText _, VInteger _ => false
  | VText x, VText y =>
      match String_as_OT.compare x y with Gt => false | _ => true end
  end.

Definition rowLeb (sortBy sortDirection : string) (a b : PostRow) : bool :=
  if (sortDirection =? "desc")%string
  then sqlLeb (columnValue sortBy b) (columnValue sortBy a)
  else sqlLeb (columnValue sortBy a) (columnValue sortBy b).

(** The query names one sort column and no second key, so the order of
    rows with equal sort values is the engine's. *)
Record OrderByEngine : Type := mkEngine {
  orderBy : string -> string -> Z -> Z -> list PostRow -> list PostRow
}.


(** The platform's engine sorts stably: rows with equal sort values come
    out in the order of the table, which is the order of insertion. *)
Fixpoint insertSorted (leb : PostRow -> PostRow -> bool) (x : PostRow)
         (l : list PostRow) : list PostRow :=
  match l with
  | [] => [x]
  | y :: l' => if leb x y then x :: l else y :: insertSorted leb x l'
  end.

Definition insertionSort (leb : PostRow -> PostRow -> bool) (l : list PostRow)
  : list PostRow :=
  fold_right (insertSorted leb) [] l.

Definition stableEngine : OrderByEngine :=
  mkEngine (fun sortBy sortDirection _ _ rows =>
              insertionSort (rowLeb sortBy sortDirection) rows).

(** [limit ? offset ?]: a negative offset counts as zero, a negative limit
    as no limit. *)
Definition limitOffset {A} (limit offset : Z) (rows : list A) : list A :=
  let rest := skipn (Z.to_nat offset) rows in
  if limit <? 0 then rest else firstn (Z.to_nat limit) rest.

Definition selectPostRows (E : OrderByEngine) (sortBy sortDirection query : string)
           (limit offset : Z) (tbl : list PostRow) : list PostRow :=
  limitOffset limit offset
    (orderBy E sortBy sortDirection limit offset
             (filter (titleMatches query) tbl)).

Definition storedPostOf (r : PostRow) : StoredPost :=
  mkStoredPost (title r) (published_at r) (comment_count r) (like_count r) (url r).

Definition includes (xs : list string) (x : string) : bool :=
  existsb (String.eqb x) xs.

Fixpoint distinct (xs : list string) : bool :=
  match xs with
  | [] => true
  | x :: rest => negb (includes rest x) && distinct rest
  end.

Definition validSort (sortBy sortDirection : string) : bool :=
  includes SortableColumns_values sortBy && includes ["asc"; "desc"] sortDirection.

(** JavaScript numbers are IEEE 754 doubles. *)
Definition number : Type := PrimFloat.float.
Bind Scope float_scope with number.

(** The double nearest to an integer: what [Number] makes of its decimal
    digits. *)
Definition numberOfZ (z : Z) : number :=
  SF2Prim (binary_normalize prec emax z 0 false).

(** The integer a double stands for, if it is one. *)
Definition integerValue (x : number) : option Z :=
  match FloatOps.Prim2SF x with
  | SpecFloat.S754_zero _ => Some 0
  | SpecFloat.S754_finite s m e =>
      let magnitude :=
        if 0 <=? e then Some (Z.pos m * 2 ^ e)
        else if Z.pos m mod 2 ^ (- e) =? 0 then Some (Z.pos m / 2 ^ (- e))
        else None in
      option_map (fun a => if s then - a else a) magnitude
  | _ => None
  end.

(** A number is bound as a REAL; [limit] and [offset] take it only if it
    is integral and strictly inside the signed 64-bit range.  [NaN] is
    bound as NULL and refused as well. *)
Definition boundInteger (x : number) : option Z :=
  match integerValue x with
  | Some z => if (- 2 ^ 63 <? z) && (z <? 2 ^ 63) then Some z else None
  | None => None
  end.

(** The platform caps a [LIKE] pattern at 50 bytes; the pattern here is
    the search text between two [%]. *)
Definition likePatternLimit : nat := 50.

Definition patternTooComplex (query : string) : bool :=
  (likePatternLimit <? String.length ("%" ++ query ++ "%")%string)%nat.

Definition isEmpty {A} (l : list A) : bool :=
  match l with [] => true | _ => false end.

(** Running the statement: the limit is checked first and a limit of zero
    ends the statement at once; then the offset is checked; then the rows
    are scanned, and the first row scanned evaluates the [LIKE]. *)
Definition runSelectPosts (E : OrderByEngine) (sortBy sortDirection query : string)
           (limit offset : number) (tbl : list PostRow) : Completion (list PostRow) :=
  match boundInteger limit with
  | None => Thrown DatatypeMismatch
  | Some l =>
      if l =? 0 then Normal []
      else match boundInteger offset with
           | None => Thrown DatatypeMismatch
           | Some o =>
               if patternTooComplex query && negb (isEmpty tbl)
               then Thrown LikePatternTooComplex
               else Normal (selectPostRows E sortBy sortDirection query l o tbl)
           end
  end.

Definition offsetOf (page perPage : number) : number :=
  PrimFloat.mul (PrimFloat.sub page 1%float) perPage.

Definition getPosts (E : OrderByEngine) (page : number) (sortBy sortDirection query : string)
           (perPage : number) : M (list StoredPost) :=
  if negb (includes SortableColumns_values sortBy)
     || negb (includes ["asc"; "desc"] sortDirection)
  then emit (EvConsoleError ["invalid sort parameters:"; sortBy; sortDirection]) ;;;
       ret []
  else
    let offset := offsetOf page perPage in
    let limit := perPage in
    emit (EvSelectPosts limit offset) ;;;
    fun w =>
      match runSelectPosts E sortBy sortDirection query limit offset (patreon_posts w) with
      | Normal rows => (Normal (map storedPostOf rows), w)
      | Thrown e => (Thrown e, w)
      end.
Arguments getPosts E page%_float (sortBy sortDirection query)%_string perPage%_float.

(** The rows behind page [page] of a listing, before projection. *)
Definition pageRows (E : OrderByEngine) (sortBy sortDirection query : string)
           (perPage : Z) (tbl : list PostRow) (page : Z) : list PostRow :=
  selectPostRows E sortBy sortDirection query perPage ((page - 1) * perPage) tbl.

(* ================================================================== *)
(** * Test doubles *)

(** A simulated feed: a list of pages, each reachable under its own URL and
    linking to the page after it; the last page has no [next] link. *)
Fixpoint simFeed (pages : list (string * list PatreonPostData)) (apiUrl : string)
  : option PatreonApiResponse :=
  match pages with
  | [] => None
  | page :: rest =>
      if (fst page =? apiUrl)%string
      then Some (mkResponse (snd page) (option_map fst (hd_error rest)))
      else simFeed rest apiUrl
  end.

Definition feedNetwork (pages : list (string * list PatreonPostData)) : Network :=
  fun _ apiUrl => simFeed pages apiUrl.

(** A feed that answers the first subrequest and faults on the second. *)
Definition faultOnSecond : Network :=
  fun k apiUrl =>
    if (k =? 1)%nat then None
    else simFeed [(initialApiUrl, [mkPostData "0" (mkAttributes 3 7 "Post 0" "2024-01-01T00:00:00.000Z" "" "https://www.patreon.com/posts/0")]);
                  ("cursor-1", [])] apiUrl.

(** A feed of empty pages that link back to the first URL, except that the
    twenty-first answer carries the empty string as its next link. *)
Definition emptyLinkOnce : Network :=
  fun k _ =>
    Some (mkResponse [] (if (k =? 20)%nat then Some "" else Some initialApiUrl)).

(** A simulated feed whose subrequests fault from the [n]-th on. *)
Definition faultFrom (n : nat) (pages : list (string * list PatreonPostData))
  : Network :=
  fun k apiUrl => if (n <=? k)%nat then None else simFeed pages apiUrl.

Definition feedPosts (pages : list (string * list PatreonPostData))
  : list PatreonPostData :=
  List.concat (map snd pages).

Definition WellFormedFeed (pages : list (string * list PatreonPostData)) : Prop :=
  option_map fst (hd_error pages) = Some initialApiUrl /\
  NoDup (map fst pages) /\
  Forall (fun u => truthy (Some u) = true) (map fst pages).

(** The link to the page at position [m] of a simulated feed, if there is one. *)
Definition cursorAt (pages : list (string * list PatreonPostData)) (m : nat)
  : option string :=
  option_map fst (hd_error (skipn m pages)).

(** The number of runs after which the archive dive has reached the end of a
    feed of [n] pages: the first run covers 40 pages, each later one 20 more. *)
Definition runsToCover (n : nat) : nat := Nat.max 1 ((n + 19) / 20 - 1).

Definition decimal (n : nat) : string :=
  DecimalString.NilEmpty.string_of_uint (Nat.to_uint n).

Definition demoPost (i : nat) : PatreonPostData :=
  mkPostData (decimal i)
             (mkAttributes 0 0 ("Post " ++ decimal i) "2024-01-01T00:00:00.000Z" ""
                           ("https://www.patreon.com/posts/" ++ decimal i)).

(** The post [demoPost i] as the feed reports it after an edit, with
    three comments and two likes. *)
Definition editedPost (i : nat) : PatreonPostData :=
  mkPostData (decimal i)
             (mkAttributes 3 2 ("Post " ++ decimal i ++ " (edited)")
                           "2024-02-01T00:00:00.000Z" "teaser"
                           ("https://www.patreon.com/posts/" ++ decimal i)).

Definition demoPage (i : nat) : string * list PatreonPostData :=
  (match i with O => initialApiUrl | _ => ("cursor-" ++ decimal i)%string end, [demoPost i]).

Definition demoFeed (n : nat) : list (string * list PatreonPostData) :=
  map demoPage (seq 0 n).

(** Start and end instants of the first [k] runs, one second apart. *)
Definition demoTimes (k : nat) : list (Z * Z) :=
  map (fun j => (1000 * Z.of_nat j, 1000 * Z.of_nat j + 500)) (seq 1 k).

Definition postIds (tbl : list PostRow) : list string := map id tbl.

Definition phase_eqb (a b : Phase) : bool :=
  match a, b with
  | PartOne, PartOne | PartTwo, PartTwo => true
  | _, _ => false
  end.

(** The URLs fetched by the loop of part [ph], in order. *)
Definition fetchesOf (ph : Phase) (events : list Event) : list string :=
  flat_map (fun e => match e with
                     | EvFetch ph' _ u => if phase_eqb ph ph' then [u] else []
                     | _ => []
                     end) events.

(** Whether some fetch among [events] was answered by a fault. *)
Definition faulted (net : Network) (events : list Event) : bool :=
  existsb (fun e => match e with
                    | EvFetch _ k u =>
                        match net k u with None => true | Some _ => false end
                    | _ => false
                    end) events.

Definition isLedgerWrite (e : Event) : bool :=
  match e with
  | EvInsertRun _ | EvUpdateRun _ _ => true
  | _ => false
  end.

(** The world after one successful iteration of a fetch loop, and after an
    iteration whose fetch faulted. *)
Definition pageEvents (ph : Phase) (k : nat) (apiUrl : string)
           (posts : PatreonApiResponse) (retrievedPosts : nat) : list Event :=
  EvFetch ph k apiUrl
    :: map (fun p => EvUpsertPost (post_id p)) (data posts)
    ++ [EvConsoleLog ph (retrievedPosts + List.length (data posts))].

Definition afterPage (ph : Phase) (apiUrl : string) (posts : PatreonApiResponse)
           (retrievedPosts : nat) (w : World) : World :=
  mkWorld (upsertRows (map rowOfPost (data posts)) (patreon_posts w))
          (patreon_post_runs w) (S (subrequests w))
          (trace w ++ pageEvents ph (subrequests w) apiUrl posts retrievedPosts).

Definition afterFault (ph : Phase) (apiUrl : string) (w : World) : World :=
  mkWorld (patreon_posts w) (patreon_post_runs w) (S (subrequests w))
          (trace w ++ [EvFetch ph (subrequests w) apiUrl]).

(** The world once a run has read the last run and inserted its own row. *)
Definition startOfRun (now0 : Z) (w : World) : World :=
  mkWorld (patreon_posts w)
          (patreon_post_runs w ++ [mkRun now0 None None None])
          (subrequests w)
          (trace w ++ [EvSelectLastRun; EvInsertRun now0]).

Definition isFetch (e : Event) : bool :=
  match e with EvFetch _ _ _ => true | _ => false end.

Definition isWrite (e : Event) : bool :=
  match e with
  | EvInsertRun _ | EvUpdateRun _ _ | EvUpsertPost _ => true
  | _ => false
  end.

(** The events a computation adds to the trace. *)
Definition newEvents (before after : World) : list Event :=
  skipn (List.length (trace before)) (trace after).







Definition demoRow (i : string) (t : string) (published : string) (comments likes : Z)
  : PostRow :=
  mkRow i t published comments likes "" ("https://www.patreon.com/posts/" ++ i).

(** Two posts with the same number of comments. *)
Definition tiedRows : list PostRow :=
  [demoRow "a" "First" "2024-01-01T00:00:00.000Z" 5 1;
   demoRow "b" "Second" "2024-01-02T00:00:00.000Z" 5 2].

Definition episodeRows : list PostRow :=
  [demoRow "1" "Episode 1" "2024-01-01T00:00:00.000Z" 4 9;
   demoRow "2" "Special" "2024-01-02T00:00:00.000Z" 8 3;
   demoRow "3" "Episode 2" "2024-01-03T00:00:00.000Z" 6 5].

(** Twenty-five posts with pairwise different comment counts. *)
Definition fixture25 : list PostRow :=
  map (fun i => demoRow (decimal i) ("Post " ++ decimal i) "2024-01-01T00:00:00.000Z"
                        (Z.of_nat ((i * 7) mod 25)) 0)
      (seq 0 25).



Definition withPosts (tbl : list PostRow) : World := mkWorld tbl [] 0 [].

(** A ledger of three runs, not in the order of their start. *)
Definition withRuns (runs : list StoredPreviousRun) : World := mkWorld [] runs 0 [].

(** A ledger whose only row carries the instant 1000 of an earlier run,
    as two runs within one millisecond leave it. *)
Definition sameInstantRun : list StoredPreviousRun :=
  [mkRun 1000 (Some (elapsedSeconds 1000 1200)) (Some 7%nat) (Some "cursor-7")].

Definition threeRuns : list StoredPreviousRun :=
  [mkRun 1000 (Some (elapsedSeconds 1000 1500)) (Some 40%nat) (Some "cursor-40");
   mkRun 5000 (Some (elapsedSeconds 5000 5500)) (Some 40%nat) (Some "cursor-60");
   mkRun 2000 None None None].

(** What holds after the [j]-th run over a simulated feed, started at
    instant [T], while the archive dive is on its first pass: the run's row
    is the last of the ledger and the latest by [started_at], its link
    points at page [20 * (j + 1)], and the posts of all pages before that
    one are stored. *)
Definition DiveInvariant (pages : list (string * list PatreonPostData))
           (j : nat) (T : Z) (w : World) : Prop :=
  let m := (20 * (j + 1))%nat in
  (Forall (fun r => (started_at r <= T)%Z) (patreon_post_runs w)) /\
  (linkOf (latestRun (patreon_post_runs w)) = cursorAt pages m) /\
  (exists rows d n,
      patreon_post_runs w = rows ++ [mkRun T d n (cursorAt pages m)]) /\
  (forall p, In p (feedPosts (firstn m pages)) ->
             In (post_id p) (postIds (patreon_posts w))).

(* ================================================================== *)
(** * Further observations on runs and pages *)

Definition isUpsert (e : Event) : bool :=
  match e with EvUpsertPost _ => true | _ => false end.

(** The number of posts a stretch of the trace upserted, repeats included. *)
Definition upsertsIn (events : list Event) : nat :=
  List.length (filter isUpsert events).

(** The order of two values under a sort direction, and the order of
    text: bytewise. *)
Definition inOrder {A} (sortDirection : string) (le : A -> A -> Prop) (x y : A) : Prop :=
  if (sortDirection =? "desc")%string then le y x else le x y.

Definition textLe (x y : string) : Prop := x = y \/ String_as_OT.lt x y.

(** A fetch among [events] that [net] answered by a page whose next link is
    [link]. *)
Definition linkedFrom (net : Network) (events : list Event) (link : option string)
  : Prop :=
  exists ph k u posts,
    In (EvFetch ph k u) events /\ net k u = Some posts /\ links_next posts = link.

(** The last fetch of part [ph] among [events], by call index and URL, and
    the next link of the page that answered a fetch. *)
Fixpoint lastFetchOf (ph : Phase) (events : list Event) : option (nat * string) :=
  match events with
  | [] => None
  | e :: rest =>
      match lastFetchOf ph rest with
      | Some f => Some f
      | None =>
          match e with
          | EvFetch ph' k u => if phase_eqb ph ph' then Some (k, u) else None
          | _ => None
          end
      end
  end.

Definition nextLinkAfter (net : Network) (f : option (nat * string)) : option string :=
  match f with
  | Some (k, u) =>
      match net k u with
      | Some posts => links_next posts
      | None => None
      end
  | None => None
  end.

(* ================================================================== *)
(** * The request handler of the worker *)

(** [URLSearchParams]: name-value pairs in their order; a name may occur
    more than once. *)
Definition URLSearchParams : Type := list (string * string).

Definition hasName (name : string) (p : string * string) : bool :=
  (fst p =? name)%string.

(** [get]: the value of the first pair with this name, or null. *)
Definition paramsGet (name : string) (ps : URLSearchParams) : option string :=
  option_map snd (find (hasName name) ps).

(** [getAll]: the values of all pairs with this name. *)
Definition paramsGetAll (name : string) (ps : URLSearchParams) : list string :=
  map snd (filter (hasName name) ps).

(** [set]: the first pair with this name takes the value and the other pairs
    with this name are removed; without such a pair, one is appended. *)
Fixpoint paramsSet (name value : string) (ps : URLSearchParams) : URLSearchParams :=
  match ps with
  | [] => [(name, value)]
  | p :: rest =>
      if hasName name p
      then (name, value) :: filter (fun q => negb (hasName name q)) rest
      else p :: paramsSet name value rest
  end.

(** [extendQueryParams] copies the parameters by serialising them and
    parsing the result, which gives the same pairs back, and then sets every
    entry of [newParams] on the copy, in the order of the entries. *)
Definition extendQueryParams (searchParams : URLSearchParams)
           (newParams : list (string * string)) : URLSearchParams :=
  fold_left (fun copy kv => paramsSet (fst kv) (snd kv) copy) newParams searchParams.

(** The parameters the handler marshals with [??] defaults. *)
Definition requestSort (ps : URLSearchParams) : string :=
  match paramsGet "sort" ps with Some v => v | None => "comment_count" end.

Definition requestDirection (ps : URLSearchParams) : string :=
  match paramsGet "direction" ps with Some v => v | None => "desc" end.

Definition requestSearch (ps : URLSearchParams) : string :=
  match paramsGet "search" ps with Some v => v | None => "" end.

(** The query string [?sort=like_count&direction=desc&search=cat&page=2]. *)
Definition demoRequest : URLSearchParams :=
  [("sort", "like_count"); ("direction", "desc"); ("search", "cat"); ("page", "2")].

(** The query of the link in the header of a sortable column. *)
Definition headerLinkParams (currentSearchParams : URLSearchParams)
           (sortBy sortDirection header : string) : URLSearchParams :=
  extendQueryParams currentSearchParams
    [("sort", header);
     ("direction",
      if (sortDirection =? "asc")%string || negb (sortBy =? header)%string
      then "desc" else "asc")].

(* ================================================================== *)
(** * Properties of the record store *)

Section RecordStore.

Lemma lookup_insertOrReplace (i : string) (r : PostRow) (tbl : list PostRow) :
  lookupPost i (insertOrReplace r tbl) =
  if (id r =? i)%string then Some r else lookupPost i tbl.
Proof.
  unfold lookupPost, insertOrReplace.
  induction tbl as [|a tbl IH]; simpl.
  - destruct (id r =? i)%string; reflexivity.
  - destruct (String.eqb_spec (id a) (id r)) as [Har|Har]; simpl.
    + rewrite IH. destruct (String.eqb_spec (id r) i) as [Hri|Hri]; [reflexivity|].
      rewrite Har. apply String.eqb_neq in Hri. now rewrite Hri.
    + rewrite IH.
      destruct (String.eqb_spec (id a) i) as [Hai|Hai]; [|reflexivity].
      destruct (String.eqb_spec (id r) i) as [Hri|Hri]; [congruence|reflexivity].
Qed.

Lemma postIds_insertOrReplace (r : PostRow) (tbl : list PostRow) :
  postIds (insertOrReplace r tbl) =
  filter (fun i => negb (i =? id r)%string) (postIds tbl) ++ [id r].
Proof.
  unfold postIds, insertOrReplace. rewrite map_app. simpl. f_equal.
  induction tbl as [|a tbl IH]; simpl; [reflexivity|].
  destruct (id a =? id r)%string; simpl; now rewrite IH.
Qed.

Lemma in_postIds_insertOrReplace (i : string) (r : PostRow) (tbl : list PostRow) :
  In i (postIds (insertOrReplace r tbl)) <-> i = id r \/ In i (postIds tbl).
Proof.
  rewrite postIds_insertOrReplace, in_app_iff, filter_In. simpl.
  destruct (String.eqb_spec i (id r)) as [E|E]; simpl.
  - subst. intuition.
  - split; [intuition congruence|]. intros [H|H]; [contradiction|]. now left.
Qed.

Lemma NoDup_snoc {A} (l : list A) (x : A) :
  NoDup l -> ~ In x l -> NoDup (l ++ [x]).
Proof.
  intros Hl Hx. apply Permutation_NoDup with (l := x :: l).
  - apply Permutation_cons_append.
  - now constructor.
Qed.

Lemma NoDup_insertOrReplace (r : PostRow) (tbl : list PostRow) :
  NoDup (postIds tbl) -> NoDup (postIds (insertOrReplace r tbl)).
Proof.
  intro H. rewrite postIds_insertOrReplace. apply NoDup_snoc.
  - now apply NoDup_filter.
  - rewrite filter_In. intros [_ Hneq].
    now rewrite String.eqb_refl in Hneq.
Qed.

Lemma insertOrReplace_twice (r : PostRow) (tbl : list PostRow) :
  insertOrReplace r (insertOrReplace r tbl) = insertOrReplace r tbl.
Proof.
  unfold insertOrReplace at 1. f_equal.
  unfold insertOrReplace. rewrite filter_app. simpl.
  rewrite String.eqb_refl. simpl. rewrite app_nil_r.
  induction tbl as [|a tbl IH]; simpl; [reflexivity|].
  destruct (id a =? id r)%string eqn:E; simpl; [exact IH|].
  rewrite E. simpl. now rewrite IH.
Qed.

Lemma upsertEach_spec (ps : list PatreonPostData) (w : World) :
  fst (upsertEach ps w) = Normal tt /\
  patreon_posts (snd (upsertEach ps w)) =
    upsertRows (map rowOfPost ps) (patreon_posts w) /\
  patreon_post_runs (snd (upsertEach ps w)) = patreon_post_runs w /\
  subrequests (snd (upsertEach ps w)) = subrequests w /\
  trace (snd (upsertEach ps w)) = trace w ++ map (fun p => EvUpsertPost (post_id p)) ps.
Proof.
  revert w. induction ps as [|p ps IH]; intro w; simpl.
  - unfold ret. simpl. rewrite app_nil_r. auto.
  - unfold bind, upsertPost. simpl.
    specialize (IH (mkWorld (insertOrReplace (rowOfPost p) (patreon_posts w))
                            (patreon_post_runs w) (subrequests w)
                            (trace w ++ [EvUpsertPost (post_id p)]))).
    simpl in IH. destruct IH as (H1 & H2 & H3 & H4 & H5).
    repeat split; try assumption.
    rewrite H5, <- app_assoc. reflexivity.
Qed.

Lemma find_append {A} (f : A -> bool) (l1 l2 : list A) :
  find f (l1 ++ l2) =
  match find f l1 with Some x => Some x | None => find f l2 end.
Proof.
  induction l1 as [|a l1 IH]; simpl; [reflexivity|].
  destruct (f a); [reflexivity | exact IH].
Qed.

Lemma upsertRows_invariant (rs : list PostRow) (tbl : list PostRow) :
  NoDup (postIds tbl) ->
  NoDup (postIds (upsertRows rs tbl)) /\
  (forall i, lookupPost i (upsertRows rs tbl) =
             match lookupPost i (rev rs) with
             | Some r => Some r
             | None => lookupPost i tbl
             end) /\
  (forall i, In i (postIds (upsertRows rs tbl)) <->
             In i (postIds tbl) \/ In i (map id rs)).
Proof.
  revert tbl. induction rs as [|r rs IH]; intros tbl Hnd; simpl.
  - repeat split; auto; intuition.
  - destruct (IH (insertOrReplace r tbl) (NoDup_insertOrReplace r tbl Hnd))
      as (H1 & H2 & H3).
    split; [exact H1|]. split.
    + intro i. rewrite H2, lookup_insertOrReplace.
      unfold lookupPost. rewrite find_append.
      destruct (find _ (rev rs)); [reflexivity|]. simpl.
      destruct (id r =? i)%string; reflexivity.
    + intro i. rewrite H3, in_postIds_insertOrReplace. intuition.
Qed.

(** On a table with one row per id, the row found under an id is the
    only row with that id. *)
Lemma lookup_unique (tbl : list PostRow) (r : PostRow) :
  NoDup (postIds tbl) -> In r tbl -> lookupPost (id r) tbl = Some r.
Proof.
  unfold lookupPost, postIds.
  induction tbl as [|a tbl IH]; intros Hnd Hin; [contradiction|].
  cbn [map] in Hnd. inversion Hnd as [|? ? Hnot Hrest]; subst.
  cbn [find]. destruct Hin as [->|Hin]; [now rewrite String.eqb_refl|].
  destruct (String.eqb_spec (id a) (id r)) as [E|_]; [|now apply IH].
  exfalso. apply Hnot. rewrite E. now apply in_map.
Qed.

(** The last post of a list with a given id is the first row with that id
    in the reversed list of rows. *)
Lemma lookup_last_upsert (pre post : list PatreonPostData) (p : PatreonPostData) :
  ~ In (post_id p) (map post_id post) ->
  lookupPost (post_id p) (rev (map rowOfPost (pre ++ p :: post)))
  = Some (rowOfPost p).
Proof.
  intro Hnot. rewrite map_app, rev_app_distr. cbn [map rev].
  unfold lookupPost. rewrite <- app_assoc, find_append.
  assert (Hnone : find (fun r => (id r =? post_id p)%string)
                       (rev (map rowOfPost post)) = None).
  { destruct (find _ (rev (map rowOfPost post))) as [r|] eqn:F; [|reflexivity].
    apply find_some in F. destruct F as [Hin Hid].
    apply String.eqb_eq in Hid. apply in_rev, in_map_iff in Hin.
    destruct Hin as (q & <- & Hq). exfalso. apply Hnot.
    apply in_map_iff. exists q. split; [exact Hid | exact Hq]. }
  rewrite Hnone. cbn [app find rowOfPost id]. now rewrite String.eqb_refl.
Qed.

End RecordStore.

(** C4. Upserting a feed record is idempotent and keyed by id: a second
    upsert of the same record leaves both tables as the first one left them;
    after one upsert the row stored under the record's id holds the seven
    values of the record; and after any sequence of upserts on a table with
    one row per id the table still has one row per id, a row for exactly
    the ids it had or was given, an untouched row for every id that was not
    upserted, and under each upserted id one row, which holds the title,
    date, counts, teaser and url of the last record upserted with that
    id. *)
Theorem upsert_idempotent_last_write_wins :
  (forall (p : PatreonPostData) (w : World),
      let once := snd (upsertPost p w) in
      let twice := snd (upsertPost p once) in
      patreon_posts twice = patreon_posts once /\
      patreon_post_runs twice = patreon_post_runs once /\
      lookupPost (post_id p) (patreon_posts once) =
      Some (mkRow (post_id p)
                  (attr_title (attributes p))
                  (attr_published_at (attributes p))
                  (attr_comment_count (attributes p))
                  (attr_like_count (attributes p))
                  (attr_content_teaser_text (attributes p))
                  (attr_url (attributes p)))) /\
  (forall (ps : list PatreonPostData) (w : World),
      NoDup (postIds (patreon_posts w)) ->
      let tbl' := patreon_posts (snd (upsertJsonPosts (mkResponse ps None) w)) in
      NoDup (postIds tbl') /\
      (forall i, lookupPost i tbl' =
                 match lookupPost i (rev (map rowOfPost ps)) with
                 | Some r => Some r
                 | None => lookupPost i (patreon_posts w)
                 end) /\
      (forall i, In i (postIds tbl') <->
                 In i (postIds (patreon_posts w)) \/ In i (map post_id ps)) /\
      (forall i, ~ In i (map post_id ps) ->
                 lookupPost i tbl' = lookupPost i (patreon_posts w)) /\
      (forall pre p post,
          ps = pre ++ p :: post ->
          ~ In (post_id p) (map post_id post) ->
          forall r, In r tbl' /\ id r = post_id p <->
                    r = mkRow (post_id p)
                              (attr_title (attributes p))
                              (attr_published_at (attributes p))
                              (attr_comment_count (attributes p))
                              (attr_like_count (attributes p))
                              (attr_content_teaser_text (attributes p))
                              (attr_url (attributes p)))).
Proof.
  split.
  - intros p w. simpl. split; [apply insertOrReplace_twice|]. split; [reflexivity|].
    rewrite lookup_insertOrReplace. cbn [rowOfPost id].
    now rewrite String.eqb_refl.
  - intros ps w Hnd. unfold upsertJsonPosts. simpl.
    destruct (upsertEach_spec ps w) as (_ & Hp & _). rewrite Hp.
    destruct (upsertRows_invariant (map rowOfPost ps) _ Hnd) as (H1 & H2 & H3).
    assert (Hids : map id (map rowOfPost ps) = map post_id ps)
      by (rewrite map_map; reflexivity).
    rewrite Hids in H3.
    split; [exact H1|]. split; [exact H2|]. split; [exact H3|]. split.
    + intros i Hi. rewrite H2.
      destruct (lookupPost i (rev (map rowOfPost ps))) as [r|] eqn:F; [|reflexivity].
      apply find_some in F. destruct F as [Hin Hid].
      apply String.eqb_eq in Hid. apply in_rev, in_map_iff in Hin.
      destruct Hin as (q & <- & Hq). exfalso. apply Hi.
      apply in_map_iff. exists q. split; [exact Hid | exact Hq].
    + intros pre p post -> Hlast r.
      pose proof (H2 (post_id p)) as Hl.
      rewrite (lookup_last_upsert pre post p Hlast) in Hl.
      change (rowOfPost p) with
        (mkRow (post_id p) (attr_title (attributes p))
               (attr_published_at (attributes p)) (attr_comment_count (attributes p))
               (attr_like_count (attributes p))
               (attr_content_teaser_text (attributes p)) (attr_url (attributes p))) in Hl.
      split.
      * intros [Hin Hid]. pose proof (lookup_unique _ r H1 Hin) as Hu.
        rewrite Hid, Hl in Hu. now inversion Hu.
      * intros ->. apply find_some in Hl. destruct Hl as [Hin _].
        split; [exact Hin | reflexivity].
Qed.

(* ================================================================== *)
(** * Properties of the run ledger helpers *)

Section RunLedger.

Lemma updateRun_no_match (startTime : Z) (duration : Q) (retrieved : nat)
      (link : option string) (runs : list StoredPreviousRun) :
  rowsMatching startTime runs = 0%nat ->
  map (updateRun startTime duration retrieved link) runs = runs.
Proof.
  unfold rowsMatching.
  induction runs as [|r runs IH]; simpl; [reflexivity|].
  unfold updateRun at 1.
  destruct (started_at r =? startTime); simpl; [discriminate|].
  intro H. now rewrite IH.
Qed.

Lemma storeRunEnd_frame (startTime : Z) (duration : Q) (retrieved : nat)
      (link : option string) (w : World) :
  fst (storeRunEnd startTime duration retrieved link w) = Normal tt /\
  patreon_posts (snd (storeRunEnd startTime duration retrieved link w)) =
    patreon_posts w /\
  patreon_post_runs (snd (storeRunEnd startTime duration retrieved link w)) =
    map (updateRun startTime duration retrieved link) (patreon_post_runs w) /\
  subrequests (snd (storeRunEnd startTime duration retrieved link w)) =
    subrequests w.
Proof.
  unfold storeRunEnd, emit.
  destruct (rowsMatching startTime (patreon_post_runs w) =? 0)%nat; simpl; auto.
Qed.

End RunLedger.

(** C9. When the finalising update of the run ledger matches no row, the
    fault is only reported on the console: [storeRunEnd] returns normally,
    the ledger is as it was, and the posts table, with every record the run
    upserted, is left exactly as it was before the update. *)
Theorem storeRunEnd_zero_rows_only_reported :
  forall (startTime : Z) (duration : Q) (retrieved : nat)
         (link : option string) (w : World),
    rowsMatching startTime (patreon_post_runs w) = 0%nat ->
    let r := storeRunEnd startTime duration retrieved link w in
    fst r = Normal tt /\
    patreon_posts (snd r) = patreon_posts w /\
    patreon_post_runs (snd r) = patreon_post_runs w /\
    newEvents w (snd r) =
      [EvUpdateRun startTime 0; EvConsoleError ["last run not updated"]].
Proof.
  intros startTime duration retrieved link w H. simpl.
  unfold storeRunEnd, emit, newEvents. rewrite H. simpl.
  rewrite (updateRun_no_match _ _ _ _ _ H).
  repeat split.
  rewrite <- app_assoc, skipn_app, skipn_all, Nat.sub_diag. reflexivity.
Qed.

(* ================================================================== *)
(** * The paged read: validation *)

Section Validation.

Lemma includes_In (xs : list string) (x : string) :
  includes xs x = true <-> In x xs.
Proof.
  unfold includes. rewrite existsb_exists. split.
  - intros (y & Hy & E). apply String.eqb_eq in E. now subst.
  - intro H. exists x. split; [exact H | apply String.eqb_refl].
Qed.

Lemma includes_not_In (xs : list string) (x : string) :
  includes xs x = false <-> ~ In x xs.
Proof.
  rewrite <- includes_In. destruct (includes xs x); intuition congruence.
Qed.

Lemma distinct_NoDup (xs : list string) : distinct xs = true -> NoDup xs.
Proof.
  induction xs as [|x xs IH]; simpl; intro H; constructor.
  - apply andb_true_iff in H. destruct H as [H _].
    apply includes_not_In. now destruct (includes xs x).
  - apply IH. apply andb_true_iff in H. tauto.
Qed.

Lemma length_append (a b : string) :
  String.length (a ++ b)%string = (String.length a + String.length b)%nat.
Proof. induction a as [|c a IH]; simpl; [reflexivity | now rewrite IH]. Qed.

Lemma patternTooComplex_spec (query : string) :
  patternTooComplex query = true <-> (48 < String.length query)%nat.
Proof.
  unfold patternTooComplex, likePatternLimit.
  rewrite Nat.ltb_lt. cbn [append String.length].
  rewrite length_append. simpl. lia.
Qed.

Lemma patternTooComplex_short (query : string) :
  (String.length query <= 48)%nat -> patternTooComplex query = false.
Proof.
  intro H. destruct (patternTooComplex query) eqn:E; [|reflexivity].
  apply patternTooComplex_spec in E. lia.
Qed.

Lemma getPosts_statement (E : OrderByEngine) (page : number)
      (sortBy sortDirection query : string) (perPage : number) (w : World) :
  validSort sortBy sortDirection = true ->
  getPosts E page sortBy sortDirection query perPage w =
  (match runSelectPosts E sortBy sortDirection query perPage
                        (offsetOf page perPage) (patreon_posts w) with
   | Normal rows => Normal (map storedPostOf rows)
   | Thrown e => Thrown e
   end,
   mkWorld (patreon_posts w) (patreon_post_runs w) (subrequests w)
           (trace w ++ [EvSelectPosts perPage (offsetOf page perPage)])).
Proof.
  unfold validSort, getPosts. intro H.
  apply andb_true_iff in H. destruct H as [H1 H2].
  rewrite H1, H2. cbn [negb orb]. unfold bind, emit. cbn [patreon_posts].
  now destruct (runSelectPosts _ _ _ _ _ _ _).
Qed.

Lemma runSelectPosts_window (E : OrderByEngine) (sortBy sortDirection query : string)
      (limit offset : number) (tbl : list PostRow) (l o : Z) :
  boundInteger limit = Some l ->
  boundInteger offset = Some o ->
  (String.length query <= 48)%nat \/ tbl = [] ->
  runSelectPosts E sortBy sortDirection query limit offset tbl =
  Normal (selectPostRows E sortBy sortDirection query l o tbl).
Proof.
  intros Hl Ho Hq. unfold runSelectPosts. rewrite Hl, Ho.
  destruct (Z.eqb_spec l 0) as [->|_]; [reflexivity|].
  destruct Hq as [Hq| ->].
  - now rewrite (patternTooComplex_short _ Hq).
  - simpl. now rewrite andb_false_r.
Qed.

Lemma getPosts_valid (E : OrderByEngine) (page : number)
      (sortBy sortDirection query : string) (perPage : number) (w : World)
      (l o : Z) :
  validSort sortBy sortDirection = true ->
  boundInteger perPage = Some l ->
  boundInteger (offsetOf page perPage) = Some o ->
  (String.length query <= 48)%nat \/ patreon_posts w = [] ->
  getPosts E page sortBy sortDirection query perPage w =
  (Normal (map storedPostOf
               (selectPostRows E sortBy sortDirection query l o (patreon_posts w))),
   mkWorld (patreon_posts w) (patreon_post_runs w) (subrequests w)
           (trace w ++ [EvSelectPosts perPage (offsetOf page perPage)])).
Proof.
  intros Hv Hl Ho Hq. rewrite getPosts_statement by exact Hv.
  now rewrite (runSelectPosts_window _ _ _ _ _ _ _ l o Hl Ho Hq).
Qed.

Lemma getPosts_invalid (E : OrderByEngine) (page : number)
      (sortBy sortDirection query : string) (perPage : number) (w : World) :
  validSort sortBy sortDirection = false ->
  getPosts E page sortBy sortDirection query perPage w =
  (Normal [],
   mkWorld (patreon_posts w) (patreon_post_runs w) (subrequests w)
           (trace w ++ [EvConsoleError ["invalid sort parameters:"; sortBy;
                                        sortDirection]])).
Proof.
  unfold validSort, getPosts. intro H.
  apply andb_false_iff in H.
  assert (Hc : negb (includes SortableColumns_values sortBy)
               || negb (includes ["asc"; "desc"] sortDirection) = true).
  { destruct H as [H|H]; rewrite H; simpl; auto using orb_true_r. }
  rewrite Hc. reflexivity.
Qed.

Lemma newEvents_app (w w' : World) (evs : list Event) :
  trace w' = trace w ++ evs -> newEvents w w' = evs.
Proof.
  intro H. unfold newEvents. rewrite H, skipn_app, skipn_all, Nat.sub_diag.
  reflexivity.
Qed.

End Validation.

(** C6. Whatever the page, search text and page size, a paged read whose
    sort column is not one of comment_count, like_count, published_at, or
    whose direction is neither asc nor desc, returns the empty sequence
    without an exception; both tables are unchanged and the only effect is
    the console report. *)
Theorem getPosts_invalid_sort_returns_empty :
  forall (E : OrderByEngine) (page : number) (sortBy sortDirection query : string)
         (perPage : number) (w : World),
    ~ In sortBy ["comment_count"; "like_count"; "published_at"] \/
    ~ In sortDirection ["asc"; "desc"] ->
    let r := getPosts E page sortBy sortDirection query perPage w in
    fst r = Normal [] /\
    patreon_posts (snd r) = patreon_posts w /\
    patreon_post_runs (snd r) = patreon_post_runs w /\
    subrequests (snd r) = subrequests w /\
    newEvents w (snd r) =
      [EvConsoleError ["invalid sort parameters:"; sortBy; sortDirection]].
Proof.
  intros E page sortBy sortDirection query perPage w H. simpl.
  rewrite getPosts_invalid.
  - simpl. repeat split. now apply newEvents_app.
  - unfold validSort. apply andb_false_iff.
    destruct H as [H|H]; [left|right]; now apply includes_not_In.
Qed.



(* ================================================================== *)
(** * The fetch loops *)

Section FetchLoop.

Variable net : Network.

Lemma upsertEach_eq (ps : list PatreonPostData) (w : World) :
  upsertEach ps w =
  (Normal tt,
   mkWorld (upsertRows (map rowOfPost ps) (patreon_posts w))
           (patreon_post_runs w) (subrequests w)
           (trace w ++ map (fun p => EvUpsertPost (post_id p)) ps)).
Proof.
  destruct (upsertEach_spec ps w) as (H1 & H2 & H3 & H4 & H5).
  destruct (upsertEach ps w) as [c w']. simpl in *. subst c.
  destruct w'. simpl in *. now subst.
Qed.

Lemma fetchPages_step (ph : Phase) (budget : nat) (apiUrl : string)
      (retrievedPosts : nat) (w : World) :
  fetchPages net ph (S budget) apiUrl retrievedPosts w =
  match net (subrequests w) apiUrl with
  | None => (Thrown NetworkFault, afterFault ph apiUrl w)
  | Some posts =>
      let n := (retrievedPosts + List.length (data posts))%nat in
      let w' := afterPage ph apiUrl posts retrievedPosts w in
      match links_next posts with
      | Some next =>
          if truthy (Some next)
          then fetchPages net ph budget next n w'
          else (Normal (Some next, n), w')
      | None => (Normal (None, n), w')
      end
  end.
Proof.
  cbn [fetchPages]. unfold bind at 1. unfold fetchJson.
  destruct (net (subrequests w) apiUrl) as [posts|]; [|reflexivity].
  unfold bind at 1. unfold upsertJsonPosts. rewrite upsertEach_eq.
  unfold bind at 1. unfold emit. cbn [patreon_posts patreon_post_runs subrequests trace].
  assert (Hw : mkWorld (upsertRows (map rowOfPost (data posts)) (patreon_posts w))
                 (patreon_post_runs w) (S (subrequests w))
                 (((trace w ++ [EvFetch ph (subrequests w) apiUrl]) ++
                   map (fun p => EvUpsertPost (post_id p)) (data posts)) ++
                  [EvConsoleLog ph (retrievedPosts + List.length (data posts))])
               = afterPage ph apiUrl posts retrievedPosts w).
  { unfold afterPage, pageEvents. f_equal. rewrite <- !app_assoc. reflexivity. }
  rewrite Hw.
  destruct (links_next posts) as [next|]; [|reflexivity].
  destruct (truthy (Some next)); reflexivity.
Qed.

Lemma sync_unfold (now0 now1 : Z) (w : World) :
  syncInPostsFromPatreon net now0 now1 w =
  match fetchPages net PartOne 20 initialApiUrl 0 (startOfRun now0 w) with
  | (Thrown e, w1) => (Thrown e, w1)
  | (Normal partOne, w1) =>
      let lastLink := linkOf (latestRun (patreon_post_runs w)) in
      let apiUrl := if truthy lastLink then lastLink else fst partOne in
      match apiUrl with
      | Some u =>
          if truthy (Some u)
          then match fetchPages net PartTwo 20 u (snd partOne) w1 with
               | (Thrown e, w2) => (Thrown e, w2)
               | (Normal partTwo, w2) =>
                   storeRunEnd now0 (elapsedSeconds now0 now1)
                               (snd partTwo) (fst partTwo) w2
               end
          else storeRunEnd now0 (elapsedSeconds now0 now1) (snd partOne) None w1
      | None => storeRunEnd now0 (elapsedSeconds now0 now1) (snd partOne) None w1
      end
  end.
Proof.
  unfold syncInPostsFromPatreon.
  unfold bind at 1. unfold getLastRun.
  unfold bind at 1. unfold storeRunStart.
  cbn [patreon_posts patreon_post_runs subrequests trace].
  assert (Hw : mkWorld (patreon_posts w)
                 (patreon_post_runs w ++ [mkRun now0 None None None])
                 (subrequests w)
                 ((trace w ++ [EvSelectLastRun]) ++ [EvInsertRun now0])
               = startOfRun now0 w).
  { unfold startOfRun. f_equal. rewrite <- app_assoc. reflexivity. }
  rewrite Hw. unfold bind at 1.
  destruct (fetchPages net PartOne 20 initialApiUrl 0 (startOfRun now0 w))
    as [[partOne|e] w1]; [|reflexivity].
  cbv zeta.
  destruct (if truthy (linkOf (latestRun (patreon_post_runs w)))
            then linkOf (latestRun (patreon_post_runs w))
            else fst partOne) as [u|]; [|reflexivity].
  destruct (truthy (Some u)); [|reflexivity].
  unfold bind.
  destruct (fetchPages net PartTwo 20 u (snd partOne) w1) as [[partTwo|e] w2];
    reflexivity.
Qed.

(** Induction along the iterations of a fetch loop. *)
Lemma fetchPages_cases (ph : Phase)
      (P : nat -> string -> nat -> World ->
           Completion (option string * nat) * World -> Prop) :
  (forall apiUrl n w, P O apiUrl n w (Normal (Some apiUrl, n), w)) ->
  (forall b apiUrl n w,
      net (subrequests w) apiUrl = None ->
      P (S b) apiUrl n w (Thrown NetworkFault, afterFault ph apiUrl w)) ->
  (forall b apiUrl n w posts,
      net (subrequests w) apiUrl = Some posts ->
      truthy (links_next posts) = false ->
      P (S b) apiUrl n w
        (Normal (links_next posts, (n + List.length (data posts))%nat),
         afterPage ph apiUrl posts n w)) ->
  (forall b apiUrl n w posts next,
      net (subrequests w) apiUrl = Some posts ->
      links_next posts = Some next ->
      truthy (Some next) = true ->
      let n' := (n + List.length (data posts))%nat in
      let w' := afterPage ph apiUrl posts n w in
      P b next n' w' (fetchPages net ph b next n' w') ->
      P (S b) apiUrl n w (fetchPages net ph b next n' w')) ->
  forall b apiUrl n w, P b apiUrl n w (fetchPages net ph b apiUrl n w).
Proof.
  intros H0 Hfault Hstop Hnext.
  induction b as [|b IH]; intros apiUrl n w.
  - apply H0.
  - rewrite fetchPages_step.
    destruct (net (subrequests w) apiUrl) as [posts|] eqn:Hnet.
    + destruct (links_next posts) as [next|] eqn:Hl.
      * destruct (truthy (Some next)) eqn:Ht.
        -- cbv zeta. eapply Hnext; eauto.
        -- rewrite <- Hl. apply Hstop; [exact Hnet | now rewrite Hl].
      * rewrite <- Hl. apply Hstop; [exact Hnet | now rewrite Hl].
    + now apply Hfault.
Qed.

(** The only exception a fetch loop throws is the fetch's own. *)
Lemma fetchPages_throws (ph : Phase) (b : nat) (apiUrl : string) (n : nat)
      (w : World) (e : Exn) :
  fst (fetchPages net ph b apiUrl n w) = Thrown e -> e = NetworkFault.
Proof.
  revert b apiUrl n w.
  apply (fetchPages_cases ph (fun _ _ _ _ r => fst r = Thrown e -> e = NetworkFault));
    cbn [fst]; intros; try discriminate; try congruence; auto.
Qed.

Lemma fetchPages_extends (ph : Phase) (b : nat) (apiUrl : string) (n : nat)
      (w : World) :
  exists evs, trace (snd (fetchPages net ph b apiUrl n w)) = trace w ++ evs.
Proof.
  apply (fetchPages_cases ph (fun _ _ _ w r => exists evs, trace (snd r) = trace w ++ evs)).
  - intros. exists []. simpl. now rewrite app_nil_r.
  - intros. eexists. reflexivity.
  - intros. eexists. reflexivity.
  - intros b' u n0 w0 posts next _ _ _ n' w' [evs Hevs].
    eexists. rewrite Hevs. unfold w', afterPage. simpl.
    rewrite <- app_assoc. reflexivity.
Qed.

Lemma newEvents_after_page (ph : Phase) (b : nat) (apiUrl next : string)
      (n n' : nat) (posts : PatreonApiResponse) (w : World) :
  newEvents w (snd (fetchPages net ph b next n' (afterPage ph apiUrl posts n w))) =
  pageEvents ph (subrequests w) apiUrl posts n ++
  newEvents (afterPage ph apiUrl posts n w)
            (snd (fetchPages net ph b next n' (afterPage ph apiUrl posts n w))).
Proof.
  destruct (fetchPages_extends ph b next n' (afterPage ph apiUrl posts n w))
    as [evs Hevs].
  rewrite (newEvents_app _ _ _ Hevs).
  apply newEvents_app. rewrite Hevs. unfold afterPage. simpl.
  now rewrite <- app_assoc.
Qed.

Lemma newEvents_afterPage (ph : Phase) (apiUrl : string)
      (posts : PatreonApiResponse) (n : nat) (w : World) :
  newEvents w (afterPage ph apiUrl posts n w) =
  pageEvents ph (subrequests w) apiUrl posts n.
Proof. now apply newEvents_app. Qed.

Lemma newEvents_afterFault (ph : Phase) (apiUrl : string) (w : World) :
  newEvents w (afterFault ph apiUrl w) = [EvFetch ph (subrequests w) apiUrl].
Proof. now apply newEvents_app. Qed.

Lemma newEvents_refl (w : World) : newEvents w w = [].
Proof. apply newEvents_app. now rewrite app_nil_r. Qed.

Lemma phase_eqb_refl (ph : Phase) : phase_eqb ph ph = true.
Proof. now destruct ph. Qed.

Lemma fetchesOf_app (ph : Phase) (a b : list Event) :
  fetchesOf ph (a ++ b) = fetchesOf ph a ++ fetchesOf ph b.
Proof. unfold fetchesOf. apply flat_map_app. Qed.

Lemma fetchesOf_upserts (ph : Phase) (ps : list PatreonPostData) (tail : list Event) :
  fetchesOf ph (map (fun p => EvUpsertPost (post_id p)) ps ++ tail) =
  fetchesOf ph tail.
Proof. induction ps as [|p ps IH]; simpl; auto. Qed.

Lemma fetchesOf_pageEvents (ph' ph : Phase) (k : nat) (apiUrl : string)
      (posts : PatreonApiResponse) (n : nat) :
  fetchesOf ph' (pageEvents ph k apiUrl posts n) =
  if phase_eqb ph' ph then [apiUrl] else [].
Proof.
  unfold pageEvents.
  change (fetchesOf ph' (EvFetch ph k apiUrl :: ?l))
    with ((if phase_eqb ph' ph then [apiUrl] else []) ++ fetchesOf ph' l).
  rewrite fetchesOf_upserts. simpl. now rewrite app_nil_r.
Qed.

Lemma filter_upserts (f : Event -> bool) (ps : list PatreonPostData)
      (tail : list Event) :
  (forall i, f (EvUpsertPost i) = false) ->
  filter f (map (fun p => EvUpsertPost (post_id p)) ps ++ tail) = filter f tail.
Proof.
  intro Hf. induction ps as [|p ps IH]; simpl; [reflexivity|].
  now rewrite Hf.
Qed.

Lemma isFetch_pageEvents (ph : Phase) (k : nat) (apiUrl : string)
      (posts : PatreonApiResponse) (n : nat) :
  filter isFetch (pageEvents ph k apiUrl posts n) = [EvFetch ph k apiUrl].
Proof.
  unfold pageEvents. simpl. now rewrite filter_upserts.
Qed.

Lemma ledgerWrites_pageEvents (ph : Phase) (k : nat) (apiUrl : string)
      (posts : PatreonApiResponse) (n : nat) :
  filter isLedgerWrite (pageEvents ph k apiUrl posts n) = [].
Proof.
  unfold pageEvents. simpl. now rewrite filter_upserts.
Qed.

Lemma faulted_app (a b : list Event) :
  faulted net (a ++ b) = faulted net a || faulted net b.
Proof. unfold faulted. apply existsb_app. Qed.

Lemma faulted_pageEvents (ph : Phase) (k : nat) (apiUrl : string)
      (posts : PatreonApiResponse) (n : nat) :
  net k apiUrl = Some posts ->
  faulted net (pageEvents ph k apiUrl posts n) = false.
Proof.
  intro H. unfold pageEvents, faulted. simpl. rewrite H. simpl.
  rewrite existsb_app. simpl. rewrite orb_false_r.
  induction (data posts) as [|p ps IH]; simpl; auto.
Qed.

Lemma in_fetch_pageEvents (ph' ph : Phase) (k' k : nat) (u' apiUrl : string)
      (posts : PatreonApiResponse) (n : nat) :
  In (EvFetch ph' k' u') (pageEvents ph k apiUrl posts n) ->
  ph' = ph /\ k' = k /\ u' = apiUrl.
Proof.
  unfold pageEvents. simpl. intros [H|H].
  - inversion H. auto.
  - apply in_app_iff in H. destruct H as [H|H].
    + apply in_map_iff in H. destruct H as (p & Hp & _). discriminate.
    + simpl in H. destruct H as [H|[]]. discriminate.
Qed.

Lemma in_postIds_upsertRows (i : string) (rs tbl : list PostRow) :
  In i (postIds (upsertRows rs tbl)) <-> In i (postIds tbl) \/ In i (map id rs).
Proof.
  revert tbl. induction rs as [|r rs IH]; intro tbl; simpl.
  - intuition.
  - unfold upsertRows in *. simpl. rewrite IH, in_postIds_insertOrReplace.
    intuition.
Qed.

Lemma fetchPages_counts (ph : Phase) (b : nat) (apiUrl : string) (n : nat)
      (w : World) :
  let r := fetchPages net ph b apiUrl n w in
  let evs := newEvents w (snd r) in
  (List.length (fetchesOf ph evs) <= b)%nat /\
  (forall ph', phase_eqb ph' ph = false -> fetchesOf ph' evs = []) /\
  List.length (filter isFetch evs) = List.length (fetchesOf ph evs) /\
  subrequests (snd r) = (subrequests w + List.length (fetchesOf ph evs))%nat /\
  (b <> O -> hd_error (fetchesOf ph evs) = Some apiUrl) /\
  faulted net evs = negb (completed r) /\
  filter isLedgerWrite evs = [] /\
  patreon_post_runs (snd r) = patreon_post_runs w.
Proof.
  cbv zeta.
  apply (fetchPages_cases ph (fun b apiUrl _ w r =>
    (List.length (fetchesOf ph (newEvents w (snd r))) <= b)%nat /\
    (forall ph', phase_eqb ph' ph = false -> fetchesOf ph' (newEvents w (snd r)) = []) /\
    List.length (filter isFetch (newEvents w (snd r))) =
      List.length (fetchesOf ph (newEvents w (snd r))) /\
    subrequests (snd r) =
      (subrequests w + List.length (fetchesOf ph (newEvents w (snd r))))%nat /\
    (b <> O -> hd_error (fetchesOf ph (newEvents w (snd r))) = Some apiUrl) /\
    faulted net (newEvents w (snd r)) = negb (completed r) /\
    filter isLedgerWrite (newEvents w (snd r)) = [] /\
    patreon_post_runs (snd r) = patreon_post_runs w)).
  - intros u n0 w0. simpl. rewrite newEvents_refl. simpl.
    repeat split; auto; try lia; congruence.
  - intros b0 u n0 w0 Hnet. simpl. rewrite newEvents_afterFault.
    simpl. rewrite phase_eqb_refl, Hnet. simpl.
    repeat split; auto; try lia.
    intros ph' Hph'. now rewrite Hph'.
  - intros b0 u n0 w0 posts Hnet Hstop. cbn [snd fst]. rewrite newEvents_afterPage.
    rewrite isFetch_pageEvents, ledgerWrites_pageEvents,
      (faulted_pageEvents _ _ _ _ _ Hnet), fetchesOf_pageEvents, phase_eqb_refl.
    split; [simpl; lia|].
    split; [intros ph' Hph'; now rewrite fetchesOf_pageEvents, Hph'|].
    simpl. repeat split; auto; try lia.
  - intros b0 u n0 w0 posts next Hnet Hl Ht n' w'
           (H1 & H2 & H3 & H4 & H5 & H6 & H7 & H8).
    unfold w', n' in *. rewrite newEvents_after_page.
    rewrite !fetchesOf_app, !filter_app, faulted_app, !length_app.
    rewrite isFetch_pageEvents, ledgerWrites_pageEvents,
      (faulted_pageEvents _ _ _ _ _ Hnet), fetchesOf_pageEvents, phase_eqb_refl.
    split; [simpl; lia|].
    split; [intros ph' Hph'; rewrite fetchesOf_app, fetchesOf_pageEvents, Hph';
            simpl; now apply H2|].
    simpl. repeat split; auto; try lia.
    rewrite H4. simpl. lia.
Qed.

Lemma fetchPages_exit (ph : Phase) (b : nat) (apiUrl : string) (n : nat)
      (w : World) :
  let r := fetchPages net ph b apiUrl n w in
  let evs := newEvents w (snd r) in
  match fst r with
  | Normal (next, _) =>
      (List.length (fetchesOf ph evs) = b /\ (b <> O -> truthy next = true))
      \/ truthy next = false
  | Thrown _ =>
      exists pre k u, evs = pre ++ [EvFetch ph k u] /\ net k u = None
  end.
Proof.
  cbv zeta.
  apply (fetchPages_cases ph (fun b _ _ w r =>
    match fst r with
    | Normal (next, _) =>
        (List.length (fetchesOf ph (newEvents w (snd r))) = b /\
         (b <> O -> truthy next = true))
        \/ truthy next = false
    | Thrown _ =>
        exists pre k u,
          newEvents w (snd r) = pre ++ [EvFetch ph k u] /\ net k u = None
    end)).
  - intros u n0 w0. simpl. rewrite newEvents_refl. left. split; [reflexivity|congruence].
  - intros b0 u n0 w0 Hnet. simpl. rewrite newEvents_afterFault.
    exists [], (subrequests w0), u. auto.
  - intros b0 u n0 w0 posts Hnet Hstop. simpl. now right.
  - intros b0 u n0 w0 posts next Hnet Hl Ht n' w'. unfold w', n'.
    rewrite newEvents_after_page.
    destruct b0 as [|b0].
    + (* the budget ran out on this page: the loop returns its [next] link *)
      intros _. cbn [fetchPages]. unfold ret. cbn [fst snd].
      rewrite newEvents_refl, app_nil_r.
      rewrite fetchesOf_pageEvents, phase_eqb_refl. left. split; [reflexivity|].
      intros _. exact Ht.
    + destruct (fst (fetchPages net ph (S b0) next _ _)) as [[nx m]|e].
      * intros [[H Hb]|H]; [left|now right].
        rewrite fetchesOf_app, length_app, fetchesOf_pageEvents, phase_eqb_refl, H.
        split; [reflexivity|].
        intros _. apply Hb. congruence.
      * intros (pre & k & u' & Hev & Hk).
        exists (pageEvents ph (subrequests w0) u posts n0 ++ pre), k, u'.
        rewrite Hev, app_assoc. auto.
Qed.

Lemma fetchPages_trace (ph : Phase) (b : nat) (apiUrl : string) (n : nat)
      (w : World) :
  trace (snd (fetchPages net ph b apiUrl n w)) =
  trace w ++ newEvents w (snd (fetchPages net ph b apiUrl n w)).
Proof.
  destruct (fetchPages_extends ph b apiUrl n w) as [evs Hevs].
  now rewrite (newEvents_app _ _ _ Hevs).
Qed.

Lemma fetchPages_keeps (ph : Phase) (b : nat) (apiUrl : string) (n : nat)
      (w : World) :
  let r := fetchPages net ph b apiUrl n w in
  incl (postIds (patreon_posts w)) (postIds (patreon_posts (snd r))) /\
  (forall ph' k u posts,
      In (EvFetch ph' k u) (newEvents w (snd r)) ->
      net k u = Some posts ->
      incl (map post_id (data posts)) (postIds (patreon_posts (snd r)))).
Proof.
  cbv zeta.
  apply (fetchPages_cases ph (fun _ _ _ w r =>
    incl (postIds (patreon_posts w)) (postIds (patreon_posts (snd r))) /\
    (forall ph' k u posts,
        In (EvFetch ph' k u) (newEvents w (snd r)) ->
        net k u = Some posts ->
        incl (map post_id (data posts)) (postIds (patreon_posts (snd r)))))).
  - intros u n0 w0. cbn [snd]. rewrite newEvents_refl. split.
    + apply incl_refl.
    + intros ? ? ? ? [].
  - intros b0 u n0 w0 Hnet. cbn [snd]. rewrite newEvents_afterFault. split.
    + apply incl_refl.
    + intros ph' k u' posts [H|[]] Hk. inversion H; subst. congruence.
  - intros b0 u n0 w0 posts Hnet Hstop. cbn [snd]. rewrite newEvents_afterPage.
    unfold afterPage. cbn [patreon_posts]. split.
    + intros i Hi. apply in_postIds_upsertRows. now left.
    + intros ph' k u' posts' Hin Hk.
      apply in_fetch_pageEvents in Hin. destruct Hin as (_ & -> & ->).
      assert (posts' = posts) by congruence. subst posts'.
      intros i Hi. apply in_postIds_upsertRows. right.
      rewrite map_map. exact Hi.
  - intros b0 u n0 w0 posts next Hnet Hl Ht n' w' [IH1 IH2].
    unfold w', n' in *. rewrite newEvents_after_page.
    assert (Hstep : incl (postIds (upsertRows (map rowOfPost (data posts))
                                              (patreon_posts w0)))
                         (postIds (patreon_posts
                            (snd (fetchPages net ph b0 next
                                    (n0 + List.length (data posts))%nat
                                    (afterPage ph u posts n0 w0)))))) by exact IH1.
    split.
    + intros i Hi. apply Hstep. apply in_postIds_upsertRows. now left.
    + intros ph' k u' posts' Hin Hk. apply in_app_iff in Hin.
      destruct Hin as [Hin|Hin].
      * apply in_fetch_pageEvents in Hin. destruct Hin as (_ & -> & ->).
        assert (posts' = posts) by congruence. subst posts'.
        intros i Hi. apply Hstep. apply in_postIds_upsertRows. right.
        rewrite map_map. exact Hi.
      * eapply IH2; eauto.
Qed.

Lemma rowsMatching_app (t : Z) (a b : list StoredPreviousRun) :
  rowsMatching t (a ++ b) = (rowsMatching t a + rowsMatching t b)%nat.
Proof. unfold rowsMatching. now rewrite filter_app, length_app. Qed.

(** Finalising a run whose ledger row is in the table. *)
Lemma storeRunEnd_own_row (now0 : Z) (d : Q) (n : nat) (link : option string)
      (old : list StoredPreviousRun) (w : World) :
  patreon_post_runs w = old ++ [mkRun now0 None None None] ->
  storeRunEnd now0 d n link w =
  (Normal tt,
   mkWorld (patreon_posts w)
           (map (updateRun now0 d n link) old ++ [mkRun now0 (Some d) (Some n) link])
           (subrequests w)
           (trace w ++ [EvUpdateRun now0 (S (rowsMatching now0 old))])).
Proof.
  intro H. unfold storeRunEnd. rewrite H, rowsMatching_app.
  assert (Hown : rowsMatching now0 [mkRun now0 None None None] = 1%nat).
  { unfold rowsMatching. simpl. now rewrite Z.eqb_refl. }
  rewrite Hown, Nat.add_1_r. cbv zeta. cbn [Nat.eqb].
  rewrite map_app. cbn [map]. unfold updateRun at 2. cbn [started_at].
  rewrite Z.eqb_refl. reflexivity.
Qed.

Lemma fetchPages_runs (ph : Phase) (b : nat) (apiUrl : string) (n : nat)
      (w : World) :
  patreon_post_runs (snd (fetchPages net ph b apiUrl n w)) = patreon_post_runs w.
Proof. apply (fetchPages_counts ph b apiUrl n w). Qed.

(** The four ways a run can go, with the events it adds in each. *)
Lemma sync_outcome (now0 now1 : Z) (w : World) :
  let wS := startOfRun now0 w in
  let rA := fetchPages net PartOne 20 initialApiUrl 0 wS in
  let evsA := newEvents wS (snd rA) in
  let r := syncInPostsFromPatreon net now0 now1 w in
  let fin := [EvUpdateRun now0 (S (rowsMatching now0 (patreon_post_runs w)))] in
  (exists e, fst rA = Thrown e /\ r = (Thrown e, snd rA) /\
             newEvents w (snd r) = EvSelectLastRun :: EvInsertRun now0 :: evsA)
  \/
  (exists partOne,
      fst rA = Normal partOne /\
      truthy (partTwoStart w partOne) = false /\
      r = storeRunEnd now0 (elapsedSeconds now0 now1) (snd partOne) None (snd rA) /\
      newEvents w (snd r) = EvSelectLastRun :: EvInsertRun now0 :: evsA ++ fin)
  \/
  (exists partOne u,
      fst rA = Normal partOne /\
      partTwoStart w partOne = Some u /\
      truthy (Some u) = true /\
      let rB := fetchPages net PartTwo 20 u (snd partOne) (snd rA) in
      let evsB := newEvents (snd rA) (snd rB) in
      ((exists e, fst rB = Thrown e /\ r = (Thrown e, snd rB) /\
                  newEvents w (snd r) =
                    EvSelectLastRun :: EvInsertRun now0 :: evsA ++ evsB)
       \/
       (exists partTwo,
           fst rB = Normal partTwo /\
           r = storeRunEnd now0 (elapsedSeconds now0 now1)
                           (snd partTwo) (fst partTwo) (snd rB) /\
           newEvents w (snd r) =
             EvSelectLastRun :: EvInsertRun now0 :: evsA ++ evsB ++ fin))).
Proof.
  cbv zeta. rewrite sync_unfold.
  pose proof (fetchPages_trace PartOne 20 initialApiUrl 0 (startOfRun now0 w)) as HtA.
  pose proof (fetchPages_runs PartOne 20 initialApiUrl 0 (startOfRun now0 w)) as HrA.
  destruct (fetchPages net PartOne 20 initialApiUrl 0 (startOfRun now0 w))
    as [[partOne|e] w1] eqn:EA; cbn [fst snd] in *.
  2:{ left. exists e. repeat split. apply newEvents_app. rewrite HtA.
      unfold startOfRun. cbn [trace]. now rewrite <- app_assoc. }
  right. cbv zeta. fold (partTwoStart w partOne).
  assert (Hfin : forall w2 d n link,
             patreon_post_runs w2 = patreon_post_runs w ++ [mkRun now0 None None None] ->
             trace (snd (storeRunEnd now0 d n link w2)) =
             trace w2 ++ [EvUpdateRun now0 (S (rowsMatching now0 (patreon_post_runs w)))]).
  { intros w2 d n link H2. now rewrite (storeRunEnd_own_row _ _ _ _ _ _ H2). }
  destruct (partTwoStart w partOne) as [u|] eqn:Hstart.
  - destruct (truthy (Some u)) eqn:Hu.
    + right. exists partOne, u. repeat split; auto.
      pose proof (fetchPages_trace PartTwo 20 u (snd partOne) w1) as HtB.
      pose proof (fetchPages_runs PartTwo 20 u (snd partOne) w1) as HrB.
      destruct (fetchPages net PartTwo 20 u (snd partOne) w1)
        as [[partTwo|e] w2] eqn:EB; cbn [fst snd] in *.
      * right. exists partTwo. repeat split. apply newEvents_app.
        rewrite Hfin by (rewrite HrB, HrA; reflexivity).
        rewrite HtB, HtA. unfold startOfRun. cbn [trace].
        rewrite <- !app_assoc. reflexivity.
      * left. exists e. repeat split. apply newEvents_app.
        rewrite HtB, HtA. unfold startOfRun. cbn [trace].
        rewrite <- !app_assoc. reflexivity.
    + left. exists partOne. rewrite Hstart. repeat split; auto. apply newEvents_app.
      rewrite Hfin by (rewrite HrA; reflexivity).
      rewrite HtA. unfold startOfRun. cbn [trace].
      rewrite <- !app_assoc. reflexivity.
  - left. exists partOne. rewrite Hstart. repeat split; auto. apply newEvents_app.
    rewrite Hfin by (rewrite HrA; reflexivity).
    rewrite HtA. unfold startOfRun. cbn [trace].
    rewrite <- !app_assoc. reflexivity.
Qed.

Lemma fetchesOf_skip (ph : Phase) (e : Event) (l : list Event) :
  isFetch e = false -> fetchesOf ph (e :: l) = fetchesOf ph l.
Proof. destruct e; simpl; intro H; try reflexivity; discriminate. Qed.

Lemma fetchesOf_nil (ph : Phase) : fetchesOf ph [] = [].
Proof. reflexivity. Qed.

(** Fetch counts of the events of one run, from those of its two loops. *)
Lemma run_fetch_counts (now0 : Z) (evsA evsB fin : list Event) (s0 sA sB : nat) :
  (List.length (fetchesOf PartOne evsA) <= 20)%nat ->
  fetchesOf PartTwo evsA = [] ->
  List.length (filter isFetch evsA) = List.length (fetchesOf PartOne evsA) ->
  sA = (s0 + List.length (fetchesOf PartOne evsA))%nat ->
  (List.length (fetchesOf PartTwo evsB) <= 20)%nat ->
  fetchesOf PartOne evsB = [] ->
  List.length (filter isFetch evsB) = List.length (fetchesOf PartTwo evsB) ->
  sB = (sA + List.length (fetchesOf PartTwo evsB))%nat ->
  filter isFetch fin = [] ->
  let evs := EvSelectLastRun :: EvInsertRun now0 :: evsA ++ evsB ++ fin in
  (List.length (fetchesOf PartOne evs) <= 20)%nat /\
  (List.length (fetchesOf PartTwo evs) <= 20)%nat /\
  List.length (filter isFetch evs) =
    (List.length (fetchesOf PartOne evs) + List.length (fetchesOf PartTwo evs))%nat /\
  (List.length (filter isFetch evs) <= 40)%nat /\
  sB = (s0 + List.length (filter isFetch evs))%nat.
Proof.
  intros A1 A2 A3 A4 B1 B2 B3 B4 F. cbv zeta.
  assert (Ffin : forall ph, fetchesOf ph fin = []).
  { intro ph. clear - F. induction fin as [|e fin' IH]; [reflexivity|].
    simpl in F. destruct (isFetch e) eqn:E; [discriminate|].
    rewrite fetchesOf_skip by exact E. now apply IH. }
  rewrite !fetchesOf_skip by reflexivity.
  cbn [filter isFetch].
  rewrite !fetchesOf_app, !filter_app, !length_app, !Ffin, A2, B2, F.
  cbn [List.length]. lia.
Qed.

End FetchLoop.

(** C5. Whatever the remote feed answers, one run issues at most 20 fetches
    in part one and at most 20 in part two, 40 subrequests at most, and no
    fetch outside the two loops.  The run is a total function of the
    answers, and each loop ends in one of three ways: its budget is used up
    (it then holds the next link), a page came without a usable next link,
    or a fetch faulted, which is then the last thing the loop did. *)
Theorem sync_fetches_at_most_forty :
  forall (net : Network) (now0 now1 : Z) (w : World),
    let r := syncInPostsFromPatreon net now0 now1 w in
    let evs := newEvents w (snd r) in
    ((List.length (fetchesOf PartOne evs) <= 20)%nat /\
     (List.length (fetchesOf PartTwo evs) <= 20)%nat /\
     List.length (filter isFetch evs) =
       (List.length (fetchesOf PartOne evs) + List.length (fetchesOf PartTwo evs))%nat /\
     (List.length (filter isFetch evs) <= 40)%nat /\
     subrequests (snd r) = (subrequests w + List.length (filter isFetch evs))%nat) /\
    (forall (ph : Phase) (budget : nat) (apiUrl : string) (n : nat) (w0 : World),
        let l := fetchPages net ph budget apiUrl n w0 in
        let fetched := fetchesOf ph (newEvents w0 (snd l)) in
        (List.length fetched <= budget)%nat /\
        match fst l with
        | Normal (next, _) =>
            (List.length fetched = budget /\ (budget <> O -> truthy next = true))
            \/ truthy next = false
        | Thrown _ =>
            exists pre k u,
              newEvents w0 (snd l) = pre ++ [EvFetch ph k u] /\ net k u = None
        end).
Proof.
  intros net now0 now1 w. cbv zeta. split.
  2:{ intros ph budget apiUrl n w0. split.
      - apply (fetchPages_counts net ph budget apiUrl n w0).
      - apply (fetchPages_exit net ph budget apiUrl n w0). }
  pose proof (fetchPages_counts net PartOne 20 initialApiUrl 0 (startOfRun now0 w))
    as (A1 & A2 & A3 & A4 & _).
  specialize (A2 PartTwo eq_refl).
  destruct (sync_outcome net now0 now1 w)
    as [(e & HA & Hr & Hev) | [(p1 & HA & Hstart & Hr & Hev)
                              | (p1 & u & HA & Hstart & Hu & HB)]].
  - rewrite Hev, Hr. cbn [snd].
    replace (newEvents (startOfRun now0 w)
               (snd (fetchPages net PartOne 20 initialApiUrl 0 (startOfRun now0 w))))
      with (newEvents (startOfRun now0 w)
               (snd (fetchPages net PartOne 20 initialApiUrl 0 (startOfRun now0 w)))
            ++ [] ++ []) by (now rewrite !app_nil_r).
    eapply run_fetch_counts; eauto; simpl; lia.
  - rewrite Hev, Hr.
    destruct (storeRunEnd_frame now0 (elapsedSeconds now0 now1) (snd p1) None
                (snd (fetchPages net PartOne 20 initialApiUrl 0 (startOfRun now0 w))))
      as (_ & _ & _ & Hs).
    rewrite Hs.
    change (?a ++ [EvUpdateRun now0 ?k]) with (a ++ [] ++ [EvUpdateRun now0 k]).
    eapply run_fetch_counts; eauto; simpl; lia.
  - cbv zeta in HB.
    pose proof (fetchPages_counts net PartTwo 20 u (snd p1)
                  (snd (fetchPages net PartOne 20 initialApiUrl 0 (startOfRun now0 w))))
      as (B1 & B2 & B3 & B4 & _).
    specialize (B2 PartOne eq_refl).
    destruct HB as [(e & HBt & Hr & Hev) | (p2 & HBn & Hr & Hev)].
    + rewrite Hev, Hr. cbn [snd].
      replace (newEvents _ (snd (fetchPages net PartTwo 20 u (snd p1) _)))
        with (newEvents (snd (fetchPages net PartOne 20 initialApiUrl 0 (startOfRun now0 w)))
                (snd (fetchPages net PartTwo 20 u (snd p1)
                   (snd (fetchPages net PartOne 20 initialApiUrl 0 (startOfRun now0 w)))))
              ++ []) by (now rewrite app_nil_r).
      eapply run_fetch_counts; eauto; simpl; lia.
    + rewrite Hev, Hr.
      destruct (storeRunEnd_frame now0 (elapsedSeconds now0 now1) (snd p2) (fst p2)
                  (snd (fetchPages net PartTwo 20 u (snd p1)
                     (snd (fetchPages net PartOne 20 initialApiUrl 0 (startOfRun now0 w))))))
        as (_ & _ & _ & Hs).
      rewrite Hs.
      eapply run_fetch_counts; eauto; simpl; lia.
Qed.

(* ================================================================== *)
(** * Runs that meet a fault *)

Section Faults.

Variable net : Network.

Lemma storeRunEnd_completed (t : Z) (d : Q) (n : nat) (link : option string)
      (w : World) :
  completed (storeRunEnd t d n link w) = true.
Proof.
  unfold completed. now rewrite (proj1 (storeRunEnd_frame t d n link w)).
Qed.

Lemma faulted_skip (e : Event) (l : list Event) :
  isFetch e = false -> faulted net (e :: l) = faulted net l.
Proof. destruct e; simpl; intro H; try reflexivity; discriminate. Qed.

(** A run throws exactly when one of its fetches faulted. *)
Lemma sync_faulted (now0 now1 : Z) (w : World) :
  let r := syncInPostsFromPatreon net now0 now1 w in
  faulted net (newEvents w (snd r)) = negb (completed r).
Proof.
  cbv zeta.
  pose proof (fetchPages_counts net PartOne 20 initialApiUrl 0 (startOfRun now0 w))
    as (_ & _ & _ & _ & _ & FA & _).
  destruct (sync_outcome net now0 now1 w)
    as [(e & HA & Hr & Hev) | [(p1 & HA & Hstart & Hr & Hev)
                              | (p1 & u & HA & Hstart & Hu & HB)]].
  - rewrite Hev, Hr. rewrite !faulted_skip by reflexivity. rewrite FA.
    unfold completed. now rewrite HA.
  - rewrite Hev, Hr, storeRunEnd_completed.
    rewrite !faulted_skip by reflexivity. rewrite faulted_app, FA.
    unfold completed. now rewrite HA.
  - cbv zeta in HB.
    pose proof (fetchPages_counts net PartTwo 20 u (snd p1)
                  (snd (fetchPages net PartOne 20 initialApiUrl 0 (startOfRun now0 w))))
      as (_ & _ & _ & _ & _ & FB & _).
    destruct HB as [(e & HBt & Hr & Hev) | (p2 & HBn & Hr & Hev)].
    + rewrite Hev, Hr. rewrite !faulted_skip by reflexivity.
      rewrite faulted_app, FA, FB. unfold completed. now rewrite HA, HBt.
    + rewrite Hev, Hr, storeRunEnd_completed.
      rewrite !faulted_skip by reflexivity.
      rewrite !faulted_app, FA, FB. unfold completed. now rewrite HA, HBn.
Qed.

(** No run removes an id from the posts table, and the ids of every page
    a run fetched are in the table when the run is over. *)
Lemma sync_keeps (now0 now1 : Z) (w : World) :
  let r := syncInPostsFromPatreon net now0 now1 w in
  incl (postIds (patreon_posts w)) (postIds (patreon_posts (snd r))) /\
  (forall ph k u posts,
      In (EvFetch ph k u) (newEvents w (snd r)) ->
      net k u = Some posts ->
      incl (map post_id (data posts)) (postIds (patreon_posts (snd r)))).
Proof.
  cbv zeta.
  pose proof (fetchPages_keeps net PartOne 20 initialApiUrl 0 (startOfRun now0 w))
    as [KA1 KA2].
  change (patreon_posts (startOfRun now0 w)) with (patreon_posts w) in KA1.
  assert (Hcons : forall ph k u l,
             In (EvFetch ph k u) (EvSelectLastRun :: EvInsertRun now0 :: l) ->
             In (EvFetch ph k u) l).
  { intros ph k u l [H|[H|H]]; [discriminate|discriminate|exact H]. }
  destruct (sync_outcome net now0 now1 w)
    as [(e & HA & Hr & Hev) | [(p1 & HA & Hstart & Hr & Hev)
                              | (p1 & u & HA & Hstart & Hu & HB)]].
  - rewrite Hev, Hr. cbn [snd]. split; [exact KA1|].
    intros ph k u posts Hin. apply Hcons in Hin. eauto.
  - rewrite Hev, Hr.
    rewrite (proj1 (proj2 (storeRunEnd_frame _ _ _ _ _))).
    split; [exact KA1|].
    intros ph k u posts Hin. apply Hcons in Hin.
    apply in_app_iff in Hin. destruct Hin as [Hin|[Hin|[]]]; [eauto|discriminate].
  - cbv zeta in HB.
    pose proof (fetchPages_keeps net PartTwo 20 u (snd p1)
                  (snd (fetchPages net PartOne 20 initialApiUrl 0 (startOfRun now0 w))))
      as [KB1 KB2].
    assert (Hall : forall ph k u0 posts,
               In (EvFetch ph k u0)
                  (newEvents (startOfRun now0 w)
                     (snd (fetchPages net PartOne 20 initialApiUrl 0 (startOfRun now0 w)))
                   ++ newEvents
                        (snd (fetchPages net PartOne 20 initialApiUrl 0 (startOfRun now0 w)))
                        (snd (fetchPages net PartTwo 20 u (snd p1)
                           (snd (fetchPages net PartOne 20 initialApiUrl 0
                                   (startOfRun now0 w)))))) ->
               net k u0 = Some posts ->
               incl (map post_id (data posts))
                    (postIds (patreon_posts
                       (snd (fetchPages net PartTwo 20 u (snd p1)
                          (snd (fetchPages net PartOne 20 initialApiUrl 0
                                  (startOfRun now0 w)))))))).
    { intros ph k u0 posts Hin Hk. apply in_app_iff in Hin.
      destruct Hin as [Hin|Hin]; [|eauto].
      eapply incl_tran; [eapply KA2; eauto | exact KB1]. }
    destruct HB as [(e & HBt & Hr & Hev) | (p2 & HBn & Hr & Hev)].
    + rewrite Hev, Hr. cbn [snd]. split; [eapply incl_tran; eauto|].
      intros ph k u0 posts Hin. apply Hcons in Hin. eauto.
    + rewrite Hev, Hr.
      rewrite (proj1 (proj2 (storeRunEnd_frame _ _ _ _ _))).
      split; [eapply incl_tran; eauto|].
      intros ph k u0 posts Hin. apply Hcons in Hin.
      rewrite app_assoc in Hin. apply in_app_iff in Hin.
      destruct Hin as [Hin|[Hin|[]]]; [eauto|discriminate].
Qed.

(** The ledger after a run: its own row is the last one, completed when
    the run returned and as inserted when it threw. *)
Lemma sync_ledger (now0 now1 : Z) (w : World) :
  let r := syncInPostsFromPatreon net now0 now1 w in
  (fst r = Thrown NetworkFault /\
   patreon_post_runs (snd r) = patreon_post_runs w ++ [mkRun now0 None None None])
  \/
  (exists n link,
      fst r = Normal tt /\
      patreon_post_runs (snd r) =
        map (updateRun now0 (elapsedSeconds now0 now1) n link) (patreon_post_runs w)
        ++ [mkRun now0 (Some (elapsedSeconds now0 now1)) (Some n) link]).
Proof.
  cbv zeta.
  pose proof (fetchPages_runs net PartOne 20 initialApiUrl 0 (startOfRun now0 w)) as RA.
  change (patreon_post_runs (startOfRun now0 w))
    with (patreon_post_runs w ++ [mkRun now0 None None None]) in RA.
  destruct (sync_outcome net now0 now1 w)
    as [(e & HA & Hr & Hev) | [(p1 & HA & Hstart & Hr & Hev)
                              | (p1 & u & HA & Hstart & Hu & HB)]].
  - left. rewrite Hr. rewrite (fetchPages_throws _ _ _ _ _ _ _ HA). auto.
  - right. exists (snd p1), None. rewrite Hr.
    rewrite (storeRunEnd_own_row _ _ _ _ _ _ RA). auto.
  - cbv zeta in HB.
    pose proof (fetchPages_runs net PartTwo 20 u (snd p1)
                  (snd (fetchPages net PartOne 20 initialApiUrl 0 (startOfRun now0 w))))
      as RB.
    rewrite RA in RB.
    destruct HB as [(e & HBt & Hr & Hev) | (p2 & HBn & Hr & Hev)].
    + left. rewrite Hr. rewrite (fetchPages_throws _ _ _ _ _ _ _ HBt). auto.
    + right. exists (snd p2), (fst p2). rewrite Hr.
      rewrite (storeRunEnd_own_row _ _ _ _ _ _ RB). auto.
Qed.

End Faults.

(** C3 (as stated, refuted). A feed answers the first fetch and faults on
    the second: the run throws, its ledger row keeps NULL in the duration,
    count and link columns, part two issues no fetch, and the only ledger
    write is the insert made at the start of the run; the post of the first
    page stays stored. *)
Lemma sync_fault_leaves_run_unfinalized :
  fst (syncInPostsFromPatreon faultOnSecond 1000 1500 freshWorld)
    = Thrown NetworkFault /\
  patreon_post_runs (snd (syncInPostsFromPatreon faultOnSecond 1000 1500 freshWorld))
    = [mkRun 1000 None None None] /\
  postIds (patreon_posts (snd (syncInPostsFromPatreon faultOnSecond 1000 1500 freshWorld)))
    = ["0"] /\
  newEvents freshWorld (snd (syncInPostsFromPatreon faultOnSecond 1000 1500 freshWorld))
    = [EvSelectLastRun; EvInsertRun 1000;
       EvFetch PartOne 0 initialApiUrl; EvUpsertPost "0"; EvConsoleLog PartOne 1;
       EvFetch PartOne 1 "cursor-1"].
Proof. vm_compute. repeat split. Qed.

(** C3 (amended). A fetch or parse fault is not caught: in every run in
    which a fetch faults, the exception leaves [syncInPostsFromPatreon], the
    faulted fetch is the last thing the run did (a fault in part one means
    no fetch in part two), and the run's ledger row stays as inserted, with
    no duration, count or link written.  Every record upserted before the
    fault remains stored: no id that was in the posts table is lost, and the
    ids of every page the run fetched are in it. *)
Theorem sync_fault_aborts_run_keeps_upserts :
  forall (net : Network) (now0 now1 : Z) (w : World),
    let r := syncInPostsFromPatreon net now0 now1 w in
    let evs := newEvents w (snd r) in
    faulted net evs = true ->
    fst r = Thrown NetworkFault /\
    (exists pre ph k u,
        evs = pre ++ [EvFetch ph k u] /\ net k u = None /\
        (ph = PartOne -> fetchesOf PartTwo evs = [])) /\
    patreon_post_runs (snd r) = patreon_post_runs w ++ [mkRun now0 None None None] /\
    filter isLedgerWrite evs = [EvInsertRun now0] /\
    incl (postIds (patreon_posts w)) (postIds (patreon_posts (snd r))) /\
    (forall ph k u posts,
        In (EvFetch ph k u) evs -> net k u = Some posts ->
        incl (map post_id (data posts)) (postIds (patreon_posts (snd r)))).
Proof.
  intros net now0 now1 w. cbv zeta. intro Hf.
  pose proof (sync_faulted net now0 now1 w) as Hc. cbv zeta in Hc.
  rewrite Hf in Hc.
  destruct (sync_keeps net now0 now1 w) as [K1 K2].
  destruct (sync_ledger net now0 now1 w) as [[Hthrown Hruns] | (n & link & Hn & _)].
  2:{ unfold completed in Hc. rewrite Hn in Hc. discriminate. }
  split; [exact Hthrown|]. split; [|split; [exact Hruns|split; [|split; assumption]]].
  - pose proof (fetchPages_counts net PartOne 20 initialApiUrl 0 (startOfRun now0 w))
      as (_ & A2 & _).
    specialize (A2 PartTwo eq_refl).
    pose proof (fetchPages_exit net PartOne 20 initialApiUrl 0 (startOfRun now0 w)) as EA.
    cbv zeta in EA.
    destruct (sync_outcome net now0 now1 w)
      as [(e & HA & Hr & Hev) | [(p1 & HA & Hstart & Hr & Hev)
                                | (p1 & u & HA & Hstart & Hu & HB)]].
    + rewrite HA in EA. destruct EA as (pre & k & u & Hpre & Hk).
      exists (EvSelectLastRun :: EvInsertRun now0 :: pre), PartOne, k, u.
      rewrite Hev. split; [now rewrite Hpre|]. split; [exact Hk|].
      intros _. now rewrite !fetchesOf_skip by reflexivity.
    + rewrite Hr, (proj1 (storeRunEnd_frame _ _ _ _ _)) in Hthrown. discriminate.
    + cbv zeta in HB.
      pose proof (fetchPages_exit net PartTwo 20 u (snd p1)
                    (snd (fetchPages net PartOne 20 initialApiUrl 0 (startOfRun now0 w))))
        as EB.
      cbv zeta in EB.
      destruct HB as [(e & HBt & Hr & Hev) | (p2 & HBn & Hr & Hev)].
      * rewrite HBt in EB. destruct EB as (pre & k & u' & Hpre & Hk).
        exists (EvSelectLastRun :: EvInsertRun now0 ::
                  newEvents (startOfRun now0 w)
                    (snd (fetchPages net PartOne 20 initialApiUrl 0 (startOfRun now0 w)))
                  ++ pre), PartTwo, k, u'.
        rewrite Hev. split; [|split; [exact Hk|discriminate]].
        rewrite Hpre. cbn [app]. now rewrite <- app_assoc.
      * rewrite Hr, (proj1 (storeRunEnd_frame _ _ _ _ _)) in Hthrown. discriminate.
  - pose proof (fetchPages_counts net PartOne 20 initialApiUrl 0 (startOfRun now0 w))
      as (_ & _ & _ & _ & _ & _ & LA & _).
    destruct (sync_outcome net now0 now1 w)
      as [(e & HA & Hr & Hev) | [(p1 & HA & Hstart & Hr & Hev)
                                | (p1 & u & HA & Hstart & Hu & HB)]].
    + rewrite Hev. cbn [filter isLedgerWrite]. now rewrite LA.
    + rewrite Hr, (proj1 (storeRunEnd_frame _ _ _ _ _)) in Hthrown. discriminate.
    + cbv zeta in HB.
      pose proof (fetchPages_counts net PartTwo 20 u (snd p1)
                    (snd (fetchPages net PartOne 20 initialApiUrl 0 (startOfRun now0 w))))
        as (_ & _ & _ & _ & _ & _ & LB & _).
      destruct HB as [(e & HBt & Hr & Hev) | (p2 & HBn & Hr & Hev)].
      * rewrite Hev. cbn [filter isLedgerWrite]. now rewrite filter_app, LA, LB.
      * rewrite Hr, (proj1 (storeRunEnd_frame _ _ _ _ _)) in Hthrown. discriminate.
Qed.

(* ================================================================== *)
(** * Resuming the archive dive *)

Section Resumption.

Lemma latestRun_after_update (t : Z) (d : Q) (n : nat) (link : option string)
      (old : list StoredPreviousRun) :
  Forall (fun r => started_at r <= t) old ->
  exists r,
    latestRun (map (updateRun t d n link) old ++ [mkRun t (Some d) (Some n) link])
      = Some r /\
    started_at r = t /\ last_next_link r = link.
Proof.
  induction old as [|a old IH]; intro H.
  - simpl. eexists. split; [reflexivity|]. auto.
  - inversion H as [|? ? Ha Hold]; subst.
    destruct (IH Hold) as (r & Hr & Hs & Hl).
    cbn [map app latestRun]. rewrite Hr.
    assert (Hsa : started_at (updateRun t d n link a) = started_at a).
    { unfold updateRun. destruct (started_at a =? t); reflexivity. }
    rewrite Hsa, Hs.
    destruct (started_at a <? t) eqn:Hlt.
    + exists r. auto.
    + apply Z.ltb_ge in Hlt. assert (started_at a = t) by lia.
      eexists. split; [reflexivity|]. split; [now rewrite Hsa|].
      unfold updateRun. rewrite (proj2 (Z.eqb_eq _ _) H0). reflexivity.
Qed.

Lemma truthy_nonempty (s : string) : s <> "" -> truthy (Some s) = true.
Proof. destruct s; [congruence | reflexivity]. Qed.

(** Every run starts with the select of the last run, followed by its
    own insert into the ledger. *)
Lemma run_reads_before_writing (net : Network) (t0 t1 : Z) (w : World) :
  exists rest,
    newEvents w (snd (syncInPostsFromPatreon net t0 t1 w))
    = EvSelectLastRun :: EvInsertRun t0 :: rest.
Proof.
  destruct (sync_outcome net t0 t1 w)
    as [(e & _ & _ & Hev) | [(p1 & _ & _ & _ & Hev) | (p1 & u & _ & _ & _ & HB)]].
  - eexists; exact Hev.
  - eexists; exact Hev.
  - cbv zeta in HB. destruct HB as [(e & _ & _ & Hev) | (p2 & _ & _ & Hev)];
      eexists; exact Hev.
Qed.

Lemma run_resumes_previous_link :
  forall (netK netK1 : Network) (t0 t1 t0' t1' : Z) (w : World) (C : string)
         (rows : list StoredPreviousRun) (d : option Q) (n : option nat),
    Forall (fun r => started_at r <= t0) (patreon_post_runs w) ->
    let rK := syncInPostsFromPatreon netK t0 t1 w in
    patreon_post_runs (snd rK) = rows ++ [mkRun t0 d n (Some C)] ->
    C <> "" ->
    let rK1 := syncInPostsFromPatreon netK1 t0' t1' (snd rK) in
    let evs := newEvents (snd rK) (snd rK1) in
    fst rK = Normal tt /\
    (exists rest, evs = EvSelectLastRun :: EvInsertRun t0' :: rest) /\
    (hd_error (fetchesOf PartTwo evs) = Some C
     \/ (fetchesOf PartTwo evs = [] /\ fst rK1 = Thrown NetworkFault /\
         exists pre k u, evs = pre ++ [EvFetch PartOne k u] /\ netK1 k u = None)).
Proof.
  intros netK netK1 t0 t1 t0' t1' w C rows d n Hclock. cbv zeta. intros Hrow HC.
  (* run K completed, and its row is the latest of the ledger *)
  destruct (sync_ledger netK t0 t1 w) as [[_ Hruns] | (n0 & link & Hn & Hruns)].
  { rewrite Hruns in Hrow. apply app_inj_tail in Hrow. destruct Hrow as [_ Hrow].
    discriminate. }
  split; [exact Hn|].
  assert (Hlink : link = Some C).
  { rewrite Hruns in Hrow. apply app_inj_tail in Hrow. destruct Hrow as [_ Hrow].
    now inversion Hrow. }
  subst link.
  destruct (latestRun_after_update t0 (elapsedSeconds t0 t1) n0 (Some C) _ Hclock)
    as (r & Hr & _ & Hl).
  rewrite <- Hruns in Hr.
  set (wK := snd (syncInPostsFromPatreon netK t0 t1 w)) in *.
  assert (Hstart : forall p1, partTwoStart wK p1 = Some C).
  { intro p1. unfold partTwoStart. rewrite Hr. cbn [linkOf]. rewrite Hl.
    now rewrite truthy_nonempty. }
  pose proof (fetchPages_counts netK1 PartOne 20 initialApiUrl 0 (startOfRun t0' wK))
    as (_ & A2 & _).
  specialize (A2 PartTwo eq_refl).
  destruct (sync_outcome netK1 t0' t1' wK)
    as [(e & HA & Hr1 & Hev) | [(p1 & HA & Hst & Hr1 & Hev)
                               | (p1 & u & HA & Hst & Hu & HB)]].
  - split; [eexists; exact Hev|]. right.
    rewrite Hev. rewrite !fetchesOf_skip by reflexivity.
    split; [exact A2|]. split; [rewrite Hr1; now rewrite (fetchPages_throws netK1 _ _ _ _ _ _ HA)|].
    pose proof (fetchPages_exit netK1 PartOne 20 initialApiUrl 0 (startOfRun t0' wK)) as EA.
    cbv zeta in EA. rewrite HA in EA. destruct EA as (pre & k & u & Hpre & Hk).
    exists (EvSelectLastRun :: EvInsertRun t0' :: pre), k, u.
    split; [now rewrite Hpre | exact Hk].
  - rewrite Hstart, truthy_nonempty in Hst by exact HC. discriminate.
  - rewrite Hstart in Hst. inversion Hst; subst u. cbv zeta in HB.
    pose proof (fetchPages_counts netK1 PartTwo 20 C (snd p1)
                  (snd (fetchPages netK1 PartOne 20 initialApiUrl 0 (startOfRun t0' wK))))
      as (_ & _ & _ & _ & B5 & _).
    specialize (B5 ltac:(discriminate)).
    assert (Hhd : forall tail,
               hd_error (fetchesOf PartTwo
                 (EvSelectLastRun :: EvInsertRun t0' ::
                  newEvents (startOfRun t0' wK)
                    (snd (fetchPages netK1 PartOne 20 initialApiUrl 0 (startOfRun t0' wK)))
                  ++ newEvents
                       (snd (fetchPages netK1 PartOne 20 initialApiUrl 0 (startOfRun t0' wK)))
                       (snd (fetchPages netK1 PartTwo 20 C (snd p1)
                          (snd (fetchPages netK1 PartOne 20 initialApiUrl 0
                                  (startOfRun t0' wK)))))
                  ++ tail)) = Some C).
    { intro tail. rewrite !fetchesOf_skip by reflexivity.
      rewrite !fetchesOf_app, A2. cbn [app].
      destruct (fetchesOf PartTwo (newEvents _ (snd (fetchPages netK1 PartTwo 20 C _ _))));
        [discriminate | exact B5]. }
    destruct HB as [(e & HBt & Hr1 & Hev) | (p2 & HBn & Hr1 & Hev)].
    + split; [eexists; exact Hev|]. left. rewrite Hev.
      specialize (Hhd []). now rewrite !app_nil_r in Hhd.
    + split; [eexists; exact Hev|]. left. rewrite Hev. apply Hhd.
Qed.


End Resumption.

(** C2 (as stated, refuted).  Three runs K that finalise with a link that
    is not null, each followed by a run K+1 whose part two does not start
    there.  (1) The twenty-first answer carries [next = ""]: run K stores the
    empty string, run K+1 finds it falsy and starts part two at the link
    part one ended on.  (2) Run K stores cursor-40 and the first fetch of
    run K+1 faults: the exception ends run K+1 before part two.  (3) The
    ledger holds a run started at instant 5000 with link cursor-40; run K
    starts at instant 1000 and stores cursor-60, but the latest run by
    [started_at] is still the one of instant 5000, so run K+1 starts part
    two at cursor-40. *)
Lemma stored_link_is_not_always_resumed :
  (fst (syncInPostsFromPatreon emptyLinkOnce 1000 1500 freshWorld) = Normal tt /\
   map last_next_link
       (patreon_post_runs (snd (syncInPostsFromPatreon emptyLinkOnce 1000 1500 freshWorld)))
     = [Some ""] /\
   hd_error
     (fetchesOf PartTwo
        (newEvents
           (snd (syncInPostsFromPatreon emptyLinkOnce 1000 1500 freshWorld))
           (snd (syncInPostsFromPatreon emptyLinkOnce 2000 2500
                   (snd (syncInPostsFromPatreon emptyLinkOnce 1000 1500 freshWorld))))))
     = Some initialApiUrl) /\
  (map last_next_link
       (patreon_post_runs
          (snd (syncInPostsFromPatreon (faultFrom 40 (demoFeed 61)) 1000 1500 freshWorld)))
     = [Some "cursor-40"] /\
   fetchesOf PartTwo
     (newEvents
        (snd (syncInPostsFromPatreon (faultFrom 40 (demoFeed 61)) 1000 1500 freshWorld))
        (snd (syncInPostsFromPatreon (faultFrom 40 (demoFeed 61)) 2000 2500
                (snd (syncInPostsFromPatreon (faultFrom 40 (demoFeed 61)) 1000 1500
                        freshWorld)))))
     = []) /\
  (map (fun r => (started_at r, last_next_link r))
       (patreon_post_runs
          (afterRuns (feedNetwork (demoFeed 81)) [(5000, 5500); (1000, 1500)] freshWorld))
     = [(5000, Some "cursor-40"); (1000, Some "cursor-60")] /\
   hd_error
     (fetchesOf PartTwo
        (newEvents
           (afterRuns (feedNetwork (demoFeed 81)) [(5000, 5500); (1000, 1500)] freshWorld)
           (afterRuns (feedNetwork (demoFeed 81)) [(5000, 5500); (1000, 1500); (2000, 2500)]
                      freshWorld)))
     = Some "cursor-40").
Proof. repeat split; vm_compute; reflexivity. Qed.

(** C2 (amended). For every run, whatever the store and the network: the
    previous run's link is read before any write of the run (the first
    event of a run is the select of the last run, its insert into the
    ledger the second).  And if run K, started no earlier than every run
    in the ledger, finalises with a link C that is neither null nor the
    empty string, then part two of run K+1 issues its first fetch at
    exactly C, unless a fault in part one ended run K+1 before part two. *)
Theorem partTwo_resumes_at_stored_link :
  (forall (net : Network) (t0 t1 : Z) (w : World),
      exists rest,
        newEvents w (snd (syncInPostsFromPatreon net t0 t1 w))
        = EvSelectLastRun :: EvInsertRun t0 :: rest) /\
  (forall (netK netK1 : Network) (t0 t1 t0' t1' : Z) (w : World) (C : string)
          (rows : list StoredPreviousRun) (d : option Q) (n : option nat),
      Forall (fun r => started_at r <= t0) (patreon_post_runs w) ->
      let rK := syncInPostsFromPatreon netK t0 t1 w in
      patreon_post_runs (snd rK) = rows ++ [mkRun t0 d n (Some C)] ->
      C <> "" ->
      let rK1 := syncInPostsFromPatreon netK1 t0' t1' (snd rK) in
      let evs := newEvents (snd rK) (snd rK1) in
      fst rK = Normal tt /\
      (hd_error (fetchesOf PartTwo evs) = Some C
       \/ (fetchesOf PartTwo evs = [] /\ fst rK1 = Thrown NetworkFault /\
           exists pre k u, evs = pre ++ [EvFetch PartOne k u] /\ netK1 k u = None))).
Proof.
  split.
  - apply run_reads_before_writing.
  - intros netK netK1 t0 t1 t0' t1' w C rows d n Hclock. cbv zeta. intros Hrow HC.
    destruct (run_resumes_previous_link netK netK1 t0 t1 t0' t1' w C rows d n
                                        Hclock Hrow HC) as (H1 & _ & H3).
    split; assumption.
Qed.

(* ================================================================== *)
(** * Coverage of a simulated feed *)

Section Coverage.

Variable pages : list (string * list PatreonPostData).
Hypothesis feed_ok : WellFormedFeed pages.

Let net : Network := feedNetwork pages.

Lemma simFeed_at (pre post : list (string * list PatreonPostData))
      (u : string) (d : list PatreonPostData) :
  ~ In u (map fst pre) ->
  simFeed (pre ++ (u, d) :: post) u =
  Some (mkResponse d (option_map fst (hd_error post))).
Proof.
  induction pre as [|[u0 d0] pre IH]; intro Hnot; simpl.
  - now rewrite String.eqb_refl.
  - simpl in Hnot. destruct (String.eqb_spec u0 u) as [E|E].
    + exfalso. apply Hnot. now left.
    + apply IH. intro H. apply Hnot. now right.
Qed.

Lemma feed_lookup (pre post : list (string * list PatreonPostData))
      (u : string) (d : list PatreonPostData) (k : nat) :
  pages = pre ++ (u, d) :: post ->
  net k u = Some (mkResponse d (option_map fst (hd_error post))).
Proof.
  intro Hp. unfold net, feedNetwork. rewrite Hp. apply simFeed_at.
  destruct feed_ok as (_ & Hnd & _). rewrite Hp, map_app in Hnd. simpl in Hnd.
  apply NoDup_remove_2 in Hnd. intro H. apply Hnd. apply in_app_iff. now left.
Qed.

Lemma feed_truthy (pre post : list (string * list PatreonPostData))
      (u : string) (d : list PatreonPostData) :
  pages = pre ++ (u, d) :: post -> truthy (Some u) = true.
Proof.
  intro Hp. destruct feed_ok as (_ & _ & Ht). rewrite Forall_forall in Ht.
  apply Ht. rewrite Hp, map_app. apply in_app_iff. right. now left.
Qed.

Lemma upsertRows_app (a b tbl : list PostRow) :
  upsertRows (a ++ b) tbl = upsertRows b (upsertRows a tbl).
Proof. unfold upsertRows. apply fold_left_app. Qed.

(** A loop that starts on a page of the feed walks the feed from there:
    it upserts the next [b] pages and ends on the link to the page after
    them. *)
Lemma fetchPages_feed (ph : Phase) (b : nat) :
  forall (pre post : list (string * list PatreonPostData)) (u : string)
         (n : nat) (w : World),
    pages = pre ++ post ->
    option_map fst (hd_error post) = Some u ->
    let r := fetchPages net ph b u n w in
    fst r = Normal (option_map fst (hd_error (skipn b post)),
                    (n + List.length (feedPosts (firstn b post)))%nat) /\
    patreon_posts (snd r) =
      upsertRows (map rowOfPost (feedPosts (firstn b post))) (patreon_posts w) /\
    patreon_post_runs (snd r) = patreon_post_runs w.
Proof.
  induction b as [|b IH]; intros pre post u n w Hp Hu; cbv zeta.
  - cbn [fetchPages]. unfold ret. cbn [fst snd skipn firstn].
    unfold feedPosts. cbn [map List.concat List.length upsertRows fold_left].
    rewrite Hu, Nat.add_0_r. auto.
  - destruct post as [|[u0 d] post]; [discriminate|].
    cbn [hd_error option_map fst] in Hu. inversion Hu; subst u0.
    rewrite fetchPages_step.
    rewrite (feed_lookup pre post u d (subrequests w) Hp).
    cbn [links_next data firstn skipn].
    assert (Hfp : feedPosts ((u, d) :: firstn b post) = d ++ feedPosts (firstn b post))
      by reflexivity.
    destruct post as [|[u1 d1] post'].
    + cbn [hd_error option_map]. cbv zeta. cbn [fst snd].
      rewrite firstn_nil, skipn_nil. unfold feedPosts.
      cbn [map List.concat hd_error option_map]. rewrite app_nil_r.
      unfold afterPage. cbn [patreon_posts patreon_post_runs data]. auto.
    + cbn [hd_error option_map fst]. cbv zeta.
      assert (Hp' : pages = (pre ++ [(u, d)]) ++ (u1, d1) :: post')
        by (rewrite <- app_assoc; exact Hp).
      rewrite (feed_truthy _ _ _ _ Hp').
      destruct (IH (pre ++ [(u, d)]) ((u1, d1) :: post') u1
                   (n + List.length d)%nat
                   (afterPage ph u (mkResponse d (Some u1)) n w) Hp' eq_refl)
        as (H1 & H2 & H3).
      cbn [data] in *. rewrite H1, H2, H3. rewrite Hfp.
      rewrite length_app, map_app, upsertRows_app, Nat.add_assoc.
      unfold afterPage. cbn [patreon_posts patreon_post_runs data]. auto.
Qed.

Lemma cursorAt_split (m : nat) (u : string) :
  cursorAt pages m = Some u ->
  exists d post, skipn m pages = (u, d) :: post /\
                 pages = firstn m pages ++ (u, d) :: post.
Proof.
  unfold cursorAt. intro H.
  destruct (skipn m pages) as [|[u0 d] post] eqn:E; [discriminate|].
  simpl in H. inversion H; subst u0. exists d, post. split; [reflexivity|].
  now rewrite <- E, firstn_skipn.
Qed.

Lemma cursorAt_advance (m : nat) :
  option_map fst (hd_error (skipn 20 (skipn m pages))) = cursorAt pages (m + 20).
Proof. unfold cursorAt. now rewrite skipn_skipn, Nat.add_comm. Qed.

Lemma in_upserted (p : PatreonPostData) (ps : list PatreonPostData)
      (tbl : list PostRow) :
  In p ps -> In (post_id p) (postIds (upsertRows (map rowOfPost ps) tbl)).
Proof.
  intro H. apply in_postIds_upsertRows. right. rewrite map_map.
  apply in_map_iff. exists p. auto.
Qed.

Lemma in_kept (i : string) (ps : list PatreonPostData) (tbl : list PostRow) :
  In i (postIds tbl) -> In i (postIds (upsertRows (map rowOfPost ps) tbl)).
Proof. intro H. apply in_postIds_upsertRows. now left. Qed.

(** One run over the simulated feed.  [m] is the position part two starts
    from: 20 when the last run left no usable link, and the position of
    that link otherwise. *)
Lemma sync_feed (now0 now1 : Z) (w : World) (m : nat) :
  (truthy (linkOf (latestRun (patreon_post_runs w))) = false /\ m = 20%nat)
  \/ (truthy (linkOf (latestRun (patreon_post_runs w))) = true /\
      linkOf (latestRun (patreon_post_runs w)) = cursorAt pages m) ->
  let r := syncInPostsFromPatreon net now0 now1 w in
  fst r = Normal tt /\
  (exists n,
      patreon_post_runs (snd r) =
      map (updateRun now0 (elapsedSeconds now0 now1) n (cursorAt pages (m + 20)))
          (patreon_post_runs w)
      ++ [mkRun now0 (Some (elapsedSeconds now0 now1)) (Some n)
                (cursorAt pages (m + 20))]) /\
  incl (postIds (patreon_posts w)) (postIds (patreon_posts (snd r))) /\
  (forall p, In p (feedPosts (firstn 20 pages)) ->
             In (post_id p) (postIds (patreon_posts (snd r)))) /\
  (forall p, In p (feedPosts (firstn 20 (skipn m pages))) ->
             In (post_id p) (postIds (patreon_posts (snd r)))).
Proof.
  intro Hlink. cbv zeta. rewrite sync_unfold.
  destruct feed_ok as (Hfirst & _ & _).
  destruct (fetchPages_feed PartOne 20 [] pages initialApiUrl 0 (startOfRun now0 w)
                            eq_refl Hfirst) as (A1 & A2 & A3).
  fold net.
  destruct (fetchPages net PartOne 20 initialApiUrl 0 (startOfRun now0 w))
    as [cA wA]. cbn [fst snd] in A1, A2, A3. subst cA. cbv zeta. cbn [fst snd].
  change (patreon_posts (startOfRun now0 w)) with (patreon_posts w) in A2.
  change (patreon_post_runs (startOfRun now0 w))
    with (patreon_post_runs w ++ [mkRun now0 None None None]) in A3.
  assert (Hstart : (if truthy (linkOf (latestRun (patreon_post_runs w)))
                    then linkOf (latestRun (patreon_post_runs w))
                    else option_map fst (hd_error (skipn 20 pages)))
                   = cursorAt pages m).
  { destruct Hlink as [[Hf ->] | [Ht Hl]].
    - rewrite Hf. reflexivity.
    - rewrite Ht. exact Hl. }
  rewrite Hstart.
  destruct (cursorAt pages m) as [u|] eqn:Hcur.
  - destruct (cursorAt_split m u Hcur) as (d & post & Hskip & Hpages).
    rewrite (feed_truthy _ _ _ _ Hpages).
    assert (Hp2 : pages = firstn m pages ++ skipn m pages)
      by (now rewrite firstn_skipn).
    assert (Hu2 : option_map fst (hd_error (skipn m pages)) = Some u)
      by exact Hcur.
    destruct (fetchPages_feed PartTwo 20 (firstn m pages) (skipn m pages) u
                (0 + List.length (feedPosts (firstn 20 pages)))%nat wA Hp2 Hu2)
      as (B1 & B2 & B3).
    fold net in B1, B2, B3.
    destruct (fetchPages net PartTwo 20 u _ wA) as [cB wB].
    cbn [fst snd] in B1, B2, B3. subst cB. cbn [fst snd].
    rewrite A3 in B3.
    rewrite (storeRunEnd_own_row _ _ _ _ _ _ B3). cbn [fst snd patreon_posts patreon_post_runs].
    rewrite cursorAt_advance, B2, A2.
    split; [reflexivity|]. split; [eexists; reflexivity|].
    split; [|split].
    + intros i Hi. now apply in_kept, in_kept.
    + intros p Hp. now apply in_kept, in_upserted.
    + intros p Hp. now apply in_upserted.
  - assert (Hnone : cursorAt pages (m + 20) = None).
    { rewrite <- cursorAt_advance. unfold cursorAt in Hcur.
      destruct (skipn m pages) as [|x l]; [|destruct x; discriminate].
      now rewrite skipn_nil. }
    assert (Hempty : skipn m pages = []).
    { unfold cursorAt in Hcur.
      destruct (skipn m pages) as [|x l]; [reflexivity|discriminate]. }
    rewrite (storeRunEnd_own_row _ _ _ _ _ _ A3).
    cbn [fst snd patreon_posts patreon_post_runs]. rewrite Hnone, A2, Hempty.
    split; [reflexivity|]. split; [eexists; reflexivity|].
    split; [|split].
    + intros i Hi. now apply in_kept.
    + intros p Hp. now apply in_upserted.
    + intros p Hp. rewrite firstn_nil in Hp. destruct Hp.
Qed.

Lemma firstn_plus {A} (m k : nat) (l : list A) :
  firstn (m + k) l = firstn m l ++ firstn k (skipn m l).
Proof.
  revert l. induction m as [|m IH]; intro l; [reflexivity|].
  destruct l as [|a l]; simpl.
  - now rewrite firstn_nil.
  - now rewrite IH.
Qed.

Lemma feedPosts_app (a b : list (string * list PatreonPostData)) :
  feedPosts (a ++ b) = feedPosts a ++ feedPosts b.
Proof. unfold feedPosts. now rewrite map_app, concat_app. Qed.

Lemma cursorAt_inside (m : nat) :
  (m < List.length pages)%nat ->
  exists u, cursorAt pages m = Some u /\ truthy (Some u) = true.
Proof.
  intro Hm. unfold cursorAt.
  destruct (skipn m pages) as [|[u d] post] eqn:E.
  - exfalso. assert (H : List.length (skipn m pages) = 0%nat) by now rewrite E.
    rewrite length_skipn in H. lia.
  - exists u. split; [reflexivity|].
    apply (feed_truthy (firstn m pages) post u d).
    now rewrite <- E, firstn_skipn.
Qed.

Lemma cursorAt_beyond (m : nat) :
  (List.length pages <= m)%nat -> cursorAt pages m = None.
Proof. intro Hm. unfold cursorAt. now rewrite skipn_all2. Qed.

Lemma ledger_after_run (now0 : Z) (d : Q) (n : nat) (link : option string)
      (old : list StoredPreviousRun) :
  Forall (fun r => started_at r <= now0) old ->
  let runs := map (updateRun now0 d n link) old ++ [mkRun now0 (Some d) (Some n) link] in
  Forall (fun r => started_at r <= now0) runs /\
  linkOf (latestRun runs) = link.
Proof.
  intro H. cbv zeta. split.
  - apply Forall_app. split.
    + rewrite Forall_map. eapply Forall_impl; [|exact H].
      intros r Hr. unfold updateRun.
      destruct (started_at r =? now0); exact Hr.
    + constructor; [simpl; lia | constructor].
  - destruct (latestRun_after_update now0 d n link old H) as (r & Hr & _ & Hl).
    rewrite Hr. exact Hl.
Qed.

(** The run that starts the dive. *)
Lemma dive_first_run (w : World) (t : Z * Z) :
  patreon_post_runs w = [] ->
  DiveInvariant pages 1 (fst t) (afterRun net w t).
Proof.
  intro Hnone. unfold afterRun.
  destruct (sync_feed (fst t) (snd t) w 20) as (_ & (n & Hruns) & _ & Hc1 & Hc2).
  { left. rewrite Hnone. auto. }
  rewrite Hnone in Hruns. cbn [map app] in Hruns.
  unfold DiveInvariant. change (20 * (1 + 1))%nat with (20 + 20)%nat.
  rewrite Hruns. split; [|split; [reflexivity|split]].
  - constructor; [simpl; lia | constructor].
  - exists [], (Some (elapsedSeconds (fst t) (snd t))), (Some n). reflexivity.
  - intros p Hp. rewrite firstn_plus, feedPosts_app in Hp.
    apply in_app_iff in Hp. destruct Hp; auto.
Qed.

(** A later run, while the dive has not yet reached the end of the feed. *)
Lemma dive_next_run (j : nat) (T : Z) (w : World) (t : Z * Z) :
  DiveInvariant pages j T w ->
  T <= fst t ->
  (20 * (j + 1) < List.length pages)%nat ->
  DiveInvariant pages (j + 1) (fst t) (afterRun net w t).
Proof.
  intros (Hle & Hlink & _ & Hcov) HT Hin. unfold afterRun.
  destruct (cursorAt_inside _ Hin) as (u & Hu & Htru).
  destruct (sync_feed (fst t) (snd t) w (20 * (j + 1)))
    as (_ & (n & Hruns) & Hkeep & _ & Hc2).
  { right. rewrite Hlink, Hu. auto. }
  assert (Hle' : Forall (fun r => started_at r <= fst t) (patreon_post_runs w)).
  { eapply Forall_impl; [|exact Hle]. intros r Hr. simpl in Hr. lia. }
  destruct (ledger_after_run (fst t) (elapsedSeconds (fst t) (snd t)) n
              (cursorAt pages (20 * (j + 1) + 20)) _ Hle') as [L1 L2].
  cbv zeta in L1, L2. rewrite <- Hruns in L1, L2.
  unfold DiveInvariant.
  replace (20 * (j + 1 + 1))%nat with (20 * (j + 1) + 20)%nat by lia.
  split; [exact L1|]. split; [exact L2|]. split.
  - rewrite Hruns. eexists _, _, _. reflexivity.
  - intros p Hp. rewrite firstn_plus, feedPosts_app in Hp.
    apply in_app_iff in Hp. destruct Hp as [Hp|Hp]; [|auto].
    apply Hkeep. auto.
Qed.

Lemma dive_progress (ts : list (Z * Z)) :
  forall (j : nat) (T : Z) (w : World),
    DiveInvariant pages j T w ->
    Sorted Z.le (T :: map fst ts) ->
    (ts = [] \/ 20 * (j + List.length ts) < List.length pages)%nat ->
    exists T', DiveInvariant pages (j + List.length ts) T' (afterRuns net ts w).
Proof.
  induction ts as [|t ts IH]; intros j T w Hinv Hsorted Hbound.
  - exists T. simpl. now rewrite Nat.add_0_r.
  - destruct Hbound as [Hnil|Hbound]; [discriminate|].
    cbn [List.length] in Hbound.
    apply Sorted_inv in Hsorted. destruct Hsorted as [Hsorted Hhd].
    cbn [map] in Hsorted, Hhd. apply HdRel_inv in Hhd.
    assert (Hstep : DiveInvariant pages (j + 1) (fst t) (afterRun net w t)).
    { apply (dive_next_run j T); [exact Hinv | exact Hhd | lia]. }
    destruct (IH (j + 1)%nat (fst t) (afterRun net w t) Hstep Hsorted) as [T' HT'].
    { destruct ts; [now left | right]. cbn [List.length] in *. lia. }
    exists T'. cbn [List.length]. unfold afterRuns. cbn [fold_left].
    replace (j + S (List.length ts))%nat with (j + 1 + List.length ts)%nat by lia.
    exact HT'.
Qed.

Lemma Sorted_skipn {A} (R : A -> A -> Prop) (k : nat) (l : list A) :
  Sorted R l -> Sorted R (skipn k l).
Proof.
  revert l. induction k as [|k IH]; intros l H; [exact H|].
  destruct l as [|a l]; [exact H|].
  apply IH. now apply Sorted_inv in H.
Qed.

Lemma Sorted_firstn {A} (R : A -> A -> Prop) (k : nat) (l : list A) :
  Sorted R l -> Sorted R (firstn k l).
Proof.
  revert k. induction l as [|a l IH]; intros k H.
  - rewrite firstn_nil. constructor.
  - destruct k as [|k]; [constructor|].
    apply Sorted_inv in H. destruct H as [Hs Hhd]. cbn [firstn].
    constructor; [now apply IH|].
    destruct l as [|b l]; [rewrite firstn_nil; constructor|].
    destruct k as [|k]; [constructor|].
    cbn [firstn]. constructor. now apply HdRel_inv in Hhd.
Qed.

(** The first [j] runs, from an empty ledger, while the dive has not
    reached the end of the feed before the last of them. *)
Lemma dive_after_runs (w : World) (times : list (Z * Z)) (j : nat) :
  patreon_post_runs w = [] ->
  Sorted Z.le (map fst times) ->
  (1 <= j <= List.length times)%nat ->
  (j = 1 \/ 20 * j < List.length pages)%nat ->
  exists T, DiveInvariant pages j T (afterRuns net (firstn j times) w).
Proof.
  intros Hruns Hsorted Hj Hbound.
  destruct times as [|t ts]; [simpl in Hj; lia|].
  destruct j as [|j]; [lia|].
  cbn [firstn List.length] in *.
  pose proof (dive_first_run w t Hruns) as Hfirst.
  destruct (dive_progress (firstn j ts) 1%nat (fst t) _ Hfirst) as [T HT].
  - rewrite <- firstn_map.
    change (fst t :: firstn j (map fst ts))
      with (firstn (S j) (fst t :: map fst ts)).
    now apply Sorted_firstn.
  - rewrite length_firstn.
    destruct j as [|j]; [now left | right]. lia.
  - exists T. rewrite length_firstn in HT.
    replace (1 + Nat.min j (List.length ts))%nat with (S j) in HT by lia.
    exact HT.
Qed.

Lemma runsToCover_bounds (n : nat) :
  (1 <= runsToCover n)%nat /\
  (n <= 20 * (runsToCover n + 1))%nat /\
  (2 <= runsToCover n -> 20 * runsToCover n < n)%nat.
Proof.
  unfold runsToCover.
  pose proof (Nat.div_mod_eq (n + 19) 20) as Hdiv.
  pose proof (Nat.mod_upper_bound (n + 19) 20 ltac:(discriminate)) as Hmod.
  lia.
Qed.

End Coverage.

(** C1 (as stated, refuted). A feed of 61 pages, one post per page: after
    ceil(61/40) = 2 runs the post of the last page has not been upserted and
    the link stored by the second run is not null. *)
Lemma two_runs_do_not_cover_61_pages :
  ((61 + 39) / 40 = 2)%nat /\
  WellFormedFeed (demoFeed 61) /\
  nth_error (feedPosts (demoFeed 61)) 60 = Some (demoPost 60) /\
  lookupPost (post_id (demoPost 60))
             (patreon_posts (afterRuns (feedNetwork (demoFeed 61)) (demoTimes 2) freshWorld))
    = None /\
  map last_next_link
      (patreon_post_runs (afterRuns (feedNetwork (demoFeed 61)) (demoTimes 2) freshWorld))
    = [Some "cursor-40"; Some "cursor-60"].
Proof.
  split; [reflexivity|]. split.
  - split; [reflexivity|]. split.
    + apply distinct_NoDup. vm_compute. reflexivity.
    + apply Forall_forall. intros u Hu.
      apply in_map_iff in Hu. destruct Hu as ([u' d] & <- & Hin).
      apply in_map_iff in Hin. destruct Hin as (i & Hi & _).
      inversion Hi; subst. destruct i; reflexivity.
  - split; [vm_compute; reflexivity|]. split; vm_compute; reflexivity.
Qed.

(** C1 (amended). Over a simulated feed of N >= 1 pages that does not change
    between runs, starting from empty tables and with a clock that never
    runs backwards, k = max(1, ceil(N/20) - 1) runs are made.  After the
    first j of them (1 <= j <= k) the posts of pages 1 to 20 * (j + 1) have
    a row in the posts table and the link stored by run j, which is the
    link the next run resumes from, points to the page after them: the
    first run covers pages 1 to 40 and every later run moves the archive
    dive on by 20 pages only.  Before the last run that link is not null,
    so no fewer runs reach the end.  After all k runs every post of the
    feed has a row in the posts table, and the link stored by the final
    run is null. *)
Theorem archive_dive_covers_feed :
  forall (pages : list (string * list PatreonPostData)) (times : list (Z * Z))
         (w : World),
    WellFormedFeed pages ->
    patreon_posts w = [] ->
    patreon_post_runs w = [] ->
    Sorted Z.le (map fst times) ->
    List.length times = runsToCover (List.length pages) ->
    let w' := afterRuns (feedNetwork pages) times w in
    (forall j, (1 <= j <= List.length times)%nat ->
       let wj := afterRuns (feedNetwork pages) (firstn j times) w in
       (forall p, In p (feedPosts (firstn (20 * (j + 1)) pages)) ->
                  In (post_id p) (postIds (patreon_posts wj))) /\
       (exists rows T d n,
           patreon_post_runs wj =
           rows ++ [mkRun T d n (cursorAt pages (20 * (j + 1)))]) /\
       linkOf (latestRun (patreon_post_runs wj)) = cursorAt pages (20 * (j + 1)) /\
       ((j < List.length times)%nat ->
        exists u, cursorAt pages (20 * (j + 1)) = Some u /\ u <> "")) /\
    (forall p, In p (feedPosts pages) -> In (post_id p) (postIds (patreon_posts w'))) /\
    (exists rows T d n, patreon_post_runs w' = rows ++ [mkRun T d n None]) /\
    linkOf (latestRun (patreon_post_runs w')) = None.
Proof.
  intros pages times w Hfeed _ Hruns Hsorted Hlen. cbv zeta.
  destruct (runsToCover_bounds (List.length pages)) as (Hk1 & Hk2 & Hk3).
  rewrite <- Hlen in Hk1, Hk2, Hk3.
  assert (Hprefix : forall j, (1 <= j <= List.length times)%nat ->
            exists T, DiveInvariant pages j T
                        (afterRuns (feedNetwork pages) (firstn j times) w)).
  { intros j Hj. apply (dive_after_runs pages Hfeed w times j Hruns Hsorted Hj).
    destruct (Nat.eq_dec j 1); [now left | right]. lia. }
  split.
  - intros j Hj. destruct (Hprefix j Hj) as [T (_ & Hlink & Hrow & Hcov)].
    split; [exact Hcov|]. split; [|split; [exact Hlink|]].
    + destruct Hrow as (rows & d & n & Hrow). now exists rows, T, d, n.
    + intro Hlt.
      destruct (cursorAt_inside pages Hfeed (20 * (j + 1))%nat) as (u & Hu & Htru); [lia|].
      exists u. split; [exact Hu|]. intros ->. discriminate.
  - destruct (Hprefix (List.length times) ltac:(lia))
      as [T (_ & Hlink & (rows & d & n & Hrow) & Hcov)].
    rewrite firstn_all in Hlink, Hrow, Hcov.
    assert (Hend : (List.length pages <= 20 * (List.length times + 1))%nat) by lia.
    rewrite (cursorAt_beyond pages _ Hend) in Hlink, Hrow.
    rewrite (firstn_all2 _ Hend) in Hcov.
    split; [exact Hcov|]. split; [|exact Hlink].
    exists rows, T, d, n. exact Hrow.
Qed.

(* ================================================================== *)
(** * Ordering and paging *)

Section Ordering.

Variables sortBy sortDirection : string.

Let R (a b : PostRow) : Prop := rowLeb sortBy sortDirection a b = true.

Lemma text_leb_spec (x y : string) :
  match String_as_OT.compare x y with Gt => false | _ => true end = true
  <-> x = y \/ String_as_OT.lt x y.
Proof.
  destruct (String_as_OT.compare_spec x y) as [E|L|L].
  - split; [intros _; left; exact E | reflexivity].
  - split; [intros _; right; exact L | reflexivity].
  - split; [discriminate|]. intros [E|L'].
    + rewrite E in L. exfalso. exact (StrictOrder_Irreflexive _ L).
    + exfalso. exact (StrictOrder_Irreflexive _ (StrictOrder_Transitive _ _ _ L L')).
Qed.

Lemma text_lt_total (x y : string) :
  x = y \/ String_as_OT.lt x y \/ String_as_OT.lt y x.
Proof.
  destruct (String_as_OT.compare_spec x y) as [E|L|L]; auto.
Qed.

Lemma sqlLeb_total (a b : SqlValue) : sqlLeb a b = false -> sqlLeb b a = true.
Proof.
  destruct a as [x|x], b as [y|y]; simpl; try congruence.
  - intro H. apply Z.leb_gt in H. apply Z.leb_le. lia.
  - intro H. apply text_leb_spec.
    destruct (text_lt_total x y) as [E|[L|L]]; auto.
    assert (Ht : match String_as_OT.compare x y with Gt => false | _ => true end = true)
      by (apply text_leb_spec; auto).
    congruence.
Qed.

Lemma sqlLeb_trans (a b c : SqlValue) :
  sqlLeb a b = true -> sqlLeb b c = true -> sqlLeb a c = true.
Proof.
  destruct a as [x|x], b as [y|y], c as [z|z]; simpl; try congruence.
  - intros H1 H2. apply Z.leb_le in H1, H2. apply Z.leb_le. lia.
  - rewrite !text_leb_spec. intros [E1|L1] [E2|L2].
    + left. congruence.
    + right. now rewrite E1.
    + right. now rewrite <- E2.
    + right. exact (StrictOrder_Transitive _ _ _ L1 L2).
Qed.

Lemma sqlLeb_antisym (a b : SqlValue) :
  sqlLeb a b = true -> sqlLeb b a = true -> a = b.
Proof.
  destruct a as [x|x], b as [y|y]; simpl; try congruence.
  - intros H1 H2. apply Z.leb_le in H1, H2. f_equal. lia.
  - rewrite !text_leb_spec. intros [E1|L1] [E2|L2]; try congruence.
    exfalso. exact (StrictOrder_Irreflexive _ (StrictOrder_Transitive _ _ _ L1 L2)).
Qed.

Lemma rowLeb_total (a b : PostRow) :
  rowLeb sortBy sortDirection a b = false -> rowLeb sortBy sortDirection b a = true.
Proof. unfold rowLeb. destruct (sortDirection =? "desc")%string; apply sqlLeb_total. Qed.

Lemma rowLeb_trans (a b c : PostRow) : R a b -> R b c -> R a c.
Proof.
  unfold R, rowLeb. destruct (sortDirection =? "desc")%string; intros H1 H2.
  - eapply sqlLeb_trans; eauto.
  - eapply sqlLeb_trans; eauto.
Qed.

Lemma rowLeb_antisym (a b : PostRow) :
  R a b -> R b a -> columnValue sortBy a = columnValue sortBy b.
Proof.
  unfold R, rowLeb. destruct (sortDirection =? "desc")%string; intros H1 H2.
  - now apply sqlLeb_antisym.
  - now apply sqlLeb_antisym.
Qed.

(** Insertion sort honours [ORDER BY]. *)
Lemma insertSorted_perm (x : PostRow) (l : list PostRow) :
  Permutation (x :: l) (insertSorted (rowLeb sortBy sortDirection) x l).
Proof.
  induction l as [|y l IH]; simpl; [reflexivity|].
  destruct (rowLeb sortBy sortDirection x y); [reflexivity|].
  rewrite perm_swap. now constructor.
Qed.

Lemma insertSorted_sorted (x : PostRow) (l : list PostRow) :
  Sorted R l -> Sorted R (insertSorted (rowLeb sortBy sortDirection) x l).
Proof.
  induction l as [|y l IH]; simpl; intro H.
  - repeat constructor.
  - destruct (rowLeb sortBy sortDirection x y) eqn:E.
    + constructor; [exact H | constructor; exact E].
    + apply Sorted_inv in H. destruct H as [Hs Hhd].
      constructor; [now apply IH|].
      destruct l as [|z l]; simpl.
      * constructor. now apply rowLeb_total.
      * destruct (rowLeb sortBy sortDirection x z).
        -- constructor. now apply rowLeb_total.
        -- constructor. now apply HdRel_inv in Hhd.
Qed.

Lemma insertionSort_lawful (l : list PostRow) :
  Permutation l (insertionSort (rowLeb sortBy sortDirection) l) /\
  Sorted R (insertionSort (rowLeb sortBy sortDirection) l).
Proof.
  induction l as [|x l [IHp IHs]]; simpl.
  - split; constructor.
  - split.
    + rewrite <- insertSorted_perm. now constructor.
    + now apply insertSorted_sorted.
Qed.






End Ordering.

Section Paging.


Lemma limitOffset_window {A} (limit offset : Z) (rows : list A) :
  0 <= limit ->
  limitOffset limit offset rows =
  firstn (Z.to_nat limit) (skipn (Z.to_nat offset) rows).
Proof.
  intro H. unfold limitOffset.
  destruct (limit <? 0) eqn:E; [apply Z.ltb_lt in E; lia | reflexivity].
Qed.









Variables sortBy sortDirection query : string.
Variable tbl : list PostRow.





End Paging.



(* ================================================================== *)
(** * The title search *)

Section Search.







End Search.



(* ================================================================== *)
(** * The theorems at concrete inputs *)

Lemma demoFeed_61_ok : WellFormedFeed (demoFeed 61).
Proof.
  split; [reflexivity|]. split.
  - apply distinct_NoDup. vm_compute. reflexivity.
  - apply Forall_forall. intros u Hu.
    apply in_map_iff in Hu. destruct Hu as ([u' d] & <- & Hin).
    apply in_map_iff in Hin. destruct Hin as (i & Hi & _).
    inversion Hi; subst. destruct i; reflexivity.
Qed.

(** Sixty-one pages take three runs: after the second the posts of pages
    1 to 60 are stored and the link points to page 61; after the third
    every post is stored and the link is null. *)
Lemma archive_dive_covers_feed_witness :
  WellFormedFeed (demoFeed 61) /\
  Sorted Z.le (map fst (demoTimes 3)) /\
  List.length (demoTimes 3) = runsToCover (List.length (demoFeed 61)) /\
  (forall p, In p (feedPosts (firstn 60 (demoFeed 61))) ->
             In (post_id p)
                (postIds (patreon_posts
                   (afterRuns (feedNetwork (demoFeed 61)) (firstn 2 (demoTimes 3))
                              freshWorld)))) /\
  linkOf (latestRun (patreon_post_runs
            (afterRuns (feedNetwork (demoFeed 61)) (firstn 2 (demoTimes 3)) freshWorld)))
    = Some "cursor-60" /\
  (forall p, In p (feedPosts (demoFeed 61)) ->
             In (post_id p)
                (postIds (patreon_posts
                   (afterRuns (feedNetwork (demoFeed 61)) (demoTimes 3) freshWorld)))) /\
  linkOf (latestRun (patreon_post_runs
            (afterRuns (feedNetwork (demoFeed 61)) (demoTimes 3) freshWorld))) = None.
Proof.
  assert (Hsorted : Sorted Z.le (map fst (demoTimes 3))).
  { repeat constructor; vm_compute; discriminate. }
  split; [exact demoFeed_61_ok|]. split; [exact Hsorted|]. split; [reflexivity|].
  destruct (archive_dive_covers_feed (demoFeed 61) (demoTimes 3) freshWorld
              demoFeed_61_ok eq_refl eq_refl Hsorted eq_refl)
    as (Hj & Hall & _ & Hnone).
  destruct (Hj 2%nat ltac:(simpl; lia)) as (Hcov & _ & Hlink & _).
  split; [exact Hcov|]. split; [exact Hlink|]. split; [exact Hall | exact Hnone].
Defined.

(** The first run over 61 pages stops at page 41; the second resumes there. *)
Lemma partTwo_resumes_at_stored_link_witness :
  (exists rest,
      newEvents
        (snd (syncInPostsFromPatreon (feedNetwork (demoFeed 61)) 1000 1500 freshWorld))
        (snd (syncInPostsFromPatreon (feedNetwork (demoFeed 61)) 2000 2500
                (snd (syncInPostsFromPatreon (feedNetwork (demoFeed 61)) 1000 1500
                        freshWorld))))
      = EvSelectLastRun :: EvInsertRun 2000 :: rest) /\
  patreon_post_runs
    (snd (syncInPostsFromPatreon (feedNetwork (demoFeed 61)) 1000 1500 freshWorld))
  = [] ++ [mkRun 1000 (Some (elapsedSeconds 1000 1500)) (Some 40%nat) (Some "cursor-40")] /\
  hd_error
    (fetchesOf PartTwo
       (newEvents
          (snd (syncInPostsFromPatreon (feedNetwork (demoFeed 61)) 1000 1500 freshWorld))
          (snd (syncInPostsFromPatreon (feedNetwork (demoFeed 61)) 2000 2500
                  (snd (syncInPostsFromPatreon (feedNetwork (demoFeed 61)) 1000 1500
                          freshWorld))))))
  = Some "cursor-40".
Proof.
  assert (Hrow : patreon_post_runs
            (snd (syncInPostsFromPatreon (feedNetwork (demoFeed 61)) 1000 1500 freshWorld))
          = [] ++ [mkRun 1000 (Some (elapsedSeconds 1000 1500)) (Some 40%nat)
                         (Some "cursor-40")])
    by (vm_compute; reflexivity).
  split; [apply (proj1 partTwo_resumes_at_stored_link)|].
  split; [exact Hrow|].
  destruct (proj2 partTwo_resumes_at_stored_link
              (feedNetwork (demoFeed 61)) (feedNetwork (demoFeed 61))
              1000 1500 2000 2500 freshWorld "cursor-40" []
              (Some (elapsedSeconds 1000 1500)) (Some 40%nat)
              (Forall_nil _) Hrow ltac:(discriminate))
    as (_ & [H | (_ & Hthrown & _)]).
  - exact H.
  - vm_compute in Hthrown. discriminate.
Defined.

Lemma sync_fault_aborts_run_keeps_upserts_witness :
  faulted faultOnSecond
          (newEvents freshWorld
             (snd (syncInPostsFromPatreon faultOnSecond 1000 1500 freshWorld))) = true /\
  fst (syncInPostsFromPatreon faultOnSecond 1000 1500 freshWorld) = Thrown NetworkFault /\
  patreon_post_runs (snd (syncInPostsFromPatreon faultOnSecond 1000 1500 freshWorld))
    = patreon_post_runs freshWorld ++ [mkRun 1000 None None None].
Proof.
  assert (Hf : faulted faultOnSecond
                 (newEvents freshWorld
                    (snd (syncInPostsFromPatreon faultOnSecond 1000 1500 freshWorld)))
               = true) by (vm_compute; reflexivity).
  split; [exact Hf|].
  destruct (sync_fault_aborts_run_keeps_upserts faultOnSecond 1000 1500 freshWorld Hf)
    as (H1 & _ & H3 & _).
  split; [exact H1 | exact H3].
Defined.

(** Three stored posts; the feed reports post 2, post 8, and post 2 again
    after an edit: the row under id 2 holds the edited values. *)
Lemma upsert_idempotent_last_write_wins_witness :
  NoDup (postIds (patreon_posts (withPosts episodeRows))) /\
  lookupPost "2" episodeRows
  = Some (mkRow "2" "Special" "2024-01-02T00:00:00.000Z" 8 3 ""
                "https://www.patreon.com/posts/2") /\
  (forall r,
      In r (patreon_posts
              (snd (upsertJsonPosts
                      (mkResponse ([demoPost 2; demoPost 8] ++ editedPost 2 :: []) None)
                      (withPosts episodeRows))))
      /\ id r = "2" <->
      r = mkRow "2" "Post 2 (edited)" "2024-02-01T00:00:00.000Z" 3 2 "teaser"
                "https://www.patreon.com/posts/2").
Proof.
  assert (Hnd : NoDup (postIds (patreon_posts (withPosts episodeRows))))
    by (apply distinct_NoDup; vm_compute; reflexivity).
  split; [exact Hnd|]. split; [reflexivity|].
  destruct upsert_idempotent_last_write_wins as [_ H].
  destruct (H ([demoPost 2; demoPost 8] ++ editedPost 2 :: []) (withPosts episodeRows) Hnd)
    as (_ & _ & _ & _ & Hlast).
  apply (Hlast [demoPost 2; demoPost 8] (editedPost 2) [] eq_refl).
  simpl. tauto.
Defined.

Lemma sync_fetches_at_most_forty_witness :
  (List.length
     (filter isFetch
        (newEvents freshWorld
           (snd (syncInPostsFromPatreon (feedNetwork (demoFeed 61)) 1000 1500 freshWorld))))
   <= 40)%nat.
Proof.
  destruct (sync_fetches_at_most_forty (feedNetwork (demoFeed 61)) 1000 1500 freshWorld)
    as [(_ & _ & _ & H & _) _].
  exact H.
Defined.

Lemma getPosts_invalid_sort_returns_empty_witness :
  (~ In "not_a_column" ["comment_count"; "like_count"; "published_at"] \/
   ~ In "desc" ["asc"; "desc"]) /\
  fst (getPosts stableEngine 1 "not_a_column" "desc" "" 10 (withPosts episodeRows))
    = Normal [].
Proof.
  assert (H : ~ In "not_a_column" ["comment_count"; "like_count"; "published_at"] \/
              ~ In "desc" ["asc"; "desc"]).
  { left. simpl. intros [H|[H|[H|[]]]]; discriminate. }
  split; [exact H|].
  exact (proj1 (getPosts_invalid_sort_returns_empty
                  stableEngine 1 "not_a_column" "desc" "" 10 (withPosts episodeRows) H)).
Defined.



Lemma storeRunEnd_zero_rows_only_reported_witness :
  rowsMatching 1000 (patreon_post_runs (withPosts episodeRows)) = 0%nat /\
  patreon_posts (snd (storeRunEnd 1000 (elapsedSeconds 1000 1500) 3 None
                                  (withPosts episodeRows)))
    = episodeRows.
Proof.
  split; [reflexivity|].
  destruct (storeRunEnd_zero_rows_only_reported
              1000 (elapsedSeconds 1000 1500) 3 None (withPosts episodeRows) eq_refl)
    as (_ & H & _).
  exact H.
Defined.


(** The search example of the specification: of "Episode 1", "Special" and
    "Episode 2", a search for "Episode" returns the two episodes. *)
Example getPosts_search_Episode :
  fst (getPosts stableEngine 1 "published_at" "asc" "Episode" 10 (withPosts episodeRows))
  = Normal [mkStoredPost "Episode 1" "2024-01-01T00:00:00.000Z" 4 9
                         "https://www.patreon.com/posts/1";
            mkStoredPost "Episode 2" "2024-01-03T00:00:00.000Z" 6 5
                         "https://www.patreon.com/posts/3"].
Proof. vm_compute. reflexivity. Qed.

(** The paging example: 25 rows, pages of 10, sorted by comment count. *)
Example getPosts_pages_of_fixture25 :
  option_map (@List.length StoredPost)
    (match fst (getPosts stableEngine 1 "comment_count" "desc" "" 10 (withPosts fixture25))
     with Normal l => Some l | Thrown _ => None end) = Some 10%nat /\
  option_map (@List.length StoredPost)
    (match fst (getPosts stableEngine 2 "comment_count" "desc" "" 10 (withPosts fixture25))
     with Normal l => Some l | Thrown _ => None end) = Some 10%nat /\
  option_map (@List.length StoredPost)
    (match fst (getPosts stableEngine 3 "comment_count" "desc" "" 10 (withPosts fixture25))
     with Normal l => Some l | Thrown _ => None end) = Some 5%nat /\
  fst (getPosts stableEngine 4 "comment_count" "desc" "" 10 (withPosts fixture25))
    = Normal [].
Proof. repeat split; vm_compute; reflexivity. Qed.

(** For the first two thousand pages of twenty the offset computed in
    doubles is the integer (page - 1) * 20, and it binds. *)
Example offsets_of_the_first_pages_are_exact :
  forallb (fun p => match boundInteger (offsetOf (numberOfZ p) 20) with
                    | Some o => o =? (p - 1) * 20
                    | None => false
                    end)
          (map Z.of_nat (seq 1 2000)) = true.
Proof. vm_compute. reflexivity. Qed.

(** Two posts with five comments each, in pages of one: the post inserted
    first is page 1, the other page 2, in either direction. *)
Example getPosts_ties_in_insertion_order :
  map id (pageRows stableEngine "comment_count" "desc" "" 1 tiedRows 1) = ["a"] /\
  map id (pageRows stableEngine "comment_count" "desc" "" 1 tiedRows 2) = ["b"] /\
  map id (pageRows stableEngine "comment_count" "asc" "" 1 tiedRows 1) = ["a"] /\
  map id (pageRows stableEngine "comment_count" "asc" "" 1 tiedRows 2) = ["b"].
Proof. repeat split; vm_compute; reflexivity. Qed.

(* ================================================================== *)
(** * The run ledger as the readers see it *)

Section Ledger.

Lemma latestRun_max (runs : list StoredPreviousRun) :
  match latestRun runs with
  | None => runs = []
  | Some row =>
      In row runs /\ Forall (fun r => started_at r <= started_at row) runs
  end.
Proof.
  induction runs as [|a runs IH]; [reflexivity|].
  cbn [latestRun]. destruct (latestRun runs) as [row|].
  - destruct IH as [Hin Hall].
    destruct (started_at a <? started_at row) eqn:E.
    + apply Z.ltb_lt in E. split; [now right|].
      constructor; [lia | exact Hall].
    + apply Z.ltb_ge in E. split; [now left|].
      constructor; [lia|].
      eapply Forall_impl; [|exact Hall]. intros r Hr. simpl in Hr. lia.
  - subst runs. split; [now left|]. constructor; [lia | constructor].
Qed.

Lemma latestRun_split (runs : list StoredPreviousRun) :
  runs <> [] ->
  exists row pre post,
    latestRun runs = Some row /\
    runs = pre ++ row :: post /\
    Forall (fun r => started_at r < started_at row) pre /\
    Forall (fun r => started_at r <= started_at row) post.
Proof.
  induction runs as [|a runs IH]; [congruence|]. intros _.
  cbn [latestRun]. destruct runs as [|b runs].
  - exists a, [], []. repeat split; constructor.
  - destruct IH as (row & pre & post & Hl & Hsplit & Hpre & Hpost); [discriminate|].
    rewrite Hl. destruct (started_at a <? started_at row) eqn:E.
    + apply Z.ltb_lt in E. exists row, (a :: pre), post.
      split; [reflexivity|]. split; [now rewrite Hsplit|].
      split; [constructor; assumption | exact Hpost].
    + apply Z.ltb_ge in E. exists a, [], (b :: runs).
      split; [reflexivity|]. split; [reflexivity|]. split; [constructor|].
      rewrite Hsplit. apply Forall_app. split.
      * eapply Forall_impl; [|exact Hpre]. intros r Hr. simpl in Hr. lia.
      * constructor; [exact E|].
        eapply Forall_impl; [|exact Hpost]. intros r Hr. simpl in Hr. lia.
Qed.

Lemma latestRun_after_update_row (t : Z) (d : Q) (n : nat) (link : option string)
      (old : list StoredPreviousRun) :
  Forall (fun r => started_at r <= t) old ->
  latestRun (map (updateRun t d n link) old ++ [mkRun t (Some d) (Some n) link])
  = Some (mkRun t (Some d) (Some n) link).
Proof.
  induction old as [|a old IH]; intro H; [reflexivity|].
  inversion H as [|? ? Ha Hold]; subst.
  cbn [map app latestRun]. rewrite (IH Hold). cbn [started_at].
  unfold updateRun. destruct (Z.eqb_spec (started_at a) t) as [E|E].
  - cbn [started_at]. rewrite E, Z.ltb_irrefl. reflexivity.
  - assert (Hlt : (started_at a <? t) = true) by (apply Z.ltb_lt; lia).
    now rewrite Hlt.
Qed.

Variable net : Network.

Lemma upsertsIn_app (a b : list Event) :
  upsertsIn (a ++ b) = (upsertsIn a + upsertsIn b)%nat.
Proof. unfold upsertsIn. now rewrite filter_app, length_app. Qed.

Lemma upsertsIn_pageEvents (ph : Phase) (k : nat) (apiUrl : string)
      (posts : PatreonApiResponse) (n : nat) :
  upsertsIn (pageEvents ph k apiUrl posts n) = List.length (data posts).
Proof.
  unfold upsertsIn, pageEvents. cbn [filter isUpsert].
  rewrite filter_app. cbn [filter isUpsert]. rewrite app_nil_r.
  induction (data posts) as [|p ps IH]; simpl; [reflexivity | now rewrite IH].
Qed.

(** A loop that returns hands back the count it was given plus the number of
    posts it upserted. *)
Lemma fetchPages_retrieved (ph : Phase) (b : nat) (apiUrl : string) (n : nat)
      (w : World) :
  let r := fetchPages net ph b apiUrl n w in
  match fst r with
  | Normal (_, m) => m = (n + upsertsIn (newEvents w (snd r)))%nat
  | Thrown _ => True
  end.
Proof.
  cbv zeta.
  apply (fetchPages_cases net ph (fun _ _ n w r =>
    match fst r with
    | Normal (_, m) => m = (n + upsertsIn (newEvents w (snd r)))%nat
    | Thrown _ => True
    end)).
  - intros u n0 w0. cbn [fst snd]. rewrite newEvents_refl. cbn. lia.
  - intros. exact I.
  - intros b0 u n0 w0 posts _ _. cbn [fst snd].
    now rewrite newEvents_afterPage, upsertsIn_pageEvents.
  - intros b0 u n0 w0 posts next _ _ _ n' w'. unfold n', w'.
    rewrite newEvents_after_page, upsertsIn_app, upsertsIn_pageEvents.
    destruct (fst (fetchPages net ph b0 next _ _)) as [[nx m]|e]; [|trivial].
    intro H. rewrite H. lia.
Qed.

Lemma lastFetchOf_app (ph : Phase) (a b : list Event) :
  lastFetchOf ph (a ++ b) =
  match lastFetchOf ph b with Some f => Some f | None => lastFetchOf ph a end.
Proof.
  induction a as [|e a IH]; cbn [app lastFetchOf].
  - now destruct (lastFetchOf ph b).
  - rewrite IH. now destruct (lastFetchOf ph b).
Qed.

Lemma lastFetchOf_none (ph : Phase) (evs : list Event) :
  fetchesOf ph evs = [] -> lastFetchOf ph evs = None.
Proof.
  induction evs as [|e evs IH]; [reflexivity|].
  change (e :: evs) with ([e] ++ evs). rewrite fetchesOf_app.
  intro H. apply app_eq_nil in H. destruct H as [He Hevs].
  cbn [app lastFetchOf]. rewrite (IH Hevs).
  destruct e; try reflexivity.
  cbn in He. destruct (phase_eqb ph ph0); [discriminate | reflexivity].
Qed.

Lemma lastFetchOf_pageEvents (ph : Phase) (k : nat) (apiUrl : string)
      (posts : PatreonApiResponse) (n : nat) :
  lastFetchOf ph (pageEvents ph k apiUrl posts n) = Some (k, apiUrl).
Proof.
  unfold pageEvents. cbn [lastFetchOf].
  rewrite lastFetchOf_none.
  - now rewrite phase_eqb_refl.
  - now rewrite fetchesOf_upserts.
Qed.

(** A loop that made at least one iteration and returned ends on the next
    link of the page it fetched last. *)
Lemma fetchPages_last (ph : Phase) (b : nat) (apiUrl : string) (n : nat) (w : World) :
  let r := fetchPages net ph b apiUrl n w in
  forall nx m,
    fst r = Normal (nx, m) -> b <> O ->
    exists pre k u posts n0,
      newEvents w (snd r) = pre ++ pageEvents ph k u posts n0 /\
      net k u = Some posts /\ links_next posts = nx.
Proof.
  cbv zeta.
  apply (fetchPages_cases net ph (fun b _ _ w r =>
    forall nx m,
      fst r = Normal (nx, m) -> b <> O ->
      exists pre k u posts n0,
        newEvents w (snd r) = pre ++ pageEvents ph k u posts n0 /\
        net k u = Some posts /\ links_next posts = nx)).
  - intros u n0 w0 nx m _ H. congruence.
  - intros b0 u n0 w0 _ nx m H. discriminate.
  - intros b0 u n0 w0 posts Hnet _ nx m H _. cbn [fst snd] in *.
    inversion H; subst. rewrite newEvents_afterPage.
    exists [], (subrequests w0), u, posts, n0. auto.
  - intros b0 u n0 w0 posts next Hnet Hl _ n' w' IH nx m H _. unfold n', w' in *.
    rewrite newEvents_after_page.
    destruct b0 as [|b0].
    + cbn [fetchPages] in H. unfold ret in H. cbn [fst] in H. inversion H; subst.
      cbn [fetchPages]. unfold ret. cbn [snd]. rewrite newEvents_refl, app_nil_r.
      exists [], (subrequests w0), u, posts, n0. auto.
    + destruct (IH nx m H ltac:(discriminate)) as (pre & k & u' & posts' & n1 & He & Hk & Hn).
      exists (pageEvents ph (subrequests w0) u posts n0 ++ pre), k, u', posts', n1.
      rewrite He, app_assoc. auto.
Qed.

(** The record a run that returns leaves in the ledger: the posts it
    upserted, and the next link of the page part two fetched last, or null
    when part two fetched nothing. *)
Lemma sync_ledger_count (now0 now1 : Z) (w : World) :
  let r := syncInPostsFromPatreon net now0 now1 w in
  let evs := newEvents w (snd r) in
  let link := nextLinkAfter net (lastFetchOf PartTwo evs) in
  fst r = Normal tt ->
  patreon_post_runs (snd r) =
  map (updateRun now0 (elapsedSeconds now0 now1) (upsertsIn evs) link)
      (patreon_post_runs w)
  ++ [mkRun now0 (Some (elapsedSeconds now0 now1)) (Some (upsertsIn evs)) link].
Proof.
  cbv zeta. intro Hdone.
  pose proof (fetchPages_runs net PartOne 20 initialApiUrl 0 (startOfRun now0 w)) as RA.
  change (patreon_post_runs (startOfRun now0 w))
    with (patreon_post_runs w ++ [mkRun now0 None None None]) in RA.
  pose proof (fetchPages_retrieved PartOne 20 initialApiUrl 0 (startOfRun now0 w)) as CA.
  cbv zeta in CA.
  pose proof (fetchPages_counts net PartOne 20 initialApiUrl 0 (startOfRun now0 w))
    as (_ & FA & _).
  specialize (FA PartTwo eq_refl). cbv zeta in FA.
  assert (Hhead : forall l, upsertsIn (EvSelectLastRun :: EvInsertRun now0 :: l)
                            = upsertsIn l) by reflexivity.
  assert (Hlast : forall l, lastFetchOf PartTwo (EvSelectLastRun :: EvInsertRun now0 :: l)
                            = lastFetchOf PartTwo l).
  { intro l. cbn [lastFetchOf]. now destruct (lastFetchOf PartTwo l). }
  destruct (sync_outcome net now0 now1 w)
    as [(e & HA & Hr & Hev) | [(p1 & HA & Hstart & Hr & Hev)
                              | (p1 & u & HA & Hstart & Hu & HB)]].
  - rewrite Hr in Hdone. discriminate.
  - rewrite Hev, Hhead, Hlast, upsertsIn_app, lastFetchOf_app. rewrite HA in CA.
    cbn [lastFetchOf]. rewrite (lastFetchOf_none _ _ FA). cbn [nextLinkAfter].
    destruct p1 as [a1 n1]. cbn [snd] in *. rewrite Hr.
    rewrite (storeRunEnd_own_row _ _ _ _ _ _ RA). cbn [snd patreon_post_runs].
    replace (upsertsIn _ + upsertsIn _)%nat with n1 by (rewrite CA; cbn; lia).
    reflexivity.
  - cbv zeta in HB.
    pose proof (fetchPages_runs net PartTwo 20 u (snd p1)
                  (snd (fetchPages net PartOne 20 initialApiUrl 0 (startOfRun now0 w))))
      as RB.
    rewrite RA in RB.
    pose proof (fetchPages_retrieved PartTwo 20 u (snd p1)
                  (snd (fetchPages net PartOne 20 initialApiUrl 0 (startOfRun now0 w))))
      as CB.
    cbv zeta in CB.
    destruct HB as [(e & HBt & Hr & Hev) | (p2 & HBn & Hr & Hev)].
    + rewrite Hr in Hdone. discriminate.
    + rewrite Hev, Hhead, Hlast, !upsertsIn_app, !lastFetchOf_app.
      rewrite HA in CA. rewrite HBn in CB.
      destruct p1 as [a1 n1], p2 as [a2 n2]. cbn [fst snd] in *.
      destruct (fetchPages_last PartTwo 20 u n1 _ a2 n2 HBn ltac:(discriminate))
        as (pre & k & u' & posts & n0 & He & Hk & Hn).
      rewrite He, lastFetchOf_app, lastFetchOf_pageEvents.
      cbn [lastFetchOf nextLinkAfter]. rewrite Hk, Hn. rewrite Hr.
      rewrite (storeRunEnd_own_row _ _ _ _ _ _ RB). cbn [snd patreon_post_runs].
      rewrite <- He.
      replace (upsertsIn _ + (upsertsIn _ + upsertsIn _))%nat with n2
        by (rewrite CB, CA; cbn; lia).
      reflexivity.
Qed.

End Ledger.

(** X1. [getLastRun] changes no table.  On an empty ledger it returns
    undefined, and only then.  On any other ledger it returns a row of the
    ledger that no row exceeds in [started_at]: the first inserted of the
    rows with the greatest [started_at], every row before it having started
    strictly earlier. *)
Theorem getLastRun_is_latest_or_absent :
  forall (w : World),
    patreon_posts (snd (getLastRun w)) = patreon_posts w /\
    patreon_post_runs (snd (getLastRun w)) = patreon_post_runs w /\
    (fst (getLastRun w) = Normal None <-> patreon_post_runs w = []) /\
    (forall row,
        fst (getLastRun w) = Normal (Some row) ->
        In row (patreon_post_runs w) /\
        Forall (fun r => started_at r <= started_at row) (patreon_post_runs w)) /\
    (patreon_post_runs w <> [] ->
     exists row pre post,
       fst (getLastRun w) = Normal (Some row) /\
       patreon_post_runs w = pre ++ row :: post /\
       Forall (fun r => started_at r < started_at row) pre /\
       Forall (fun r => started_at r <= started_at row) post).
Proof.
  intro w. unfold getLastRun. cbn [fst snd patreon_posts patreon_post_runs].
  pose proof (latestRun_max (patreon_post_runs w)) as H.
  split; [reflexivity|]. split; [reflexivity|]. split; [|split].
  - destruct (latestRun (patreon_post_runs w)) as [row|].
    + split; [discriminate|]. intro E. rewrite E in H. destruct H as [[] _].
    + split; [intros _; exact H | reflexivity].
  - intros row E. inversion E as [E']. rewrite E' in H. exact H.
  - intro Hne.
    destruct (latestRun_split _ Hne) as (row & pre & post & Hl & Hrest).
    exists row, pre, post. rewrite Hl. split; [reflexivity | exact Hrest].
Qed.

(** X2. When a run returns and no row of the ledger started later than it,
    [getLastRun] afterwards returns the record of that run: its start
    instant, the seconds elapsed, and as [posts_retrieved] the number of
    posts the run upserted, a post fetched twice counted twice. *)
Theorem completed_run_is_the_last_run :
  forall (net : Network) (now0 now1 : Z) (w : World),
    Forall (fun r => started_at r <= now0) (patreon_post_runs w) ->
    let r := syncInPostsFromPatreon net now0 now1 w in
    fst r = Normal tt ->
    exists link,
      fst (getLastRun (snd r)) =
      Normal (Some (mkRun now0 (Some (elapsedSeconds now0 now1))
                          (Some (upsertsIn (newEvents w (snd r)))) link)).
Proof.
  intros net now0 now1 w Hclock. cbv zeta. intro Hdone.
  pose proof (sync_ledger_count net now0 now1 w Hdone) as Hruns.
  eexists. unfold getLastRun. cbn [fst]. rewrite Hruns.
  now rewrite latestRun_after_update_row.
Qed.

(* ================================================================== *)
(** * The posts table across runs *)

Section PostsAcrossRuns.

Lemma length_without_id (i : string) (tbl : list PostRow) :
  NoDup (postIds tbl) ->
  (List.length (filter (fun x => negb (id x =? i)%string) tbl)
   + (if includes (postIds tbl) i then 1 else 0)
   = List.length tbl)%nat.
Proof.
  induction tbl as [|a tbl IH]; intro Hnd; [reflexivity|].
  cbn [postIds map] in Hnd. inversion Hnd as [|? ? Hnot Hnd']; subst.
  specialize (IH Hnd'). unfold includes in *. cbn [postIds map existsb filter].
  rewrite (String.eqb_sym i (id a)).
  destruct (String.eqb_spec (id a) i) as [E|E]; cbn [negb orb List.length].
  - assert (Hno : existsb (String.eqb i) (map id tbl) = false).
    { apply includes_not_In. now rewrite <- E. }
    unfold postIds in IH. rewrite Hno in *. lia.
  - unfold postIds in IH. lia.
Qed.

Lemma length_insertOrReplace (r : PostRow) (tbl : list PostRow) :
  NoDup (postIds tbl) ->
  List.length (insertOrReplace r tbl) =
  (List.length tbl + (if includes (postIds tbl) (id r) then 0 else 1))%nat.
Proof.
  intro Hnd. unfold insertOrReplace. rewrite length_app. cbn [List.length].
  pose proof (length_without_id (id r) tbl Hnd) as H.
  destruct (includes (postIds tbl) (id r)); lia.
Qed.

Variable net : Network.

Lemma upsertRows_NoDup (rs tbl : list PostRow) :
  NoDup (postIds tbl) -> NoDup (postIds (upsertRows rs tbl)).
Proof. intro H. apply (upsertRows_invariant rs tbl H). Qed.

Lemma fetchPages_unique (ph : Phase) (b : nat) (apiUrl : string) (n : nat)
      (w : World) :
  NoDup (postIds (patreon_posts w)) ->
  NoDup (postIds (patreon_posts (snd (fetchPages net ph b apiUrl n w)))).
Proof.
  apply (fetchPages_cases net ph (fun _ _ _ w r =>
    NoDup (postIds (patreon_posts w)) ->
    NoDup (postIds (patreon_posts (snd r))))).
  - intros. assumption.
  - intros. assumption.
  - intros b0 u n0 w0 posts _ _ H. cbn [snd afterPage patreon_posts].
    now apply upsertRows_NoDup.
  - intros b0 u n0 w0 posts next _ _ _ n' w' IH H. apply IH.
    unfold w'. cbn [afterPage patreon_posts]. now apply upsertRows_NoDup.
Qed.

Lemma sync_unique (now0 now1 : Z) (w : World) :
  NoDup (postIds (patreon_posts w)) ->
  NoDup (postIds (patreon_posts (snd (syncInPostsFromPatreon net now0 now1 w)))).
Proof.
  intro Hnd.
  assert (HA : NoDup (postIds (patreon_posts
             (snd (fetchPages net PartOne 20 initialApiUrl 0 (startOfRun now0 w))))))
    by (apply fetchPages_unique; exact Hnd).
  destruct (sync_outcome net now0 now1 w)
    as [(e & _ & Hr & _) | [(p1 & _ & _ & Hr & _)
                           | (p1 & u & _ & _ & _ & HB)]].
  - now rewrite Hr.
  - rewrite Hr, (proj1 (proj2 (storeRunEnd_frame _ _ _ _ _))). exact HA.
  - cbv zeta in HB.
    assert (HB' : NoDup (postIds (patreon_posts
               (snd (fetchPages net PartTwo 20 u (snd p1)
                  (snd (fetchPages net PartOne 20 initialApiUrl 0 (startOfRun now0 w))))))))
      by (apply fetchPages_unique; exact HA).
    destruct HB as [(e & _ & Hr & _) | (p2 & _ & Hr & _)].
    + now rewrite Hr.
    + rewrite Hr, (proj1 (proj2 (storeRunEnd_frame _ _ _ _ _))). exact HB'.
Qed.

End PostsAcrossRuns.

(** X3. Upserting a post whose id is stored leaves [getPostCount] as it
    was, and upserting a post with a new id raises it by one: on a table
    with one row per id, the count is the number of distinct ids seen. *)
Theorem upsert_counts_new_ids_only :
  forall (p : PatreonPostData) (w : World),
    NoDup (postIds (patreon_posts w)) ->
    fst (getPostCount (snd (upsertPost p w))) =
    Normal (Z.of_nat (List.length (patreon_posts w))
            + (if includes (postIds (patreon_posts w)) (post_id p) then 0 else 1)).
Proof.
  intros p w Hnd. unfold getPostCount, upsertPost. cbn [fst snd patreon_posts].
  rewrite (length_insertOrReplace _ _ Hnd). cbn [rowOfPost id].
  destruct (includes (postIds (patreon_posts w)) (post_id p)); f_equal; lia.
Qed.

(** X4. Whatever the feed answers and however the runs end, no sequence of
    runs removes a post: every stored id stays stored, the table keeps one
    row per id, and [getPostCount] never goes down. *)
Theorem runs_never_lose_posts :
  forall (net : Network) (times : list (Z * Z)) (w : World),
    NoDup (postIds (patreon_posts w)) ->
    let w' := afterRuns net times w in
    NoDup (postIds (patreon_posts w')) /\
    incl (postIds (patreon_posts w)) (postIds (patreon_posts w')) /\
    (exists before after,
        fst (getPostCount w) = Normal before /\
        fst (getPostCount w') = Normal after /\
        before <= after).
Proof.
  intros net times. induction times as [|t times IH]; intros w Hnd; cbv zeta.
  - cbn. split; [exact Hnd|]. split; [apply incl_refl|].
    eexists _, _. split; [reflexivity|]. split; [reflexivity|]. lia.
  - change (afterRuns net (t :: times) w)
      with (afterRuns net times (afterRun net w t)).
    pose proof (sync_unique net (fst t) (snd t) w Hnd) as H1.
    pose proof (proj1 (sync_keeps net (fst t) (snd t) w)) as K1.
    fold (afterRun net w t) in H1, K1.
    destruct (IH (afterRun net w t) H1) as (N2 & K2 & (b & a & Hb & Ha & Hle)).
    split; [exact N2|]. split; [eapply incl_tran; eauto|].
    exists (Z.of_nat (List.length (patreon_posts w))), a.
    split; [reflexivity|]. split; [exact Ha|].
    unfold getPostCount in Hb. cbn [fst] in Hb. inversion Hb; subst b.
    assert (Hlen : (List.length (postIds (patreon_posts w))
                    <= List.length (postIds (patreon_posts (afterRun net w t))))%nat)
      by (apply NoDup_incl_length; assumption).
    unfold postIds in Hlen. rewrite !length_map in Hlen. lia.
Qed.

(** X5. One run over a simulated feed moves the archive dive on by twenty
    pages.  If the last run left the link to page position [m], part two
    reads the twenty pages from there and the run stores the link to
    position [m + 20], or null when the feed ends before it.  If the last
    run left no usable link (no run yet, or the dive had reached the end),
    the dive starts again behind the twenty most recent pages and the run
    stores the link to position 40.  Either way the twenty most recent
    pages are read again, and the run becomes the last run. *)
Theorem run_moves_dive_by_twenty_pages :
  forall (pages : list (string * list PatreonPostData)) (now0 now1 : Z)
         (w : World) (m : nat),
    WellFormedFeed pages ->
    Forall (fun r => started_at r <= now0) (patreon_post_runs w) ->
    (truthy (linkOf (latestRun (patreon_post_runs w))) = false /\ m = 20%nat)
    \/ (truthy (linkOf (latestRun (patreon_post_runs w))) = true /\
        linkOf (latestRun (patreon_post_runs w)) = cursorAt pages m) ->
    let r := syncInPostsFromPatreon (feedNetwork pages) now0 now1 w in
    fst r = Normal tt /\
    linkOf (latestRun (patreon_post_runs (snd r))) = cursorAt pages (m + 20) /\
    (forall p, In p (feedPosts (firstn 20 pages)) ->
               In (post_id p) (postIds (patreon_posts (snd r)))) /\
    (forall p, In p (feedPosts (firstn 20 (skipn m pages))) ->
               In (post_id p) (postIds (patreon_posts (snd r)))).
Proof.
  intros pages now0 now1 w m Hfeed Hclock Hlink. cbv zeta.
  destruct (sync_feed pages Hfeed now0 now1 w m Hlink)
    as (Hdone & (n & Hruns) & _ & Hc1 & Hc2).
  split; [exact Hdone|]. split; [|split; assumption].
  rewrite Hruns.
  apply (ledger_after_run now0 (elapsedSeconds now0 now1) n
           (cursorAt pages (m + 20)) (patreon_post_runs w) Hclock).
Qed.

(* ================================================================== *)
(** * The shape of a page *)

Section PageShape.

Lemma Sorted_limitOffset {A} (R : A -> A -> Prop) (limit offset : Z) (l : list A) :
  Sorted R l -> Sorted R (limitOffset limit offset l).
Proof.
  intro H. unfold limitOffset. destruct (limit <? 0).
  - now apply Sorted_skipn.
  - now apply Sorted_firstn, Sorted_skipn.
Qed.

Lemma Sorted_map_rel {A B} (R : A -> A -> Prop) (R' : B -> B -> Prop) (f : A -> B)
      (l : list A) :
  (forall a b, R a b -> R' (f a) (f b)) -> Sorted R l -> Sorted R' (map f l).
Proof.
  intro H. induction 1 as [|a l Hs IH Hhd]; cbn [map]; constructor; [exact IH|].
  destruct Hhd as [|b l Hab]; cbn [map]; constructor. now apply H.
Qed.

Lemma integer_order (sortDirection : string) (x y : Z) :
  (if (sortDirection =? "desc")%string
   then sqlLeb (VInteger y) (VInteger x) else sqlLeb (VInteger x) (VInteger y)) = true ->
  inOrder sortDirection Z.le x y.
Proof.
  unfold inOrder. destruct (sortDirection =? "desc")%string; cbn [sqlLeb];
    intro H; now apply Z.leb_le.
Qed.

Lemma text_order (sortDirection : string) (x y : string) :
  (if (sortDirection =? "desc")%string
   then sqlLeb (VText y) (VText x) else sqlLeb (VText x) (VText y)) = true ->
  inOrder sortDirection textLe x y.
Proof.
  unfold inOrder, textLe. destruct (sortDirection =? "desc")%string; cbn [sqlLeb];
    intro H; now apply text_leb_spec.
Qed.

Lemma limitOffset_length {A} (limit offset : Z) (l : list A) :
  0 <= limit -> Z.of_nat (List.length (limitOffset limit offset l)) <= limit.
Proof.
  intro H. rewrite limitOffset_window by exact H.
  rewrite length_firstn. lia.
Qed.


End PageShape.

(** X6. With valid sort parameters, a search text of at most 48 bytes and a
    window that binds, the page [getPosts] returns holds at most [perPage]
    entries when [perPage] is not negative, and its entries are in the
    requested order of the requested column: the counts ascending or
    descending as integers, the dates as text. *)
Theorem getPosts_page_is_sorted_and_bounded :
  forall (page : number) (sortBy sortDirection query : string) (perPage : number)
         (w : World) (limit offset : Z),
    validSort sortBy sortDirection = true ->
    (String.length query <= 48)%nat ->
    boundInteger perPage = Some limit ->
    boundInteger (PrimFloat.mul (PrimFloat.sub page 1) perPage) = Some offset ->
    exists posts,
      fst (getPosts stableEngine page sortBy sortDirection query perPage w)
        = Normal posts /\
      (0 <= limit -> Z.of_nat (List.length posts) <= limit) /\
      (sortBy = "comment_count" ->
       Sorted (fun a b => inOrder sortDirection Z.le
                                  (sp_comment_count a) (sp_comment_count b)) posts) /\
      (sortBy = "like_count" ->
       Sorted (fun a b => inOrder sortDirection Z.le
                                  (sp_like_count a) (sp_like_count b)) posts) /\
      (sortBy = "published_at" ->
       Sorted (fun a b => inOrder sortDirection textLe
                                  (sp_published_at a) (sp_published_at b)) posts).
Proof.
  intros page sortBy sortDirection query perPage w limit offset Hvalid Hq Hl Ho.
  rewrite (getPosts_valid _ _ _ _ _ _ _ limit offset) by auto. cbn [fst].
  eexists. split; [reflexivity|]. unfold selectPostRows. cbn [orderBy stableEngine].
  assert (Hs : Sorted (fun a b => rowLeb sortBy sortDirection a b = true)
                 (limitOffset limit offset
                    (insertionSort (rowLeb sortBy sortDirection)
                                   (filter (titleMatches query) (patreon_posts w))))).
  { apply Sorted_limitOffset. apply insertionSort_lawful. }
  split; [|split; [|split]].
  - intro H. rewrite length_map. now apply limitOffset_length.
  - intros ->. revert Hs. apply Sorted_map_rel. intros a b. apply integer_order.
  - intros ->. revert Hs. apply Sorted_map_rel. intros a b. apply integer_order.
  - intros ->. revert Hs. apply Sorted_map_rel. intros a b. apply text_order.
Qed.


(** X8. [started_at] is the only key of a ledger row and is not unique.  A
    run adds exactly one row and leaves every row of another start instant
    as it was, in its place; when it returns, every row that carries its
    start instant, older ones included, holds the results of this run: the
    seconds elapsed, the number of posts the run upserted, and as link the
    next link of the page that part two fetched last, or null when part
    two fetched nothing. *)
Theorem run_writes_rows_of_its_instant :
  forall (net : Network) (now0 now1 : Z) (w : World),
    let r := syncInPostsFromPatreon net now0 now1 w in
    let evs := newEvents w (snd r) in
    List.length (patreon_post_runs (snd r)) = S (List.length (patreon_post_runs w)) /\
    (forall k row,
        nth_error (patreon_post_runs w) k = Some row ->
        started_at row <> now0 ->
        nth_error (patreon_post_runs (snd r)) k = Some row) /\
    (fst r = Normal tt ->
     forall row,
       In row (patreon_post_runs (snd r)) ->
       started_at row = now0 ->
       row = mkRun now0 (Some (elapsedSeconds now0 now1)) (Some (upsertsIn evs))
                   (nextLinkAfter net (lastFetchOf PartTwo evs))).
Proof.
  intros net now0 now1 w. cbv zeta.
  assert (Hshape : forall runs' n link,
            runs' = map (updateRun now0 (elapsedSeconds now0 now1) n link)
                        (patreon_post_runs w)
                    ++ [mkRun now0 (Some (elapsedSeconds now0 now1)) (Some n) link] ->
            List.length runs' = S (List.length (patreon_post_runs w)) /\
            (forall k row,
                nth_error (patreon_post_runs w) k = Some row ->
                started_at row <> now0 ->
                nth_error runs' k = Some row) /\
            (forall row, In row runs' -> started_at row = now0 ->
                         row = mkRun now0 (Some (elapsedSeconds now0 now1)) (Some n) link)).
  { intros runs' n link ->.
    split; [rewrite length_app, length_map; cbn; lia|]. split.
    - intros k row Hk Hneq. rewrite nth_error_app1.
      + rewrite nth_error_map, Hk. cbn [option_map]. f_equal.
        unfold updateRun. destruct (Z.eqb_spec (started_at row) now0); [contradiction|].
        reflexivity.
      + rewrite length_map. apply nth_error_Some. congruence.
    - intros row Hin Hstart.
      apply in_app_iff in Hin. destruct Hin as [Hin|[Hin|[]]]; [|now symmetry].
      apply in_map_iff in Hin. destruct Hin as (old & Hold & _).
      unfold updateRun in Hold.
      destruct (Z.eqb_spec (started_at old) now0) as [E|E].
      + rewrite E in Hold. now symmetry.
      + subst row. contradiction. }
  destruct (sync_ledger net now0 now1 w) as [[Ht Hruns] | (n & link & Hn & Hruns)].
  - rewrite Hruns. split; [rewrite length_app; cbn; lia|]. split.
    + intros k row Hk _. rewrite nth_error_app1; [exact Hk|].
      apply nth_error_Some. congruence.
    + rewrite Ht. discriminate.
  - pose proof (sync_ledger_count net now0 now1 w Hn) as Hc. cbv zeta in Hc.
    destruct (Hshape _ _ _ Hc) as (H1 & H2 & H3).
    split; [exact H1|]. split; [exact H2|]. intros _. exact H3.
Qed.

(* ================================================================== *)
(** * Query parameters and links of the request handler *)

Section QueryParams.

Lemma paramsGet_first (name : string) (ps : URLSearchParams) :
  paramsGet name ps = hd_error (paramsGetAll name ps).
Proof.
  unfold paramsGet, paramsGetAll.
  induction ps as [|p ps IH]; [reflexivity|]. cbn [find filter].
  destruct (hasName name p); [reflexivity | exact IH].
Qed.

Lemma getAll_removed (name : string) (ps : URLSearchParams) :
  paramsGetAll name (filter (fun q => negb (hasName name q)) ps) = [].
Proof.
  unfold paramsGetAll. induction ps as [|p ps IH]; [reflexivity|].
  cbn [filter]. destruct (hasName name p) eqn:E; cbn [negb]; [exact IH|].
  cbn [filter]. now rewrite E.
Qed.

Lemma getAll_kept (name other : string) (ps : URLSearchParams) :
  other <> name ->
  paramsGetAll other (filter (fun q => negb (hasName name q)) ps)
  = paramsGetAll other ps.
Proof.
  intro Hneq. unfold paramsGetAll. induction ps as [|p ps IH]; [reflexivity|].
  cbn [filter]. destruct (hasName name p) eqn:E; cbn [negb].
  - assert (Ho : hasName other p = false).
    { unfold hasName in *. apply String.eqb_eq in E. apply String.eqb_neq. congruence. }
    rewrite Ho. exact IH.
  - cbn [filter]. destruct (hasName other p); cbn [map]; now rewrite IH.
Qed.

Lemma getAll_set_same (name value : string) (ps : URLSearchParams) :
  paramsGetAll name (paramsSet name value ps) = [value].
Proof.
  induction ps as [|p ps IH]; cbn [paramsSet].
  - unfold paramsGetAll, hasName. cbn. now rewrite String.eqb_refl.
  - destruct (hasName name p) eqn:E.
    + change (paramsGetAll name ((name, value) :: ?l))
        with (map snd (if hasName name (name, value)
                       then (name, value) :: filter (hasName name) l
                       else filter (hasName name) l)).
      unfold hasName at 1. cbn [fst]. rewrite String.eqb_refl. cbn [map snd].
      f_equal. apply getAll_removed.
    + unfold paramsGetAll in *. cbn [filter]. now rewrite E.
Qed.

Lemma getAll_set_other (name value other : string) (ps : URLSearchParams) :
  other <> name ->
  paramsGetAll other (paramsSet name value ps) = paramsGetAll other ps.
Proof.
  intro Hneq.
  assert (Hnew : hasName other (name, value) = false).
  { unfold hasName. cbn [fst]. apply String.eqb_neq. congruence. }
  induction ps as [|p ps IH]; cbn [paramsSet].
  - unfold paramsGetAll. cbn [filter]. now rewrite Hnew.
  - destruct (hasName name p) eqn:E.
    + assert (Ho : hasName other p = false).
      { unfold hasName in *. apply String.eqb_eq in E. apply String.eqb_neq. congruence. }
      unfold paramsGetAll at 1 2. cbn [filter]. rewrite Hnew, Ho.
      apply (getAll_kept name other ps Hneq).
    + unfold paramsGetAll in *. cbn [filter].
      destruct (hasName other p); cbn [map]; now rewrite IH.
Qed.

Lemma extend_other (name : string) (newParams : list (string * string)) :
  forall searchParams,
    ~ In name (map fst newParams) ->
    paramsGetAll name (extendQueryParams searchParams newParams)
    = paramsGetAll name searchParams.
Proof.
  induction newParams as [|[k v] rest IH]; intros ps Hnot; [reflexivity|].
  unfold extendQueryParams in *. cbn [fold_left fst snd].
  rewrite IH by (intro H; apply Hnot; now right).
  apply getAll_set_other. intro E. apply Hnot. now left.
Qed.

Lemma extend_sets (newParams : list (string * string)) :
  forall searchParams name value,
    NoDup (map fst newParams) ->
    In (name, value) newParams ->
    paramsGetAll name (extendQueryParams searchParams newParams) = [value].
Proof.
  induction newParams as [|[k v] rest IH]; intros ps name value Hnd Hin; [destruct Hin|].
  cbn [map fst] in Hnd. inversion Hnd as [|? ? Hnot Hnd']; subst.
  change (extendQueryParams ps ((k, v) :: rest))
    with (extendQueryParams (paramsSet k v ps) rest).
  destruct Hin as [Hin|Hin].
  - inversion Hin; subst. rewrite extend_other by exact Hnot.
    apply getAll_set_same.
  - now apply IH.
Qed.

End QueryParams.

(** X9. [extendQueryParams] gives each name of [newParams] exactly one
    value, the new one, however often the name occurred before, and leaves
    the values of every other name as they were, in their order. *)
Theorem extendQueryParams_sets_and_keeps :
  forall (searchParams : URLSearchParams) (newParams : list (string * string)),
    NoDup (map fst newParams) ->
    (forall name value,
        In (name, value) newParams ->
        paramsGetAll name (extendQueryParams searchParams newParams) = [value]) /\
    (forall name,
        ~ In name (map fst newParams) ->
        paramsGetAll name (extendQueryParams searchParams newParams)
        = paramsGetAll name searchParams).
Proof.
  intros searchParams newParams Hnd. split.
  - intros name value Hin. now apply extend_sets.
  - intros name Hnot. now apply extend_other.
Qed.

(** X10. The link the handler renders in the header of a sortable column
    asks for valid sort parameters, whatever the current request asked
    for: it sorts by that column, flips a valid direction of the active
    column, sorts any other column descending, and keeps the search text.
    A request made from it therefore passes the validation of [getPosts]. *)
Theorem header_link_is_a_valid_sort :
  forall (params : URLSearchParams) (sortBy sortDirection header : string),
    In header SortableColumns_values ->
    let link := headerLinkParams params sortBy sortDirection header in
    requestSort link = header /\
    validSort (requestSort link) (requestDirection link) = true /\
    (sortBy = header -> sortDirection = "desc" -> requestDirection link = "asc") /\
    (sortBy = header -> sortDirection = "asc" -> requestDirection link = "desc") /\
    (sortBy <> header -> requestDirection link = "desc") /\
    requestSearch link = requestSearch params.
Proof.
  intros params sortBy sortDirection header Hheader. cbv zeta.
  unfold headerLinkParams.
  set (dir := if (sortDirection =? "asc")%string || negb (sortBy =? header)%string
              then "desc" else "asc").
  set (link := extendQueryParams params [("sort", header); ("direction", dir)]).
  assert (Hnd : NoDup (map fst [("sort", header); ("direction", dir)])).
  { cbn. constructor; [intros [H|[]]; discriminate|].
    constructor; [intros []|constructor]. }
  assert (Hsort : requestSort link = header).
  { unfold requestSort. rewrite paramsGet_first.
    unfold link. rewrite (extend_sets _ params "sort" header Hnd) by (now left).
    reflexivity. }
  assert (Hdir : requestDirection link = dir).
  { unfold requestDirection. rewrite paramsGet_first.
    unfold link. rewrite (extend_sets _ params "direction" dir Hnd) by (right; now left).
    reflexivity. }
  assert (Hsearch : requestSearch link = requestSearch params).
  { unfold requestSearch. rewrite !paramsGet_first.
    unfold link. rewrite extend_other; [reflexivity|].
    cbn. intros [H|[H|[]]]; discriminate. }
  assert (Hvalid : validSort (requestSort link) (requestDirection link) = true).
  { rewrite Hsort, Hdir. unfold validSort. apply andb_true_iff. split.
    - now apply includes_In.
    - unfold dir. destruct ((sortDirection =? "asc")%string || negb (sortBy =? header)%string);
        reflexivity. }
  split; [exact Hsort|]. split; [exact Hvalid|].
  split; [|split; [|split; [|exact Hsearch]]].
  - intros -> ->. rewrite Hdir. unfold dir. now rewrite String.eqb_refl.
  - intros _ ->. rewrite Hdir. reflexivity.
  - intro Hneq. rewrite Hdir. unfold dir.
    apply String.eqb_neq in Hneq. rewrite Hneq. cbn [negb]. now rewrite orb_true_r.
Qed.

(* ================================================================== *)
(** * The URLs a run fetches *)

Section FetchedUrls.

Variable net : Network.

Lemma linkedFrom_app_l (a b : list Event) (link : option string) :
  linkedFrom net a link -> linkedFrom net (a ++ b) link.
Proof.
  intros (ph & k & u & posts & Hin & H). exists ph, k, u, posts.
  split; [apply in_app_iff; now left | exact H].
Qed.

Lemma linkedFrom_app_r (a b : list Event) (link : option string) :
  linkedFrom net b link -> linkedFrom net (a ++ b) link.
Proof.
  intros (ph & k & u & posts & Hin & H). exists ph, k, u, posts.
  split; [apply in_app_iff; now right | exact H].
Qed.

Lemma linkedFrom_page (ph : Phase) (k : nat) (apiUrl : string)
      (posts : PatreonApiResponse) (n : nat) :
  net k apiUrl = Some posts ->
  linkedFrom net (pageEvents ph k apiUrl posts n) (links_next posts).
Proof.
  intro H. exists ph, k, apiUrl, posts. split; [now left | auto].
Qed.

(** Inside a loop every fetch goes to the URL the loop started with or to
    the next link of a page the loop fetched, and the link the loop ends on
    is its starting URL (no iteration) or the next link of such a page. *)
Lemma fetchPages_follows (ph : Phase) (b : nat) (apiUrl : string) (n : nat)
      (w : World) :
  let r := fetchPages net ph b apiUrl n w in
  let evs := newEvents w (snd r) in
  (forall ph' k u,
      In (EvFetch ph' k u) evs -> u = apiUrl \/ linkedFrom net evs (Some u)) /\
  (forall nx m, fst r = Normal (nx, m) -> nx = Some apiUrl \/ linkedFrom net evs nx).
Proof.
  cbv zeta.
  apply (fetchPages_cases net ph (fun _ apiUrl _ w r =>
    (forall ph' k u,
        In (EvFetch ph' k u) (newEvents w (snd r)) ->
        u = apiUrl \/ linkedFrom net (newEvents w (snd r)) (Some u)) /\
    (forall nx m, fst r = Normal (nx, m) ->
                  nx = Some apiUrl \/ linkedFrom net (newEvents w (snd r)) nx))).
  - intros u n0 w0. cbn [fst snd]. rewrite newEvents_refl. split.
    + intros ? ? ? [].
    + intros nx m H. inversion H. now left.
  - intros b0 u n0 w0 Hnet. cbn [fst snd]. rewrite newEvents_afterFault. split.
    + intros ph' k u' [H|[]]. inversion H. now left.
    + discriminate.
  - intros b0 u n0 w0 posts Hnet Hstop. cbn [fst snd]. rewrite newEvents_afterPage.
    split.
    + intros ph' k u' Hin. apply in_fetch_pageEvents in Hin. left. tauto.
    + intros nx m H. inversion H; subst. right. now apply linkedFrom_page.
  - intros b0 u n0 w0 posts next Hnet Hl Ht n' w' [IH1 IH2]. unfold n', w' in *.
    rewrite newEvents_after_page.
    assert (Hnext : linkedFrom net (pageEvents ph (subrequests w0) u posts n0) (Some next))
      by (rewrite <- Hl; now apply linkedFrom_page).
    split.
    + intros ph' k u' Hin. apply in_app_iff in Hin. destruct Hin as [Hin|Hin].
      * apply in_fetch_pageEvents in Hin. left. tauto.
      * right. destruct (IH1 ph' k u' Hin) as [->|H].
        -- now apply linkedFrom_app_l.
        -- now apply linkedFrom_app_r.
    + intros nx m H. right. destruct (IH2 nx m H) as [->|H'].
      * now apply linkedFrom_app_l.
      * now apply linkedFrom_app_r.
Qed.

Lemma in_fetch_run_events (now0 : Z) (ph : Phase) (k : nat) (u : string)
      (l : list Event) :
  In (EvFetch ph k u) (EvSelectLastRun :: EvInsertRun now0 :: l) ->
  In (EvFetch ph k u) l.
Proof. intros [H|[H|H]]; [discriminate|discriminate|exact H]. Qed.

Lemma linkedFrom_run_events (now0 : Z) (l : list Event) (link : option string) :
  linkedFrom net l link -> linkedFrom net (EvSelectLastRun :: EvInsertRun now0 :: l) link.
Proof.
  intros (ph & k & u & posts & Hin & H). exists ph, k, u, posts.
  split; [right; right; exact Hin | exact H].
Qed.

Lemma sync_follows (now0 now1 : Z) (w : World) (ph : Phase) (k : nat) (u : string) :
  let evs := newEvents w (snd (syncInPostsFromPatreon net now0 now1 w)) in
  In (EvFetch ph k u) evs ->
  u = initialApiUrl
  \/ linkOf (latestRun (patreon_post_runs w)) = Some u
  \/ linkedFrom net evs (Some u).
Proof.
  cbv zeta.
  destruct (fetchPages_follows PartOne 20 initialApiUrl 0 (startOfRun now0 w))
    as [FA LA]. cbv zeta in FA, LA.
  assert (HinA : forall l,
             In (EvFetch ph k u)
                (newEvents (startOfRun now0 w)
                   (snd (fetchPages net PartOne 20 initialApiUrl 0 (startOfRun now0 w)))) ->
             u = initialApiUrl \/
             linkOf (latestRun (patreon_post_runs w)) = Some u \/
             linkedFrom net (EvSelectLastRun :: EvInsertRun now0 ::
                         newEvents (startOfRun now0 w)
                           (snd (fetchPages net PartOne 20 initialApiUrl 0
                                   (startOfRun now0 w))) ++ l) (Some u)).
  { intros l Hin. destruct (FA _ _ _ Hin) as [->|H]; [now left|].
    right. right. now apply linkedFrom_run_events, linkedFrom_app_l. }
  destruct (sync_outcome net now0 now1 w)
    as [(e & HA & Hr & Hev) | [(p1 & HA & Hstart & Hr & Hev)
                              | (p1 & u2 & HA & Hstart & Hu & HB)]].
  - rewrite Hev. intro Hin. apply in_fetch_run_events in Hin.
    specialize (HinA [] Hin). now rewrite app_nil_r in HinA.
  - rewrite Hev. intro Hin. apply in_fetch_run_events in Hin.
    apply in_app_iff in Hin. destruct Hin as [Hin|[Hin|[]]]; [|discriminate].
    now apply HinA.
  - cbv zeta in HB.
    destruct (fetchPages_follows PartTwo 20 u2 (snd p1)
                (snd (fetchPages net PartOne 20 initialApiUrl 0 (startOfRun now0 w))))
      as [FB _]. cbv zeta in FB.
    assert (Hstart2 : forall l,
               u2 = initialApiUrl \/
               linkOf (latestRun (patreon_post_runs w)) = Some u2 \/
               linkedFrom net (EvSelectLastRun :: EvInsertRun now0 ::
                           newEvents (startOfRun now0 w)
                             (snd (fetchPages net PartOne 20 initialApiUrl 0
                                     (startOfRun now0 w))) ++ l) (Some u2)).
    { intro l. unfold partTwoStart in Hstart.
      destruct (truthy (linkOf (latestRun (patreon_post_runs w)))).
      - right. now left.
      - destruct p1 as [a1 n1]. cbn [fst] in Hstart. subst a1.
        destruct (LA _ _ HA) as [E|H].
        + inversion E. now left.
        + right. right. now apply linkedFrom_run_events, linkedFrom_app_l. }
    assert (HinB : forall l,
               In (EvFetch ph k u)
                  (newEvents
                     (snd (fetchPages net PartOne 20 initialApiUrl 0 (startOfRun now0 w)))
                     (snd (fetchPages net PartTwo 20 u2 (snd p1)
                        (snd (fetchPages net PartOne 20 initialApiUrl 0
                                (startOfRun now0 w)))))) ->
               u = initialApiUrl \/
               linkOf (latestRun (patreon_post_runs w)) = Some u \/
               linkedFrom net (EvSelectLastRun :: EvInsertRun now0 ::
                           newEvents (startOfRun now0 w)
                             (snd (fetchPages net PartOne 20 initialApiUrl 0
                                     (startOfRun now0 w)))
                           ++ newEvents
                                (snd (fetchPages net PartOne 20 initialApiUrl 0
                                        (startOfRun now0 w)))
                                (snd (fetchPages net PartTwo 20 u2 (snd p1)
                                   (snd (fetchPages net PartOne 20 initialApiUrl 0
                                           (startOfRun now0 w)))))
                           ++ l) (Some u)).
    { intros l Hin. destruct (FB _ _ _ Hin) as [->|H]; [apply Hstart2|].
      right. right.
      apply linkedFrom_run_events, linkedFrom_app_r, linkedFrom_app_l. exact H. }
    destruct HB as [(e & HBt & Hr & Hev) | (p2 & HBn & Hr & Hev)]; rewrite Hev.
    + intro Hin. apply in_fetch_run_events in Hin.
      apply in_app_iff in Hin. destruct Hin as [Hin|Hin].
      * now apply HinA.
      * specialize (HinB [] Hin). now rewrite app_nil_r in HinB.
    + intro Hin. apply in_fetch_run_events in Hin.
      apply in_app_iff in Hin. destruct Hin as [Hin|Hin]; [now apply HinA|].
      apply in_app_iff in Hin. destruct Hin as [Hin|[Hin|[]]]; [|discriminate].
      now apply HinB.
Qed.

End FetchedUrls.

(** X12. A run fetches no URL of its own making.  Its first fetch goes to
    the fixed URL of the most recent posts, whatever the ledger holds, and
    every fetch goes to that URL, to the link the last run stored, or to
    the next link of a page this run fetched. *)
Theorem run_follows_links_only :
  forall (net : Network) (now0 now1 : Z) (w : World),
    let evs := newEvents w (snd (syncInPostsFromPatreon net now0 now1 w)) in
    hd_error (fetchesOf PartOne evs) = Some initialApiUrl /\
    (forall ph k u,
        In (EvFetch ph k u) evs ->
        u = initialApiUrl
        \/ linkOf (latestRun (patreon_post_runs w)) = Some u
        \/ linkedFrom net evs (Some u)).
Proof.
  intros net now0 now1 w. cbv zeta. split; [|intros ph k u; apply sync_follows].
  pose proof (fetchPages_counts net PartOne 20 initialApiUrl 0 (startOfRun now0 w))
    as (_ & _ & _ & _ & A5 & _).
  specialize (A5 ltac:(discriminate)).
  assert (Hhd : forall l,
             hd_error (fetchesOf PartOne
               (EvSelectLastRun :: EvInsertRun now0 ::
                newEvents (startOfRun now0 w)
                  (snd (fetchPages net PartOne 20 initialApiUrl 0 (startOfRun now0 w)))
                ++ l)) = Some initialApiUrl).
  { intro l. rewrite !fetchesOf_skip by reflexivity. rewrite fetchesOf_app.
    destruct (fetchesOf PartOne (newEvents _ _)); [discriminate | exact A5]. }
  destruct (sync_outcome net now0 now1 w)
    as [(e & _ & _ & Hev) | [(p1 & _ & _ & _ & Hev)
                            | (p1 & u2 & _ & _ & _ & HB)]].
  - rewrite Hev. specialize (Hhd []). now rewrite app_nil_r in Hhd.
  - rewrite Hev. apply Hhd.
  - cbv zeta in HB. destruct HB as [(e & _ & _ & Hev) | (p2 & _ & _ & Hev)];
      rewrite Hev; apply Hhd.
Qed.

(** X13. [getPosts] shows on a page below 1 what it shows on page 1: for
    valid sort parameters, a search text of at most 48 bytes and a page
    size that binds, two pages whose offsets bind to zero or a negative
    integer return the same entries, because the statement treats a
    negative offset as zero. *)
Theorem pages_below_one_show_page_one :
  forall (page page' : number) (sortBy sortDirection query : string)
         (perPage : number) (w : World) (limit offset offset' : Z),
    validSort sortBy sortDirection = true ->
    (String.length query <= 48)%nat ->
    boundInteger perPage = Some limit ->
    boundInteger (PrimFloat.mul (PrimFloat.sub page 1) perPage) = Some offset ->
    boundInteger (PrimFloat.mul (PrimFloat.sub page' 1) perPage) = Some offset' ->
    offset <= 0 ->
    offset' <= 0 ->
    fst (getPosts stableEngine page sortBy sortDirection query perPage w)
    = fst (getPosts stableEngine page' sortBy sortDirection query perPage w).
Proof.
  intros page page' sortBy sortDirection query perPage w limit offset offset'
         Hvalid Hq Hl Ho Ho' Hneg Hneg'.
  rewrite (getPosts_valid _ _ _ _ _ _ _ limit offset) by auto.
  rewrite (getPosts_valid _ _ _ _ _ _ _ limit offset') by auto.
  cbn [fst]. f_equal. f_equal.
  unfold selectPostRows, limitOffset. cbn [orderBy stableEngine].
  replace (Z.to_nat offset) with 0%nat by lia.
  replace (Z.to_nat offset') with 0%nat by lia.
  reflexivity.
Qed.

(* ================================================================== *)
(** * The further theorems at concrete inputs *)

Lemma episodeRows_unique : NoDup (postIds (patreon_posts (withPosts episodeRows))).
Proof. apply distinct_NoDup. vm_compute. reflexivity. Qed.

(** Of three runs started at instants 1000, 5000 and 2000, the second row
    is the last run. *)
Lemma getLastRun_is_latest_or_absent_witness :
  patreon_post_runs (withRuns threeRuns) <> [] /\
  exists row pre post,
    fst (getLastRun (withRuns threeRuns)) = Normal (Some row) /\
    threeRuns = pre ++ row :: post /\
    started_at row = 5000 /\
    last_next_link row = Some "cursor-60" /\
    Forall (fun r => started_at r < started_at row) pre.
Proof.
  assert (Hne : patreon_post_runs (withRuns threeRuns) <> []) by discriminate.
  split; [exact Hne|].
  destruct (getLastRun_is_latest_or_absent (withRuns threeRuns))
    as (_ & _ & _ & _ & H).
  destruct (H Hne) as (row & pre & post & Hrow & Hsplit & Hpre & _).
  exists row, pre, post.
  assert (E : row = mkRun 5000 (Some (elapsedSeconds 5000 5500)) (Some 40%nat)
                          (Some "cursor-60")).
  { vm_compute in Hrow. now inversion Hrow. }
  split; [exact Hrow|]. split; [exact Hsplit|].
  rewrite E at 1 2. split; [reflexivity|]. split; [reflexivity | exact Hpre].
Defined.

Lemma completed_run_is_the_last_run_witness :
  Forall (fun r => started_at r <= 1000) (patreon_post_runs freshWorld) /\
  fst (syncInPostsFromPatreon (feedNetwork (demoFeed 3)) 1000 1500 freshWorld)
    = Normal tt /\
  exists link,
    fst (getLastRun
           (snd (syncInPostsFromPatreon (feedNetwork (demoFeed 3)) 1000 1500 freshWorld)))
    = Normal (Some (mkRun 1000 (Some (elapsedSeconds 1000 1500))
                          (Some (upsertsIn
                             (newEvents freshWorld
                                (snd (syncInPostsFromPatreon (feedNetwork (demoFeed 3))
                                        1000 1500 freshWorld)))))
                          link)).
Proof.
  assert (Hdone : fst (syncInPostsFromPatreon (feedNetwork (demoFeed 3)) 1000 1500
                         freshWorld) = Normal tt) by (vm_compute; reflexivity).
  split; [constructor|]. split; [exact Hdone|].
  exact (completed_run_is_the_last_run (feedNetwork (demoFeed 3)) 1000 1500 freshWorld
           (Forall_nil _) Hdone).
Defined.

Lemma upsert_counts_new_ids_only_witness :
  NoDup (postIds (patreon_posts (withPosts episodeRows))) /\
  fst (getPostCount (snd (upsertPost (demoPost 2) (withPosts episodeRows)))) = Normal 3 /\
  fst (getPostCount (snd (upsertPost (demoPost 9) (withPosts episodeRows)))) = Normal 4.
Proof.
  split; [exact episodeRows_unique|]. split.
  - rewrite (upsert_counts_new_ids_only (demoPost 2) (withPosts episodeRows)
               episodeRows_unique). reflexivity.
  - rewrite (upsert_counts_new_ids_only (demoPost 9) (withPosts episodeRows)
               episodeRows_unique). reflexivity.
Defined.

Lemma runs_never_lose_posts_witness :
  NoDup (postIds (patreon_posts (withPosts episodeRows))) /\
  incl (postIds (patreon_posts (withPosts episodeRows)))
       (postIds (patreon_posts
          (afterRuns faultOnSecond (demoTimes 2) (withPosts episodeRows)))).
Proof.
  split; [exact episodeRows_unique|].
  destruct (runs_never_lose_posts faultOnSecond (demoTimes 2) (withPosts episodeRows)
              episodeRows_unique) as (_ & H & _).
  exact H.
Defined.

(** The second run over 61 pages: the first left the link to page
    position 40, the second reads the twenty pages from there and leaves
    the link to position 60. *)
Lemma run_moves_dive_by_twenty_pages_witness :
  WellFormedFeed (demoFeed 61) /\
  Forall (fun r => started_at r <= 2000)
         (patreon_post_runs (afterRuns (feedNetwork (demoFeed 61)) (demoTimes 1) freshWorld)) /\
  linkOf (latestRun (patreon_post_runs
            (afterRuns (feedNetwork (demoFeed 61)) (demoTimes 1) freshWorld)))
    = Some "cursor-40" /\
  linkOf (latestRun (patreon_post_runs
            (snd (syncInPostsFromPatreon (feedNetwork (demoFeed 61)) 2000 2500
                    (afterRuns (feedNetwork (demoFeed 61)) (demoTimes 1) freshWorld)))))
    = Some "cursor-60" /\
  (forall p, In p (feedPosts (firstn 20 (skipn 40 (demoFeed 61)))) ->
             In (post_id p)
                (postIds (patreon_posts
                   (snd (syncInPostsFromPatreon (feedNetwork (demoFeed 61)) 2000 2500
                           (afterRuns (feedNetwork (demoFeed 61)) (demoTimes 1)
                                      freshWorld)))))).
Proof.
  assert (Hclock : Forall (fun r => started_at r <= 2000)
            (patreon_post_runs
               (afterRuns (feedNetwork (demoFeed 61)) (demoTimes 1) freshWorld))).
  { vm_compute. repeat constructor. discriminate. }
  assert (Hlink : linkOf (latestRun (patreon_post_runs
                     (afterRuns (feedNetwork (demoFeed 61)) (demoTimes 1) freshWorld)))
                  = Some "cursor-40") by (vm_compute; reflexivity).
  split; [exact demoFeed_61_ok|]. split; [exact Hclock|]. split; [exact Hlink|].
  destruct (run_moves_dive_by_twenty_pages (demoFeed 61) 2000 2500
              (afterRuns (feedNetwork (demoFeed 61)) (demoTimes 1) freshWorld) 40
              demoFeed_61_ok Hclock)
    as (_ & H & _ & Hcov).
  { right. rewrite Hlink. split; reflexivity. }
  split; [exact H | exact Hcov].
Defined.

(** The first page of two of the three example posts, most comments
    first. *)
Lemma getPosts_page_is_sorted_and_bounded_witness :
  validSort "comment_count" "desc" = true /\
  (String.length "" <= 48)%nat /\
  boundInteger 2 = Some 2 /\
  boundInteger (PrimFloat.mul (PrimFloat.sub 1 1) 2) = Some 0 /\
  exists posts,
    fst (getPosts stableEngine 1 "comment_count" "desc" "" 2 (withPosts episodeRows))
      = Normal posts /\
    posts = [mkStoredPost "Special" "2024-01-02T00:00:00.000Z" 8 3
                          "https://www.patreon.com/posts/2";
             mkStoredPost "Episode 2" "2024-01-03T00:00:00.000Z" 6 5
                          "https://www.patreon.com/posts/3"] /\
    Sorted (fun a b => sp_comment_count b <= sp_comment_count a) posts.
Proof.
  assert (Hq : (String.length "" <= 48)%nat) by (simpl; lia).
  assert (Hl : boundInteger 2 = Some 2) by (vm_compute; reflexivity).
  assert (Ho : boundInteger (PrimFloat.mul (PrimFloat.sub 1 1) 2) = Some 0)
    by (vm_compute; reflexivity).
  split; [reflexivity|]. split; [exact Hq|]. split; [exact Hl|]. split; [exact Ho|].
  destruct (getPosts_page_is_sorted_and_bounded
              1 "comment_count" "desc" "" 2 (withPosts episodeRows) 2 0
              eq_refl Hq Hl Ho) as (posts & Hp & _ & Hs & _).
  exists posts. split; [exact Hp|]. split; [|exact (Hs eq_refl)].
  vm_compute in Hp. now inversion Hp.
Defined.


(** A run over 61 pages that starts at the instant of the only row of the
    ledger: both rows then report the 40 posts and the link of this run. *)
Lemma run_writes_rows_of_its_instant_witness :
  fst (syncInPostsFromPatreon (feedNetwork (demoFeed 61)) 1000 1500
                              (withRuns sameInstantRun)) = Normal tt /\
  patreon_post_runs
    (snd (syncInPostsFromPatreon (feedNetwork (demoFeed 61)) 1000 1500
                                 (withRuns sameInstantRun)))
  = [mkRun 1000 (Some (elapsedSeconds 1000 1500)) (Some 40%nat) (Some "cursor-27");
     mkRun 1000 (Some (elapsedSeconds 1000 1500)) (Some 40%nat) (Some "cursor-27")].
Proof.
  assert (Hdone : fst (syncInPostsFromPatreon (feedNetwork (demoFeed 61)) 1000 1500
                                              (withRuns sameInstantRun)) = Normal tt)
    by (vm_compute; reflexivity).
  split; [exact Hdone|].
  destruct (run_writes_rows_of_its_instant (feedNetwork (demoFeed 61)) 1000 1500
                                           (withRuns sameInstantRun))
    as (Hlen & _ & Hrows).
  specialize (Hrows Hdone).
  destruct (patreon_post_runs
              (snd (syncInPostsFromPatreon (feedNetwork (demoFeed 61)) 1000 1500
                                           (withRuns sameInstantRun))))
    as [|r1 [|r2 [|r3 rest]]] eqn:E; try discriminate Hlen.
  assert (H1 : started_at r1 = 1000).
  { apply (f_equal (map started_at)) in E. vm_compute in E. now inversion E. }
  assert (H2 : started_at r2 = 1000).
  { apply (f_equal (map started_at)) in E. vm_compute in E. now inversion E. }
  rewrite (Hrows r1 (or_introl eq_refl) H1).
  rewrite (Hrows r2 (or_intror (or_introl eq_refl)) H2).
  vm_compute. reflexivity.
Defined.

Lemma extendQueryParams_sets_and_keeps_witness :
  NoDup (map fst [("page", "3")]) /\
  paramsGetAll "page"
    (extendQueryParams [("page", "2"); ("search", "cat"); ("page", "7")] [("page", "3")])
  = ["3"] /\
  paramsGetAll "search"
    (extendQueryParams [("page", "2"); ("search", "cat"); ("page", "7")] [("page", "3")])
  = paramsGetAll "search" [("page", "2"); ("search", "cat"); ("page", "7")].
Proof.
  assert (Hnd : NoDup (map fst [("page", "3")]))
    by (constructor; [intros [] | constructor]).
  destruct (extendQueryParams_sets_and_keeps
              [("page", "2"); ("search", "cat"); ("page", "7")] [("page", "3")] Hnd)
    as [Hset Hkeep].
  split; [exact Hnd|]. split.
  - apply Hset. now left.
  - apply Hkeep. cbn. intros [H|[]]. discriminate.
Defined.

(** A request sorted by likes, descending, with a search text and a page:
    the header link of the likes column sorts by likes ascending and keeps
    the search text. *)
Lemma header_link_is_a_valid_sort_witness :
  In "like_count" SortableColumns_values /\
  requestSort (headerLinkParams demoRequest (requestSort demoRequest)
                                (requestDirection demoRequest) "like_count")
    = "like_count" /\
  requestDirection (headerLinkParams demoRequest (requestSort demoRequest)
                                     (requestDirection demoRequest) "like_count")
    = "asc" /\
  requestSearch (headerLinkParams demoRequest (requestSort demoRequest)
                                  (requestDirection demoRequest) "like_count")
    = "cat".
Proof.
  assert (Hin : In "like_count" SortableColumns_values) by (right; now left).
  destruct (header_link_is_a_valid_sort
              demoRequest (requestSort demoRequest) (requestDirection demoRequest)
              "like_count" Hin) as (H1 & _ & H3 & _ & _ & H6).
  split; [exact Hin|]. split; [exact H1|]. split; [|exact H6].
  apply H3; reflexivity.
Defined.

Lemma run_follows_links_only_witness :
  hd_error (fetchesOf PartOne
              (newEvents freshWorld
                 (snd (syncInPostsFromPatreon faultOnSecond 1000 1500 freshWorld))))
  = Some initialApiUrl.
Proof.
  exact (proj1 (run_follows_links_only faultOnSecond 1000 1500 freshWorld)).
Defined.

(** Page -3 and page 1 of size 2 of the three example posts. *)
Lemma pages_below_one_show_page_one_witness :
  validSort "comment_count" "desc" = true /\
  (String.length "" <= 48)%nat /\
  boundInteger 2 = Some 2 /\
  boundInteger (PrimFloat.mul (PrimFloat.sub (-3) 1) 2) = Some (-8) /\
  boundInteger (PrimFloat.mul (PrimFloat.sub 1 1) 2) = Some 0 /\
  fst (getPosts stableEngine (-3) "comment_count" "desc" "" 2 (withPosts episodeRows))
  = fst (getPosts stableEngine 1 "comment_count" "desc" "" 2 (withPosts episodeRows)).
Proof.
  assert (Hq : (String.length "" <= 48)%nat) by (simpl; lia).
  assert (Hl : boundInteger 2 = Some 2) by (vm_compute; reflexivity).
  assert (Ho : boundInteger (PrimFloat.mul (PrimFloat.sub (-3) 1) 2) = Some (-8))
    by (vm_compute; reflexivity).
  assert (Ho' : boundInteger (PrimFloat.mul (PrimFloat.sub 1 1) 2) = Some 0)
    by (vm_compute; reflexivity).
  split; [reflexivity|]. split; [exact Hq|]. split; [exact Hl|].
  split; [exact Ho|]. split; [exact Ho'|].
  apply (pages_below_one_show_page_one (-3) 1 "comment_count" "desc" "" 2
           (withPosts episodeRows) 2 (-8) 0 eq_refl Hq Hl Ho Ho'); lia.
Defined.
